(** * A shallow embedding of [sphinx_matlab/grammar/parser.py]

    The TextMate grammar interpreter [GrammarParser]: construction of the
    rule objects from a grammar dictionary, the search primitive
    ([search]), the per-rule interpreter ([parse]) and the dispatcher
    ([match_patterns]).

    Conventions of the embedding.
    - Python [int] is [Z]; the position inside a [StringIO] is kept as a
      [nat] (it is never negative: [seek] refuses a negative target).
    - Python [str] is [string]; the text is assumed to be ASCII, so that
      the byte offsets of the regex engine are character offsets.
    - Parser objects live in an arena: an object is named by its index.
      [PARSERSTORE] (a class-level dict) is a [gmap string nat].
    - A Python exception is a value [Raise e]; a run that exceeds the
      recursion depth or the iteration budget of the model is [OutOfFuel].
    - The regex engine (onigurumacffi) is an external library: a compiled
      pattern is a record of its source text and its search function.
    - The keyword arguments threaded through [parse], [search] and
      [match_patterns] are taken to be empty.
    - [ParsedElement] and [ParsedElementBlock] are value objects; an
      element built without [captures] has none. *)

From Stdlib Require Import ZArith String Ascii List Bool Lia.
From stdpp Require Import base option list gmap strings.

Local Open Scope string_scope.
Local Open Scope list_scope.
Local Open Scope Z_scope.

(** ** Exceptions and results *)

Inductive Exn : Type :=
| IncludedParserNotFound (callId : string)
| AttributeError
| ValueError
| IndexError
| TypeError
| OnigError.

Inductive Result (A : Type) : Type :=
| Ok (a : A)
| Raise (e : Exn)
| OutOfFuel.
Arguments Ok {A} a.
Arguments Raise {A} e.
Arguments OutOfFuel {A}.

(** ** The stream: [io.StringIO] *)

Record StringIO : Type := mkStringIO { buffer : string; position : nat }.

(** Stateful, fallible computations over one stream. *)
Definition M (A : Type) : Type := StringIO -> Result (A * StringIO).

Definition ret {A} (a : A) : M A := fun s => Ok (a, s).
Definition raise {A} (e : Exn) : M A := fun _ => Raise e.
Definition out_of_fuel {A} : M A := fun _ => OutOfFuel.
Definition bind {A B} (c : M A) (k : A -> M B) : M B :=
  fun s => match c s with
           | Ok (a, s') => k a s'
           | Raise e => Raise e
           | OutOfFuel => OutOfFuel
           end.

Notation "'let*' x ':=' c 'in' k" := (bind c (fun x => k))
  (at level 10, x pattern, c at level 100, k at level 200).
Notation "c ';;' k" := (bind c (fun _ => k))
  (at level 100, k at level 200, right associativity).

Definition tell : M Z := fun s => Ok (Z.of_nat (position s), s).

(** [stream.seek(p)]: a negative target raises [ValueError]; a target
    past the end is accepted. *)
Definition seek (p : Z) : M Z :=
  fun s => if p <? 0 then Raise ValueError
           else Ok (p, mkStringIO (buffer s) (Z.to_nat p)).

(** [stream.seek(0, SEEK_END)] *)
Definition seek_end : M Z :=
  fun s => let n := String.length (buffer s) in
           Ok (Z.of_nat n, mkStringIO (buffer s) n).

(** [stream.read(size)]: [None] or a negative size reads to the end;
    nothing is read (and the position stays) past the end. *)
Definition read (size : option Z) : M string :=
  fun s =>
    let n := (String.length (buffer s) - position s)%nat in
    let k := match size with
             | None => n
             | Some z => if z <? 0 then n else Nat.min (Z.to_nat z) n
             end in
    Ok (substring (position s) k (buffer s),
        mkStringIO (buffer s) (position s + k)).

Definition newline : ascii := Ascii.ascii_of_nat 10.

(** Length of the line that starts a string, its newline included. *)
Fixpoint line_length (s : string) : nat :=
  match s with
  | EmptyString => 0
  | String c r => if Ascii.eqb c newline then 1 else S (line_length r)
  end.

(** [stream.readline()] *)
Definition readline : M string :=
  fun s =>
    let n := (String.length (buffer s) - position s)%nat in
    let k := line_length (substring (position s) n (buffer s)) in
    Ok (substring (position s) k (buffer s),
        mkStringIO (buffer s) (position s + k)).

(** [str.split("\n")] *)
Fixpoint split_newline (s : string) : list string :=
  match s with
  | EmptyString => [EmptyString]
  | String c r =>
      if Ascii.eqb c newline then EmptyString :: split_newline r
      else match split_newline r with
           | h :: t => String c h :: t
           | [] => [String c EmptyString]
           end
  end.

(** [needle in hay] on strings. *)
Fixpoint contains (needle hay : string) : bool :=
  String.prefix needle hay
  || match hay with
     | EmptyString => false
     | String _ r => contains needle r
     end.

(** Python sequence indexing and slicing (negative indices count from
    the end; a slice is clamped to the sequence). *)
Definition py_index {A} (l : list A) (n : Z) : option A :=
  let len := Z.of_nat (length l) in
  if n <? 0 then (if len + n <? 0 then None else nth_error l (Z.to_nat (len + n)))
  else nth_error l (Z.to_nat n).

Definition py_clamp (len i : Z) : Z :=
  let j := if i <? 0 then i + len else i in Z.max 0 (Z.min len j).

Definition py_slice (s : string) (b e : Z) : string :=
  let len := Z.of_nat (String.length s) in
  let b' := py_clamp len b in
  let e' := py_clamp len e in
  substring (Z.to_nat b') (Z.to_nat (e' - b')) s.

(** ** The regex adapter

    [onigurumacffi._Pattern] and [onigurumacffi._Match].  A match keeps
    the searched text and one region [(beg, end)] per group, group 0 (the
    whole match) first; a group that took no part has region [(-1, -1)]. *)

Record Match : Type := mkMatch {
  m_string : string;
  m_span : Z * Z;
  m_groups : list (Z * Z)
}.

Definition m_regs (m : Match) : list (Z * Z) := m_span m :: m_groups m.
Definition m_start (m : Match) : Z := fst (m_span m).
Definition m_end (m : Match) : Z := snd (m_span m).

(** [matching.group(n)] *)
Definition m_group (m : Match) (n : Z) : Result string :=
  match py_index (m_regs m) n with
  | Some (b, e) => Ok (py_slice (m_string m) b e)
  | None => Raise IndexError
  end.

(** [matching.span(n)] *)
Definition m_span_of (m : Match) (n : Z) : Result (Z * Z) :=
  match py_index (m_regs m) n with
  | Some (b, e) =>
      Ok (Z.of_nat (String.length (py_slice (m_string m) 0 b)),
          Z.of_nat (String.length (py_slice (m_string m) 0 e)))
  | None => Raise IndexError
  end.

Record Pattern : Type := mkPattern {
  _pattern : string;
  search_line : string -> option Match
}.

(** ** Elements, rule objects *)

#[local] Set Warnings "-register-all".

Inductive Element : Type :=
| ParsedElement (token content : string) (captures : list Element)
| ParsedElementBlock (token content : string) (captures : list Element)
                     (begin end_ : option Element)
| RawString (content : string).

(** What [set_parser] stores: a parser object, or the bare name of an
    include (a Python [str]). *)
Inductive Ref : Type :=
| ObjRef (p : nat)
| NameRef (name : string).

Record GrammarParser : Type := mkGrammarParser {
  gp_key : string;
  gp_token : string;
  gp_contentToken : string;
  gp_comment : string;
  gp_match : option Pattern;
  gp_begin : option Pattern;
  gp_end : option Pattern;
  gp_captures : list (Z * Ref);
  gp_beginCaptures : list (Z * Ref);
  gp_endCaptures : list (Z * Ref);
  gp_patterns : list Ref
}.

Definition regex_lookbehind_max : Z := 100.
Definition regex_lookbehind_step : Z := 5.

(** Truth value of a Python [str] and of an [Optional[int]]. *)
Definition str_truthy (s : string) : bool :=
  match s with EmptyString => false | _ => true end.
Definition int_truthy (z : option Z) : bool :=
  match z with Some v => negb (v =? 0) | None => false end.

Definition dict_get {A} (d : list (Z * A)) (k : Z) : option A :=
  snd <$> List.find (fun kv => fst kv =? k) d.

(** [(matched, elements, (parsedStart, parsedEnd))] *)
Definition ParseResult : Type := bool * list Element * option (Z * Z).
(** [(matchedString, elements, startPos)] *)
Definition SearchResult : Type := option string * list Element * option Z.

Definition lift {A} (r : Result A) : M A :=
  fun s => match r with
           | Ok a => Ok (a, s)
           | Raise e => Raise e
           | OutOfFuel => OutOfFuel
           end.

(** One pass of the retry loop of [search], as logged by the model: the
    shift at the top of the pass, the shift used, and where the scan
    starts. *)
Record Pass : Type := mkPass { pass_entry : Z; pass_shift : Z; pass_from : Z }.

(** The pair [(parserLastElements[p], parserLastPos[p])], per parser
    object; a missing entry is the initial [None] of [dict.fromkeys]. *)
Abbreviation Memo := (gmap nat (list Element * (Z * Z))).

(** ** The interpreter

    [heap] maps an object to its fields and [PARSERSTORE] is the class
    dictionary; both are fixed while a text is parsed.  [parse_rec] is
    the recursive entry [parser.parse(stream, startPos, closePos)]. *)

Section Interpreter.

Variable heap : nat -> GrammarParser.
Variable PARSERSTORE : gmap string nat.
Variable parse_rec : nat -> Z -> option Z -> M ParseResult.

(** [get_parser] *)
Definition get_parser (callId : Ref) : Result nat :=
  match callId with
  | NameRef name =>
      match PARSERSTORE !! name with
      | Some p => Ok p
      | None => Raise (IncludedParserNotFound name)
      end
  | ObjRef p => Ok p
  end.

(** [[self.get_parser(callId) for callId in self.patterns]] *)
Fixpoint get_parsers (callIds : list Ref) : Result (list nat) :=
  match callIds with
  | [] => Ok []
  | callId :: rest =>
      match get_parser callId with
      | Ok p =>
          match get_parsers rest with
          | Ok ps => Ok (p :: ps)
          | Raise e => Raise e
          | OutOfFuel => OutOfFuel
          end
      | Raise e => Raise e
      | OutOfFuel => OutOfFuel
      end
  end.

(** [stream_end_pos] and [stream_read_pos] *)
Definition stream_end_pos : M Z :=
  let* pos := tell in
  let* closePos := seek_end in
  seek pos;;
  ret closePos.

Definition stream_read_pos (start end_ : Z) : M string :=
  seek start;;
  let* content := read (Some (end_ - start)) in
  seek end_;;
  ret content.

(** *** [search] *)

(** The [for lineNumber, line in enumerate(lines)] scan: the first line
    with a match, and the length of the lines before it. *)
Fixpoint scan_lines (regex : Pattern) (lines : list string) (linePos : Z)
  : option (Match * Z) :=
  match lines with
  | [] => None
  | line :: rest =>
      match search_line regex line with
      | Some matching => Some (matching, linePos)
      | None => scan_lines regex rest (linePos + Z.of_nat (String.length line))
      end
  end.

(** [any(char != " " for char in line)] *)
Fixpoint any_not_space (line : string) : bool :=
  match line with
  | EmptyString => false
  | String c r => negb (Ascii.eqb c " "%char) || any_not_space r
  end.

Definition performLookbehind (regex : Pattern) : bool :=
  contains "(?<" (_pattern regex).

(** The body of the [while] loop: the match found in this pass with its
    [matchingToStreamPos] (or [None], where the source continues with a
    larger shift), and the values of [lookbehind] and
    [streamCanLookbehind] after the two adjustments at its top. *)
Definition search_pass (regex : Pattern) (readSize : option Z)
    (onlyLeadingWhiteSpace : bool) (initPos lookbehind0 : Z) (can0 : bool)
  : M (option (Match * Z) * Z * bool) :=
  let can1 := if performLookbehind regex then can0 else false in
  let '(lookbehind, can2) :=
    if initPos - lookbehind0 <? 0 then (initPos, false) else (lookbehind0, can1) in
  match (if int_truthy readSize then readSize else None) with
  | Some size =>
      seek (initPos - lookbehind);;
      let* text := read (Some (size + lookbehind)) in
      let lines := List.map (fun line => line ++ String newline EmptyString)%string
                            (split_newline text) in
      match scan_lines regex lines 0 with
      | Some (matching, linePos) =>
          ret (Some (matching, linePos + initPos - lookbehind), lookbehind, can2)
      | None => ret (None, lookbehind, can2)
      end
  | None =>
      seek (initPos - lookbehind);;
      let* line := readline in
      match search_line regex line with
      | Some matching =>
          if onlyLeadingWhiteSpace
             && any_not_space (py_slice line 0 (m_start matching))
          then ret (None, lookbehind, can2)
          else ret (Some (matching, initPos + lookbehind), lookbehind, can2)
      | None => ret (None, lookbehind, can2)
      end
  end.

(** The [while lookbehind <= max and streamCanLookbehind] loop.  A pass
    without a match adds the step and goes round again. *)
Fixpoint search_loop (fuel : nat) (regex : Pattern) (readSize : option Z)
    (onlyLeadingWhiteSpace : bool) (initPos lookbehind : Z) (can : bool)
    (trace : list Pass) : M (option (Match * Z) * list Pass) :=
  if (lookbehind <=? regex_lookbehind_max) && can then
    match fuel with
    | O => out_of_fuel
    | S fuel' =>
        let* (found, shift, can') :=
          search_pass regex readSize onlyLeadingWhiteSpace initPos lookbehind can in
        let trace' := trace ++ [mkPass lookbehind shift (initPos - shift)] in
        match found with
        | Some r => ret (Some r, trace')
        | None =>
            search_loop fuel' regex readSize onlyLeadingWhiteSpace initPos
                        (shift + regex_lookbehind_step) can' trace'
        end
    end
  else ret (None, trace).

(** Passes the loop can need: one per multiple of the step up to the
    maximum, and one more. *)
Definition search_fuel : nat :=
  Z.to_nat (regex_lookbehind_max / regex_lookbehind_step) + 2.

(** The [for groupId, parser in parsers.items()] loop; [None] stands for
    the early return taken when a group's parser does not match. *)
Fixpoint parse_groups (matching : Match) (matchingToStreamPos : Z)
    (parsers : list (Z * Ref)) (elements : list Element)
  : M (option (list Element)) :=
  match parsers with
  | [] => ret (Some elements)
  | (groupId, parser) :: rest =>
      let* group := lift (m_group matching groupId) in
      if negb (str_truthy group)
      then parse_groups matching matchingToStreamPos rest elements
      else
        let* span := lift (m_span_of matching groupId) in
        match parser with
        | NameRef _ => raise AttributeError
        | ObjRef p =>
            let* (groupMatched, parsed_elements, _) :=
              parse_rec p (fst span + matchingToStreamPos)
                          (Some (snd span + matchingToStreamPos)) in
            if groupMatched
            then parse_groups matching matchingToStreamPos rest
                              (elements ++ parsed_elements)
            else ret None
        end
  end.

Definition search (regex : Pattern) (parsers : list (Z * Ref))
    (readSize : option Z) (onlyLeadingWhiteSpace : bool) : M SearchResult :=
  let* initPos := tell in
  let* (found, _) :=
    search_loop search_fuel regex readSize onlyLeadingWhiteSpace initPos 0 true [] in
  match found with
  | None =>
      seek initPos;;
      ret (None, [], None)
  | Some (matching, matchingToStreamPos) =>
      let startPos := matchingToStreamPos + m_start matching in
      let closePos := matchingToStreamPos + m_end matching in
      seek startPos;;
      let* matchedString := read (Some (closePos - startPos)) in
      match dict_get parsers 0 with
      | Some (ObjRef p0) =>
          seek closePos;;
          ret (Some matchedString,
               [ParsedElement (gp_token (heap p0)) matchedString []],
               Some startPos)
      | Some (NameRef _) => raise AttributeError
      | None =>
          match parsers with
          | _ :: _ =>
              let* parsed := parse_groups matching matchingToStreamPos parsers [] in
              match parsed with
              | None =>
                  seek initPos;;
                  ret (None, [], None)
              | Some [] => ret (Some matchedString, [], Some startPos)
              | Some elements =>
                  seek closePos;;
                  ret (Some matchedString, elements, Some startPos)
              end
          | [] =>
              seek closePos;;
              ret (Some matchedString, [], Some startPos)
          end
      end
  end.

(** *** [match_patterns] *)

(** The running choice [(patternElements, patternPos)]. *)
Definition Choice : Type := list Element * option (Z * Z).

(** The test that lets a candidate take the place of the running choice.
    [patternPos] is set together with [patternElements], so it is not
    [None] when the second and third disjuncts are evaluated. *)
Definition replaces (opt : list Element * (Z * Z)) (cur : Choice) : bool :=
  match fst cur, snd cur with
  | [], _ => true
  | _ :: _, None => true
  | _ :: _, Some patternPos =>
      (fst (snd opt) <? fst patternPos)
      || ((fst (snd opt) =? fst patternPos) && (snd (snd opt) >? snd patternPos))
  end.

Definition choose (cur : Choice) (opt : list Element * (Z * Z)) : Choice :=
  if replaces opt cur then (fst opt, Some (snd opt)) else cur.

(** What one parser contributes at the cursor: its memoized result when
    that starts at or after the cursor, else a fresh parse, memoized when
    it matches. *)
Definition candidate (parser : nat) (patternStartPos closePos : Z) (memo : Memo)
  : M (option (list Element * (Z * Z)) * Memo) :=
  let fresh : M (option (list Element * (Z * Z)) * Memo) :=
    let* (patternMatched, optPatternElements, optPatternPos) :=
      parse_rec parser patternStartPos (Some closePos) in
    if (patternMatched : bool) then
      match optPatternPos with
      | Some pos =>
          ret (Some (optPatternElements, pos),
               <[parser := (optPatternElements, pos)]> memo)
      | None => raise TypeError
      end
    else ret (None, memo) in
  match memo !! parser with
  | Some (lastElements, lastPos) =>
      if fst lastPos >=? patternStartPos
      then ret (Some (lastElements, lastPos), memo)
      else fresh
  | None => fresh
  end.

(** The [for parser in parsers] loop of one iteration. *)
Fixpoint for_parsers (parsers : list nat) (patternStartPos closePos : Z)
    (memo : Memo) (cur : Choice) : M (Choice * Memo) :=
  match parsers with
  | [] => ret (cur, memo)
  | parser :: rest =>
      let* (opt, memo') := candidate parser patternStartPos closePos memo in
      match opt with
      | Some c => for_parsers rest patternStartPos closePos memo' (choose cur c)
      | None => for_parsers rest patternStartPos closePos memo' cur
      end
  end.

(** One iteration of the [while]: [None] is the [break]; otherwise the
    new cursor, the memo and the elements captured so far. *)
Definition iteration (parsers : list nat) (closePos patternStartPos : Z)
    (memo : Memo) (captured : list Element)
  : M (option (Z * Memo * list Element)) :=
  let* (choice, memo') := for_parsers parsers patternStartPos closePos memo ([], None) in
  let (patternElements, patternPos) := choice in
  match patternElements, patternPos with
  | _ :: _, Some pos => ret (Some (snd pos, memo', captured ++ patternElements))
  | _ :: _, None => raise TypeError
  | [], _ => ret None
  end.

(** The [while patternStartPos < closePos] loop; [iters] bounds the
    number of iterations the model follows. *)
Fixpoint dispatch_loop (iters : nat) (parsers : list nat) (closePos patternStartPos : Z)
    (memo : Memo) (captured : list Element) : M (list Element) :=
  if patternStartPos <? closePos then
    match iters with
    | O => out_of_fuel
    | S iters' =>
        let* next := iteration parsers closePos patternStartPos memo captured in
        match next with
        | Some (patternStartPos', memo', captured') =>
            dispatch_loop iters' parsers closePos patternStartPos' memo' captured'
        | None => ret captured
        end
    end
  else ret captured.

Definition match_patterns (iters : nat) (self : nat) (startPos closePos : Z)
  : M (list Element) :=
  let* parsers := lift (get_parsers (gp_patterns (heap self))) in
  seek startPos;;
  dispatch_loop iters parsers closePos startPos ∅ [].

(** *** [parse] *)

Definition option_Z_eqb (a b : option Z) : bool :=
  match a, b with
  | Some x, Some y => x =? y
  | None, None => true
  | _, _ => false
  end.

Definition token_or_comment (node : GrammarParser) : string :=
  if str_truthy (gp_token node) then gp_token node else gp_comment node.

(** The common exit: [parsedEnd = stream.tell()] and the success triple. *)
Definition succeed (elements : list Element) (parsedStart : Z) : M ParseResult :=
  let* parsedEnd := tell in
  ret (true, elements, Some (parsedStart, parsedEnd)).

Definition parse_match (node : GrammarParser) (regex : Pattern)
    (startPos : Z) (closePos : option Z) : M ParseResult :=
  let* (string, captures, parsedStart) :=
    search regex (gp_captures node)
           (match closePos with Some c => Some (c - startPos + 1) | None => None end)
           true in
  match string, parsedStart with
  | Some content, Some start =>
      succeed [ParsedElement (gp_token node) content captures] start
  | Some _, None => raise TypeError
  | None, _ => ret (false, [], None)
  end.

Definition parse_block (iters : nat) (self : nat) (node : GrammarParser)
    (begin_ end_ : Pattern) (startPos : Z) (closePos : option Z) : M ParseResult :=
  let* (beginString, beginCaptured, parsedStart) :=
    search begin_ (gp_beginCaptures node)
           (match closePos with Some c => Some (c - startPos + 1) | None => None end)
           true in
  match beginString, parsedStart with
  | None, _ => ret (false, [], None)
  | Some _, None => raise TypeError
  | Some _, Some parsedStart =>
      let* midStartPos := tell in
      let* (endString, endCaptured, midClosePos) :=
        search end_ (gp_endCaptures node)
               (match closePos with
                | Some c => Some (c - midStartPos + 1)
                | None => Some (-1)
                end)
               false in
      let* parsedEnd := tell in
      match endString, midClosePos with
      | None, _ => ret (false, [], None)
      | Some _, None => raise TypeError
      | Some _, Some midClose =>
          if (startPos =? midStartPos) && option_Z_eqb closePos midClosePos then
            let* content := stream_read_pos midStartPos midClose in
            ret (true, [RawString content], Some (midStartPos, midClose))
          else
            let* midCaptured :=
              match gp_patterns node with
              | _ :: _ => match_patterns iters self midStartPos midClose
              | [] => ret []
              end in
            seek parsedEnd;;
            let* elements :=
              if str_truthy (gp_contentToken node) then
                let* content := stream_read_pos midStartPos midClose in
                ret [ParsedElementBlock (gp_token node) content midCaptured
                                        (head beginCaptured) (head endCaptured)]
              else
                let* content := stream_read_pos parsedStart parsedEnd in
                ret [ParsedElementBlock (token_or_comment node) content midCaptured
                                        (head beginCaptured) (head endCaptured)] in
            succeed elements parsedStart
      end
  end.

Definition parse_patterns (iters : nat) (self : nat) (node : GrammarParser)
    (startPos : Z) (closePos : option Z) : M ParseResult :=
  let parsedStart := startPos in
  let* parsedEnd :=
    if int_truthy closePos
    then ret (match closePos with Some c => c | None => 0 end)
    else stream_end_pos in
  let* captured := match_patterns iters self parsedStart parsedEnd in
  let* patternClosePos := tell in
  let* elements :=
    match captured with
    | _ :: _ =>
        if str_truthy (gp_token node) then
          let* content := stream_read_pos parsedStart patternClosePos in
          ret [ParsedElement (gp_token node) content captured]
        else ret captured
    | [] => ret []
    end in
  succeed elements parsedStart.

Definition parse_leaf (node : GrammarParser) (startPos : Z) (closePos : option Z)
  : M ParseResult :=
  let* (parsedStart, content) :=
    match closePos with
    | Some c =>
        let* content := read (Some (c - startPos)) in
        ret (startPos, content)
    | None =>
        let* parsedStart := tell in
        let* content := readline in
        ret (parsedStart, content)
    end in
  succeed [ParsedElement (token_or_comment node) content []] parsedStart.

(** The body of [parse], by the shape of the rule. *)
Definition parse_body (iters : nat) (self : nat) (startPos : Z) (closePos : option Z)
  : M ParseResult :=
  let node := heap self in
  seek startPos;;
  match gp_match node with
  | Some regex => parse_match node regex startPos closePos
  | None =>
      match gp_begin node, gp_end node with
      | Some begin_, Some end_ => parse_block iters self node begin_ end_ startPos closePos
      | _, _ =>
          match gp_patterns node with
          | _ :: _ => parse_patterns iters self node startPos closePos
          | [] => parse_leaf node startPos closePos
          end
      end
  end.

End Interpreter.

(** [parse]: [depth] bounds the nesting of calls, [iters] the iterations
    of each dispatch loop. *)
Fixpoint parse (heap : nat -> GrammarParser) (PARSERSTORE : gmap string nat)
    (depth iters : nat) (self : nat) (startPos : Z) (closePos : option Z)
  : M ParseResult :=
  match depth with
  | O => out_of_fuel
  | S depth' =>
      parse_body heap PARSERSTORE (parse heap PARSERSTORE depth' iters)
                 iters self startPos closePos
  end.

(** ** Construction: [GrammarParser.__init__]

    The grammar dictionary, with the keys the constructor reads.  The keys
    of a captures dictionary are given as the integers [int(groupId)]. *)

Inductive Grammar : Type := GrammarDict {
  g_name : option string;
  g_contentName : option string;
  g_comment : option string;
  g_match : option string;
  g_begin : option string;
  g_end : option string;
  g_captures : option (list (Z * Grammar));
  g_beginCaptures : option (list (Z * Grammar));
  g_endCaptures : option (list (Z * Grammar));
  g_patterns : option (list Grammar);
  g_include : option string
}.

(** The objects built so far and the class dictionary. *)
Record World : Type := mkWorld {
  objects : list GrammarParser;
  store : gmap string nat
}.

Definition blank : GrammarParser :=
  mkGrammarParser "" "" "" "" None None None [] [] [] [].

Definition heap_of (w : World) : nat -> GrammarParser :=
  fun p => nth p (objects w) blank.

(** [d[k] = v] on a dict kept in insertion order. *)
Fixpoint dict_set {A} (d : list (Z * A)) (k : Z) (v : A) : list (Z * A) :=
  match d with
  | [] => [(k, v)]
  | (k', v') :: r => if k' =? k then (k, v) :: r else (k', v') :: dict_set r k v
  end.

(** [s[1:]] *)
Definition str_tail (s : string) : string :=
  match s with EmptyString => EmptyString | String _ r => r end.

Definition get_default (o : option string) : string :=
  match o with Some v => v | None => EmptyString end.

Section Construction.

(** [re.compile]; [None] stands for the engine's error. *)
Variable compile : string -> option Pattern.

Definition compile_opt (src : option string) : Result (option Pattern) :=
  match src with
  | None => Ok None
  | Some text =>
      match compile text with
      | Some regex => Ok (Some regex)
      | None => Raise OnigError
      end
  end.

(** [set_parser], given the constructor for an inline rule. *)
Definition set_parser (init_rec : Grammar -> World -> Result (nat * World))
    (self : nat) (grammar : Grammar) (w : World) : Result (Ref * World) :=
  match g_include grammar with
  | Some target =>
      if String.eqb target "$self" then Ok (ObjRef self, w)
      else Ok (NameRef (str_tail target), w)
  | None =>
      match init_rec grammar w with
      | Ok (p, w') => Ok (ObjRef p, w')
      | Raise e => Raise e
      | OutOfFuel => OutOfFuel
      end
  end.

(** [__init_captures]: the loop over the items of a captures dictionary,
    given [set_parser]. *)
Fixpoint init_captures (set : Grammar -> World -> Result (Ref * World))
    (items : list (Z * Grammar)) (captures : list (Z * Ref)) (w : World)
  : Result (list (Z * Ref) * World) :=
  match items with
  | [] => Ok (captures, w)
  | (groupId, pattern) :: rest =>
      match set pattern w with
      | Ok (r, w') => init_captures set rest (dict_set captures groupId r) w'
      | Raise e => Raise e
      | OutOfFuel => OutOfFuel
      end
  end.

Definition init_captures_opt (set : Grammar -> World -> Result (Ref * World))
    (items : option (list (Z * Grammar))) (w : World)
  : Result (list (Z * Ref) * World) :=
  match items with
  | Some l => init_captures set l [] w
  | None => Ok ([], w)
  end.

(** [[self.set_parser(pattern) for pattern in grammar["patterns"]]] *)
Fixpoint init_patterns (set : Grammar -> World -> Result (Ref * World))
    (items : list Grammar) (w : World) : Result (list Ref * World) :=
  match items with
  | [] => Ok ([], w)
  | pattern :: rest =>
      match set pattern w with
      | Ok (r, w') =>
          match init_patterns set rest w' with
          | Ok (rs, w'') => Ok (r :: rs, w'')
          | Raise e => Raise e
          | OutOfFuel => OutOfFuel
          end
      | Raise e => Raise e
      | OutOfFuel => OutOfFuel
      end
  end.

Definition init_patterns_opt (set : Grammar -> World -> Result (Ref * World))
    (items : option (list Grammar)) (w : World) : Result (list Ref * World) :=
  match items with
  | Some l => init_patterns set l w
  | None => Ok ([], w)
  end.

(** The end of [__init__]: the patterns, and the fields of the object. *)
Definition init_finish (set : Grammar -> World -> Result (Ref * World))
    (grammar : Grammar) (key : string) (self : nat)
    (m b e : option Pattern) (c bc ec : list (Z * Ref)) (w : World)
  : Result (nat * World) :=
  match init_patterns_opt set (g_patterns grammar) w with
  | Ok (ps, w') =>
      let node := mkGrammarParser key (get_default (g_name grammar))
                    (get_default (g_contentName grammar))
                    (get_default (g_comment grammar)) m b e c bc ec ps in
      Ok (self, mkWorld (<[self := node]> (objects w')) (store w'))
  | Raise e => Raise e
  | OutOfFuel => OutOfFuel
  end.

(** [__init__]: the new object takes the next index and, under a
    non-empty [key], its entry in the class dictionary; then the regexes
    are compiled and the captures and patterns are set. *)
Fixpoint init (grammar : Grammar) (key : string) (w : World) {struct grammar}
  : Result (nat * World) :=
  let self := length (objects w) in
  let w0 := mkWorld (objects w ++ [blank])
                    (if str_truthy key then <[key := self]> (store w) else store w) in
  let set := set_parser (fun g w' => init g "" w') self in
  match g_match grammar, g_begin grammar, g_end grammar with
  | Some text, _, _ =>
      match compile_opt (Some text) with
      | Ok m =>
          match init_captures_opt set (g_captures grammar) w0 with
          | Ok (c, w1) => init_finish set grammar key self m None None c [] [] w1
          | Raise e => Raise e
          | OutOfFuel => OutOfFuel
          end
      | Raise e => Raise e
      | OutOfFuel => OutOfFuel
      end
  | None, Some btext, Some etext =>
      match compile_opt (Some btext) with
      | Ok b =>
          match compile_opt (Some etext) with
          | Ok e =>
              match init_captures_opt set (g_beginCaptures grammar) w0 with
              | Ok (bc, w1) =>
                  match init_captures_opt set (g_endCaptures grammar) w1 with
                  | Ok (ec, w2) => init_finish set grammar key self None b e [] bc ec w2
                  | Raise e' => Raise e'
                  | OutOfFuel => OutOfFuel
                  end
              | Raise e' => Raise e'
              | OutOfFuel => OutOfFuel
              end
          | Raise e' => Raise e'
          | OutOfFuel => OutOfFuel
          end
      | Raise e' => Raise e'
      | OutOfFuel => OutOfFuel
      end
  | None, _, _ => init_finish set grammar key self None None None [] [] [] w0
  end.

End Construction.

(** ** A fragment of the regex engine

    The engine is not part of the repository.  For the concrete runs below
    a compiled pattern is needed; [onig_compile] covers the fragment of
    the Oniguruma syntax made of literal characters, capture groups
    ([( )] and the named form [(?<name> )]) and look-behind of a literal
    ([(?<=lit)], [(?<!lit)]).  Within that fragment the leftmost match is
    the only match at its start, so no backtracking is involved.  As in
    Oniguruma, the plain groups of a pattern that has a named group do
    not capture, and a source with an unbalanced parenthesis, an unclosed
    look-behind or a group name that is unclosed or empty does not
    compile. *)

Module Onig.

Inductive Instr : Type :=
| IChar (c : ascii)
| IOpen (named : bool)
| IClose
| IBehind (negated : bool) (lit : string).

Definition drop (n : nat) (s : string) : string :=
  substring n (String.length s - n) s.

(** The text before the first [c], and the text after it. *)
Fixpoint break_at (c : ascii) (s : string) : string * string :=
  match s with
  | EmptyString => (EmptyString, EmptyString)
  | String d r =>
      if Ascii.eqb c d then (EmptyString, r)
      else let (a, b) := break_at c r in (String d a, b)
  end.

Fixpoint lex (fuel : nat) (s : string) : list Instr :=
  match fuel with
  | O => []
  | S fuel' =>
      if String.prefix "(?<=" s then
        let (lit, rest) := break_at ")" (drop 4 s) in
        IBehind false lit :: lex fuel' rest
      else if String.prefix "(?<!" s then
        let (lit, rest) := break_at ")" (drop 4 s) in
        IBehind true lit :: lex fuel' rest
      else if String.prefix "(?<" s then
        let (_, rest) := break_at ">" (drop 3 s) in
        IOpen true :: lex fuel' rest
      else
        match s with
        | EmptyString => []
        | String c r =>
            if Ascii.eqb c "(" then IOpen false :: lex fuel' r
            else if Ascii.eqb c ")" then IClose :: lex fuel' r
            else IChar c :: lex fuel' r
        end
  end.

(** The source is in the fragment and the engine accepts it: every
    parenthesis has its partner ([depth] counts the groups open), every
    look-behind is closed, every group name is closed and not empty. *)
Fixpoint well_formed (fuel : nat) (s : string) (depth : nat) : bool :=
  match fuel with
  | O => match s with EmptyString => (depth =? 0)%nat | _ => false end
  | S fuel' =>
      if String.prefix "(?<=" s || String.prefix "(?<!" s then
        let (_, rest) := break_at ")" (drop 4 s) in
        contains ")" (drop 4 s) && well_formed fuel' rest depth
      else if String.prefix "(?<" s then
        let (name, rest) := break_at ">" (drop 3 s) in
        contains ">" (drop 3 s) && str_truthy name && well_formed fuel' rest (S depth)
      else
        match s with
        | EmptyString => (depth =? 0)%nat
        | String c r =>
            if Ascii.eqb c "(" then well_formed fuel' r (S depth)
            else if Ascii.eqb c ")" then
              match depth with
              | O => false
              | S depth' => well_formed fuel' r depth'
              end
            else well_formed fuel' r depth
        end
  end.

Definition is_named (instr : Instr) : bool :=
  match instr with
  | IOpen true => true
  | _ => false
  end.

(** Run the program on [line] from offset [i]; [plain] tells whether the
    plain groups capture, and [opened] is the stack of the groups not yet
    closed (number and start, or [None] for a group that does not
    capture).  The result is the end offset and the regions of the
    groups. *)
Fixpoint run (plain : bool) (prog : list Instr) (line : string) (i : nat)
    (opened : list (option (nat * nat))) (regs : list (Z * Z))
  : option (nat * list (Z * Z)) :=
  match prog with
  | [] => Some (i, regs)
  | IChar c :: prog' =>
      match String.get i line with
      | Some d => if Ascii.eqb c d then run plain prog' line (S i) opened regs else None
      | None => None
      end
  | IOpen named :: prog' =>
      if named || plain
      then run plain prog' line i (Some (length regs, i) :: opened) (regs ++ [(-1, -1)])
      else run plain prog' line i (None :: opened) regs
  | IClose :: prog' =>
      match opened with
      | Some (g, b) :: opened' =>
          run plain prog' line i opened' (<[g := (Z.of_nat b, Z.of_nat i)]> regs)
      | None :: opened' => run plain prog' line i opened' regs
      | [] => None
      end
  | IBehind negated lit :: prog' =>
      let n := String.length lit in
      let seen := (n <=? i)%nat && String.eqb (substring (i - n) n line) lit in
      if xorb seen negated then run plain prog' line i opened regs else None
  end.

Fixpoint search_from (plain : bool) (prog : list Instr) (line : string) (tries i : nat)
  : option Match :=
  match run plain prog line i [] [] with
  | Some (e, regs) => Some (mkMatch line (Z.of_nat i, Z.of_nat e) regs)
  | None =>
      match tries with
      | O => None
      | S tries' => search_from plain prog line tries' (S i)
      end
  end.

Definition compile (source : string) : Pattern :=
  let prog := lex (String.length source) source in
  mkPattern source
            (fun line => search_from (negb (existsb is_named prog)) prog line
                                     (String.length line) 0).

End Onig.

(** [re.compile(source)]; [None] stands for the [OnigError]. *)
Definition onig_compile (source : string) : option Pattern :=
  if Onig.well_formed (String.length source) source 0
  then Some (Onig.compile source)
  else None.

(** ** Grammars used in the concrete runs *)

Module Demo.

Definition match_rule (name source : string) : Grammar :=
  GrammarDict (Some name) None None (Some source) None None None None None None None.

Definition block_rule (name begin_ end_ : string) (patterns : option (list Grammar))
  : Grammar :=
  GrammarDict (Some name) None None None (Some begin_) (Some end_)
              None None None patterns None.

Definition patterns_rule (name : option string) (patterns : list Grammar) : Grammar :=
  GrammarDict name None None None None None None None None (Some patterns) None.

Definition include_rule (target : string) : Grammar :=
  GrammarDict None None None None None None None None None None (Some target).

Definition empty_world : World := mkWorld [] ∅.

(** Build a grammar in the empty world and parse [text] with the rule
    built first, over [[startPos, closePos)]. *)
Definition run (g : Grammar) (depth iters : nat) (text : string)
    (startPos : Z) (closePos : option Z) : Result (ParseResult * StringIO) :=
  match init onig_compile g "" empty_world with
  | Ok (root, w) =>
      parse (heap_of w) (store w) depth iters root startPos closePos
            (mkStringIO text 0)
  | Raise e => Raise e
  | OutOfFuel => OutOfFuel
  end.

(** The world a grammar builds from the empty one. *)
Definition world (g : Grammar) : World :=
  match init onig_compile g "" empty_world with
  | Ok (_, w) => w
  | _ => empty_world
  end.

(** A block that opens at ["a"] and closes at ["z"]. *)
Definition block_a_z : Grammar := block_rule "K" "a" "z" None.

(** A rule that matches the letter ["b"]. *)
Definition letter_b : Grammar := match_rule "B" "b".

(** A block with an empty begin that closes at ["b"]. *)
Definition block_empty_b : Grammar := block_rule "K" "" "b" None.

(** A rule whose one pattern includes a name that no rule carries. *)
Definition include_missing : Grammar := patterns_rule None [include_rule "#nope"].

(** Two patterns: a group of patterns that finds nothing, and the letter
    ["b"].  The objects are 0 (the rule), 1 (the group), 2 (its pattern)
    and 3 (the letter). *)
Definition empty_then_b : Grammar :=
  patterns_rule None [patterns_rule None [match_rule "Z" "zzz"]; match_rule "B" "b"].

(** The letters ["a"] and ["b"]. *)
Definition letters_a_b : Grammar :=
  patterns_rule None [match_rule "A" "a"; match_rule "B" "b"].

(** One pattern, whose regex matches the empty string. *)
Definition zero_width : Grammar := patterns_rule None [match_rule "E" ""].

(** A rule for a parenthesised ["a"] whose group 1 goes to a rule for
    ["z"].  The objects are 0 (the rule) and 1 (the rule of the group). *)
Definition group_to_z : Grammar :=
  GrammarDict (Some "G") None None (Some "(a)") None None
              (Some [(1, match_rule "Z" "z")]) None None None None.

(** A rule for ["a"] whose captures send group 0 to an include. *)
Definition group0_include : Grammar :=
  GrammarDict (Some "G") None None (Some "a") None None
              (Some [(0, include_rule "#x")]) None None None None.

(** The world with one rule, registered under the key ["x"]. *)
Definition rule_x_world : World :=
  match init onig_compile (match_rule "X" "a") "x" empty_world with
  | Ok (_, w) => w
  | _ => empty_world
  end.

(** That world with the rule [group0_include] added (object 1). *)
Definition world_with_x : World :=
  match init onig_compile group0_include "" rule_x_world with
  | Ok (_, w') => w'
  | _ => empty_world
  end.

(** A rule with a name and nothing else. *)
Definition leaf : Grammar :=
  GrammarDict (Some "L") None None None None None None None None None None.

(** A rule whose only regex construct is a named group. *)
Definition named_group : Grammar := match_rule "N" "(?<n>a)".

End Demo.

(** ** [language.py]: finding the repositories of a grammar

    A grammar as it is loaded: a JSON-like value.  A dict keeps its items
    in insertion order. *)

Inductive Json : Type :=
| JNull
| JBool (b : bool)
| JNum (z : Z)
| JStr (s : string)
| JList (items : list Json)
| JDict (items : list (string * Json)).

(** [_gen_repositories]: the values in the order the generator yields
    them.  Only a value with [items] (a dict) is searched; under a key,
    a dict is searched, and so is each member of a list. *)
Fixpoint gen_repositories (key : string) (grammar : Json) {struct grammar} : list Json :=
  match grammar with
  | JDict items =>
      (fix over_items (items : list (string * Json)) : list Json :=
         match items with
         | [] => []
         | (k, v) :: rest =>
             (if String.eqb k key then [v] else [])
             ++ match v with
                | JDict _ => gen_repositories key v
                | JList l =>
                    (fix over_list (l : list Json) : list Json :=
                       match l with
                       | [] => []
                       | d :: l' => gen_repositories key d ++ over_list l'
                       end) l
                | _ => []
                end
             ++ over_items rest
         end) items
  | _ => []
  end.

(** What one item of a dict contributes. *)
Definition item_repositories (key : string) (item : string * Json) : list Json :=
  (if String.eqb (fst item) key then [snd item] else [])
  ++ match snd item with
     | JDict _ => gen_repositories key (snd item)
     | JList l => flat_map (gen_repositories key) l
     | _ => []
     end.

(** ** [language.py]: the key of an injection

    The lines of [_initialize_repository] that take an injection key
    [target-except1-except2...] apart. *)

(** [str.isspace] on an ASCII character. *)
Definition is_space (c : ascii) : bool :=
  let n := Ascii.nat_of_ascii c in
  ((9 <=? n)%nat && (n <=? 13)%nat) || ((28 <=? n)%nat && (n <=? 32)%nat).

Fixpoint lstrip (s : string) : string :=
  match s with
  | EmptyString => EmptyString
  | String c r => if is_space c then lstrip r else s
  end.

Fixpoint rstrip (s : string) : string :=
  match s with
  | EmptyString => EmptyString
  | String c r =>
      match rstrip r with
      | EmptyString => if is_space c then EmptyString else String c EmptyString
      | r' => String c r'
      end
  end.

(** [s.strip()] *)
Definition py_strip (s : string) : string := rstrip (lstrip s).

(** [s.index(c)] for a character; [None] stands for the [ValueError]. *)
Fixpoint str_index (c : ascii) (s : string) : option nat :=
  match s with
  | EmptyString => None
  | String d r => if Ascii.eqb d c then Some O else S <$> str_index c r
  end.

(** [s.split(c)] for a character. *)
Fixpoint split_char (c : ascii) (s : string) : list string :=
  match s with
  | EmptyString => [EmptyString]
  | String d r =>
      if Ascii.eqb d c then EmptyString :: split_char c r
      else match split_char c r with
           | h :: t => String d h :: t
           | [] => [String d EmptyString]
           end
  end.

(** The target of an injection (the scope of the language when the key
    names none) and the scopes it excepts. *)
Definition injection_key (scopeName key : string) : Result (string * list string) :=
  match str_index "-" key with
  | None => Raise ValueError
  | Some i =>
      let target_string := py_strip (substring 0 i key) in
      let target_string := if str_truthy target_string then target_string else scopeName in
      let scope_string := substring i (String.length key - i) key in
      Ok (target_string,
          List.filter str_truthy (List.map py_strip (split_char "-" scope_string)))
  end.

(** * Statements

    Predicates used to state the properties. *)

(** The retry loop ends without a match. *)
Definition finds_no_match (regex : Pattern) (readSize : option Z)
    (onlyLeadingWhiteSpace : bool) (s : StringIO) : Prop :=
  exists trace s1,
    search_loop search_fuel regex readSize onlyLeadingWhiteSpace
                (Z.of_nat (position s)) 0 true [] s = Ok ((None, trace), s1).

(** The regex matches, the groups are handed to their parsers (there is
    no parser for group 0), and the parser of a group that took part in
    the match does not match its span. *)
Definition group_parser_fails (parse_rec : nat -> Z -> option Z -> M ParseResult)
    (regex : Pattern) (parsers : list (Z * Ref))
    (readSize : option Z) (onlyLeadingWhiteSpace : bool) (s : StringIO) : Prop :=
  exists matching matchingToStreamPos trace s1 matchedString s2 s3,
    search_loop search_fuel regex readSize onlyLeadingWhiteSpace
                (Z.of_nat (position s)) 0 true [] s
      = Ok ((Some (matching, matchingToStreamPos), trace), s1)
    /\ dict_get parsers 0 = None
    /\ (seek (matchingToStreamPos + m_start matching);;
        read (Some ((matchingToStreamPos + m_end matching)
                    - (matchingToStreamPos + m_start matching)))) s1
       = Ok (matchedString, s2)
    /\ parse_groups parse_rec matching matchingToStreamPos parsers [] s2 = Ok (None, s3).

(** A logged pass is within the bounds: pass [k] starts with the shift
    [step * k], scans with that shift cut down to [initPos], at most the
    maximum, from [initPos - shift], which is inside the buffer. *)
Definition pass_ok (initPos : Z) (k : nat) (p : Pass) : Prop :=
  pass_entry p = regex_lookbehind_step * Z.of_nat k
  /\ pass_shift p = Z.min (pass_entry p) initPos
  /\ pass_shift p <= regex_lookbehind_max
  /\ pass_from p = initPos - pass_shift p
  /\ 0 <= pass_from p.

Definition trace_ok (initPos : Z) (trace : list Pass) : Prop :=
  forall k p, trace !! k = Some p -> pass_ok initPos k p.

(** The passes logged by a run of the retry loop. *)
Definition passes_of {A} (r : Result (A * list Pass * StringIO)) : list Pass :=
  match r with
  | Ok (_, trace, _) => trace
  | _ => []
  end.

(** The shift of each pass is the shift of the pass before plus the step. *)
Definition grows_by_step (trace : list Pass) : Prop :=
  forall k p q, trace !! k = Some p -> trace !! S k = Some q ->
                pass_shift q = pass_shift p + regex_lookbehind_step.

(** [stream.read(size)] at the offset [from] of a buffer: [size]
    characters (fewer at the end of the buffer), the whole rest when
    [size] is negative. *)
Definition text_from (buf : string) (from size : Z) : string :=
  substring (Z.to_nat from)
            (if size <? 0 then String.length buf - Z.to_nat from else Z.to_nat size)
            buf.

(** [stream.readline()] at the offset [from] of a buffer. *)
Definition line_from (buf : string) (from : Z) : string :=
  substring (Z.to_nat from)
            (line_length (substring (Z.to_nat from) (String.length buf - Z.to_nat from) buf))
            buf.

(** What a pass finds that scans the buffer with the shift and from the
    position logged in [p]: with a read size, the first line with a match
    among the lines of the [readSize + shift] characters from
    [pass_from p]; without one, a match in the line that starts at
    [pass_from p], if only blanks precede it or blanks are not asked for. *)
Definition pass_scan (regex : Pattern) (readSize : option Z)
    (onlyLeadingWhiteSpace : bool) (initPos : Z) (p : Pass) (buf : string)
  : option (Match * Z) :=
  match (if int_truthy readSize then readSize else None) with
  | Some size =>
      let text := text_from buf (pass_from p) (size + pass_shift p) in
      match scan_lines regex
                       (List.map (fun line => line ++ String newline EmptyString)%string
                                 (split_newline text)) 0 with
      | Some (matching, linePos) => Some (matching, linePos + pass_from p)
      | None => None
      end
  | None =>
      let line := line_from buf (pass_from p) in
      match search_line regex line with
      | Some matching =>
          if onlyLeadingWhiteSpace && any_not_space (py_slice line 0 (m_start matching))
          then None
          else Some (matching, initPos + pass_shift p)
      | None => None
      end
  end.

(** The passes of a run of the retry loop over the buffer [buf] that
    ends with [r]: each pass but the last finds nothing where it scans,
    the last finds [r], and a pass whose shift was cut down is the last. *)
Definition scans_ok (regex : Pattern) (readSize : option Z) (onlyLeadingWhiteSpace : bool)
    (initPos : Z) (buf : string) (r : option (Match * Z)) (trace : list Pass) : Prop :=
  forall k p, trace !! k = Some p ->
    pass_scan regex readSize onlyLeadingWhiteSpace initPos p buf
      = (if (S k =? length trace)%nat then r else None)
    /\ (pass_shift p < pass_entry p -> S k = length trace).

(** The syntactic test for a look-behind construct: the source contains
    ["(?<"] followed by ["="] or ["!"]. *)
Definition has_lookbehind_construct (source : string) : bool :=
  contains "(?<=" source || contains "(?<!" source.

(** The match shape as the specification words it: run the search
    primitive with [regex = match], [parsers = captures] and the given
    [read_size]; a miss fails; a hit emits one element and leaves the
    cursor at the end of the match. *)
Definition match_shape (heap : nat -> GrammarParser)
    (parse_rec : nat -> Z -> option Z -> M ParseResult)
    (node : GrammarParser) (regex : Pattern) (read_size : option Z) : M ParseResult :=
  let* (matched, children, start) :=
    search heap parse_rec regex (gp_captures node) read_size true in
  match matched, start with
  | Some content, Some start =>
      let* cursor := tell in
      ret (true, [ParsedElement (gp_token node) content children], Some (start, cursor))
  | Some _, None => raise TypeError
  | None, _ => ret (false, [], None)
  end.

(** A property holds of every grammar under a captures dictionary, or
    in a list of patterns. *)
Definition all_captures (P : Grammar -> Prop) (o : option (list (Z * Grammar))) : Prop :=
  match o with
  | Some l => Forall (fun kv => P (snd kv)) l
  | None => True
  end.

Definition all_patterns (P : Grammar -> Prop) (o : option (list Grammar)) : Prop :=
  match o with
  | Some l => Forall P l
  | None => True
  end.

(** A result that raises nothing but the error of the regex engine. *)
Definition only_OnigError {A} (r : Result A) : Prop :=
  forall e, r = Raise e -> e = OnigError.

(** The value a run returns, if it returns one. *)
Definition value_of {A} (r : Result (A * StringIO)) : option A :=
  match r with
  | Ok (a, _) => Some a
  | _ => None
  end.

(** The candidates of one iteration of the dispatcher, in the order of
    the parsers: what each parser whose result is memoized or whose parse
    succeeds contributes. *)
Fixpoint candidates (parse_rec : nat -> Z -> option Z -> M ParseResult)
    (parsers : list nat) (patternStartPos closePos : Z) (memo : Memo)
  : M (list (list Element * (Z * Z)) * Memo) :=
  match parsers with
  | [] => ret ([], memo)
  | parser :: rest =>
      let* (opt, memo') := candidate parse_rec parser patternStartPos closePos memo in
      let* (cs, memo'') := candidates parse_rec rest patternStartPos closePos memo' in
      ret (match opt with Some c => c :: cs | None => cs end, memo'')
  end.

(** The entry of the memo for [parser] can be reused at the cursor. *)
Definition reusable (memo : Memo) (parser : nat) (patternStartPos : Z) : bool :=
  match memo !! parser with
  | Some (_, lastPos) => fst lastPos >=? patternStartPos
  | None => false
  end.

(** The memo has nothing more to learn about [parser] at the cursor, and
    [opt] is what the parser contributes there: its entry is reused; or
    its entry is the result of its parse at the cursor; or its parse at
    the cursor fails and it has no entry to reuse. *)
Definition settled (parse_rec : nat -> Z -> option Z -> M ParseResult) (buf : string)
    (patternStartPos closePos : Z) (memo : Memo) (parser : nat)
    (opt : option (list Element * (Z * Z))) : Prop :=
  (exists els pos,
     memo !! parser = Some (els, pos) /\ (fst pos >=? patternStartPos) = true
     /\ opt = Some (els, pos))
  \/ (exists els pos s0 s1,
        buffer s0 = buf
        /\ parse_rec parser patternStartPos (Some closePos) s0
           = Ok ((true, els, Some pos), s1)
        /\ memo !! parser = Some (els, pos) /\ opt = Some (els, pos))
  \/ (exists els sp s0 s1,
        buffer s0 = buf
        /\ parse_rec parser patternStartPos (Some closePos) s0 = Ok ((false, els, sp), s1)
        /\ reusable memo parser patternStartPos = false /\ opt = None).

(** What a computation guarantees from the state [s]: [Q] of its value
    and final state when it returns, [E] of the exception when it raises. *)
Definition post {A} (c : M A) (s : StringIO) (Q : A -> StringIO -> Prop)
    (E : Exn -> Prop) : Prop :=
  match c s with
  | Ok (a, s') => Q a s'
  | Raise e => E e
  | OutOfFuel => True
  end.

Definition no_TypeError (e : Exn) : Prop := e <> TypeError.

(** What [parse] keeps: the text of the stream; on success a span whose
    end is the position of the stream; on failure the empty triple. *)
Definition parse_post (s : StringIO) (r : ParseResult) (s' : StringIO) : Prop :=
  buffer s' = buffer s
  /\ (fst (fst r) = true -> exists a, snd r = Some (a, Z.of_nat (position s')))
  /\ (fst (fst r) = false -> r = (false, [], None)).

Definition parse_spec (rec : nat -> Z -> option Z -> M ParseResult) : Prop :=
  forall p startPos closePos s,
    post (rec p startPos closePos) s (parse_post s) no_TypeError.

(** What [search] keeps: the text of the stream; with a string, a start
    that is not negative; without one, the empty triple and the position
    of entry. *)
Definition search_post (s : StringIO) (r : SearchResult) (s' : StringIO) : Prop :=
  buffer s' = buffer s
  /\ match r with
     | (Some _, _, Some start) => 0 <= start
     | (None, [], None) => position s' = position s
     | _ => False
     end.

(** The running choice has a position whenever it has elements. *)
Definition choice_ok (cur : Choice) : Prop :=
  fst cur = [] \/ is_Some (snd cur).

(** What is expected of the regex engine: the offsets of a match are
    offsets into the line searched, the end not before the start. *)
Definition starts_in_line (regex : Pattern) : Prop :=
  forall line m, search_line regex line = Some m -> 0 <= m_start m.

Definition ends_after_start (regex : Pattern) : Prop :=
  forall line m, search_line regex line = Some m -> m_start m <= m_end m.

(** A reference resolves to a parser: an object is itself, a name is
    its entry in the class dictionary. *)
Definition resolves (PARSERSTORE : gmap string nat) (callId : Ref) (p : nat) : Prop :=
  match callId with
  | ObjRef q => q = p
  | NameRef name => PARSERSTORE !! name = Some p
  end.

(** The world [w'] continues [w]: the class dictionary is the same and
    the objects of [w] are still there, unchanged. *)
Definition extends (w w' : World) : Prop :=
  store w' = store w
  /\ (length (objects w) <= length (objects w'))%nat
  /\ forall i, (i < length (objects w))%nat -> objects w' !! i = objects w !! i.

(** The reference [set_parser] stores for a pattern of the rule [self]:
    the rule itself for [$self], the target without its first character
    for any other include, a new object for an inline rule. *)
Definition pattern_ref (self : nat) (pattern : Grammar) (r : Ref) : Prop :=
  match g_include pattern with
  | Some target =>
      r = if String.eqb target "$self" then ObjRef self else NameRef (str_tail target)
  | None => exists p, r = ObjRef p /\ (self < p)%nat
  end.

(** The regexes of the rule built from a grammar: [match] alone when the
    grammar has it; [begin] and [end] when it has both and no [match];
    none otherwise. *)
Definition regexes_of (compile : string -> option Pattern) (grammar : Grammar)
    (node : GrammarParser) : Prop :=
  match g_match grammar, g_begin grammar, g_end grammar with
  | Some text, _, _ =>
      gp_match node = compile text /\ is_Some (gp_match node)
      /\ gp_begin node = None /\ gp_end node = None
      /\ gp_beginCaptures node = [] /\ gp_endCaptures node = []
  | None, Some btext, Some etext =>
      gp_match node = None /\ gp_captures node = []
      /\ gp_begin node = compile btext /\ is_Some (gp_begin node)
      /\ gp_end node = compile etext /\ is_Some (gp_end node)
  | None, _, _ =>
      gp_match node = None /\ gp_begin node = None /\ gp_end node = None
      /\ gp_captures node = [] /\ gp_beginCaptures node = [] /\ gp_endCaptures node = []
  end.

(** A pattern built inline (under the empty key) continues the world and
    takes the next index. *)
Definition inline_ok_for (compile : string -> option Pattern) (g : Grammar) : Prop :=
  forall w p w', init compile g "" w = Ok (p, w') ->
                 p = length (objects w) /\ extends w w'.

(** What [__init__] has done when it returns the object [self] in the
    world [w']. *)
Definition built (compile : string -> option Pattern) (grammar : Grammar) (key : string)
    (w : World) (self : nat) (w' : World) : Prop :=
  self = length (objects w)
  /\ store w' = (if str_truthy key then <[key := self]> (store w) else store w)
  /\ (length (objects w) < length (objects w'))%nat
  /\ (forall i, (i < length (objects w))%nat -> objects w' !! i = objects w !! i)
  /\ exists node,
       objects w' !! self = Some node
       /\ gp_key node = key
       /\ gp_token node = get_default (g_name grammar)
       /\ gp_contentToken node = get_default (g_contentName grammar)
       /\ gp_comment node = get_default (g_comment grammar)
       /\ regexes_of compile grammar node
       /\ Forall2 (pattern_ref self)
                  (match g_patterns grammar with Some l => l | None => [] end)
                  (gp_patterns node).

(** The value [v] is stored under [key] in a dict that [_gen_repositories]
    reaches from [grammar]: in the grammar itself, in a dict that is the
    value of one of its items, or in a member of a list that is. *)
Inductive found_under (key : string) : Json -> Json -> Prop :=
| found_here items v :
    In (key, v) items -> found_under key (JDict items) v
| found_in_dict items k items' v :
    In (k, JDict items') items -> found_under key (JDict items') v ->
    found_under key (JDict items) v
| found_in_list items k l d v :
    In (k, JList l) items -> In d l -> found_under key d v ->
    found_under key (JDict items) v.

(** A property holds of every member of a list of values, of every value
    of a dict. *)
Definition all_members (P : Json -> Prop) (l : list Json) : Prop := Forall P l.
Definition all_values (P : Json -> Prop) (items : list (string * Json)) : Prop :=
  Forall (fun kv => P (snd kv)) items.

(** [sep.join(pieces)] *)
Fixpoint join_with (sep : string) (pieces : list string) : string :=
  match pieces with
  | [] => EmptyString
  | [piece] => piece
  | piece :: rest => piece +:+ sep +:+ join_with sep rest
  end.

(** Whitespace only; whitespace first; whitespace last. *)
Fixpoint only_space (s : string) : bool :=
  match s with
  | EmptyString => true
  | String c r => is_space c && only_space r
  end.

Definition starts_space (s : string) : bool :=
  match s with
  | EmptyString => false
  | String c _ => is_space c
  end.

Fixpoint ends_space (s : string) : bool :=
  match s with
  | EmptyString => false
  | String c EmptyString => is_space c
  | String _ r => ends_space r
  end.

(** [t] is [s] without the whitespace at its two ends. *)
Definition stripped (s t : string) : Prop :=
  exists l r,
    s = l +:+ t +:+ r
    /\ only_space l = true /\ only_space r = true
    /\ starts_space t = false /\ ends_space t = false.

(** * Properties *)

(** ** The monad *)

Lemma bind_Ok {A B} (c : M A) (k : A -> M B) s r :
  bind c k s = Ok r -> exists a s1, c s = Ok (a, s1) /\ k a s1 = Ok r.
Proof.
  unfold bind. destruct (c s) as [[a s1]| |]; intros H; try discriminate.
  exists a, s1. split; [reflexivity | exact H].
Qed.

Lemma bind_eq {A B} (c : M A) (k : A -> M B) s a s1 :
  c s = Ok (a, s1) -> bind c k s = k a s1.
Proof. intros H. unfold bind. rewrite H. reflexivity. Qed.

Lemma bind_ret_l {A B} (a : A) (k : A -> M B) s : bind (ret a) k s = k a s.
Proof. reflexivity. Qed.

Lemma bind_OutOfFuel {A B} (c : M A) (k : A -> M B) s :
  c s = OutOfFuel -> bind c k s = OutOfFuel.
Proof. intros H. unfold bind. rewrite H. reflexivity. Qed.

Lemma bind_OutOfFuel_or {A B} (c : M A) (k : A -> M B) s :
  c s = OutOfFuel \/ (exists a s1, c s = Ok (a, s1) /\ k a s1 = OutOfFuel) ->
  bind c k s = OutOfFuel.
Proof.
  intros [H|(a & s1 & H & Hk)]; unfold bind; rewrite H; [reflexivity | exact Hk].
Qed.

Lemma ret_Ok {A} (a : A) s r : ret a s = Ok r -> r = (a, s).
Proof. unfold ret. congruence. Qed.

(** Invert a chain of binds in a hypothesis. *)
Ltac bind_inv H :=
  let a := fresh "a" in
  let s1 := fresh "s" in
  let H1 := fresh "H" in
  apply bind_Ok in H; destruct H as (a & s1 & H1 & H).

Tactic Notation "bind_inv_as" hyp(H) ident(a) ident(s1) ident(H1) :=
  apply bind_Ok in H; destruct H as (a & s1 & H1 & H).

Lemma succeed_Ok elements start s r s' :
  succeed elements start s = Ok (r, s') ->
  r = (true, elements, Some (start, Z.of_nat (position s))) /\ s' = s.
Proof. unfold succeed, bind, tell, ret. intros [= <- <-]. split; reflexivity. Qed.

Lemma succeed_matched elements start s m els sp s' :
  succeed elements start s = Ok ((m, els, sp), s') -> m = true.
Proof. unfold succeed, bind, tell, ret. intros H. congruence. Qed.

(** ** [parse]: the failing returns *)

Section ParseFailure.

Variable heap : nat -> GrammarParser.
Variable PARSERSTORE : gmap string nat.
Variable parse_rec : nat -> Z -> option Z -> M ParseResult.

Lemma parse_match_failure node regex startPos closePos s els sp s' :
  parse_match heap parse_rec node regex startPos closePos s = Ok ((false, els, sp), s') ->
  els = [] /\ sp = None.
Proof.
  unfold parse_match. intros H. bind_inv H.
  destruct a as [[string captures] parsedStart].
  destruct string as [content|].
  - destruct parsedStart as [start|]; [|discriminate].
    apply succeed_matched in H. discriminate.
  - apply ret_Ok in H. split; congruence.
Qed.

Lemma parse_block_failure iters self node b e startPos closePos s els sp s' :
  parse_block heap PARSERSTORE parse_rec iters self node b e startPos closePos s
    = Ok ((false, els, sp), s') ->
  els = [] /\ sp = None.
Proof.
  unfold parse_block. intros H. bind_inv H.
  destruct a as [[beginString beginCaptured] parsedStart].
  destruct beginString as [bs|].
  2:{ apply ret_Ok in H. split; congruence. }
  destruct parsedStart as [parsedStart|]; [|discriminate].
  bind_inv H. bind_inv H.
  destruct a0 as [[endString endCaptured] midClosePos].
  bind_inv H.
  destruct endString as [es|].
  2:{ apply ret_Ok in H. split; congruence. }
  destruct midClosePos as [midClose|]; [|discriminate].
  destruct ((startPos =? a) && option_Z_eqb closePos (Some midClose)).
  - bind_inv H. apply ret_Ok in H. discriminate.
  - bind_inv H. bind_inv H. bind_inv H.
    apply succeed_matched in H. discriminate.
Qed.

Lemma parse_body_failure iters self startPos closePos s els sp s' :
  parse_body heap PARSERSTORE parse_rec iters self startPos closePos s
    = Ok ((false, els, sp), s') ->
  els = [] /\ sp = None.
Proof.
  unfold parse_body. intros H. bind_inv H.
  destruct (gp_match (heap self)) as [regex|].
  { eapply parse_match_failure; eassumption. }
  destruct (gp_begin (heap self)) as [b|], (gp_end (heap self)) as [e|];
    try (eapply parse_block_failure; eassumption).
  all: destruct (gp_patterns (heap self)) as [|r rs].
  all: try (unfold parse_leaf in H; bind_inv H; destruct a0;
            apply succeed_matched in H; discriminate).
  all: unfold parse_patterns in H; bind_inv H; bind_inv H; bind_inv H; bind_inv H;
       apply succeed_matched in H; discriminate.
Qed.

End ParseFailure.

(** C10. Every failing return of [parse] is the triple [(False, [], None)]:
    whatever the shape of the rule, a result whose first component is
    [False] carries no element and no span. *)
Theorem parse_failure_is_empty_triple heap PARSERSTORE depth iters self startPos closePos
    s els sp s' :
  parse heap PARSERSTORE depth iters self startPos closePos s = Ok ((false, els, sp), s') ->
  els = [] /\ sp = None.
Proof.
  destruct depth as [|depth]; simpl; [discriminate|].
  apply parse_body_failure.
Qed.

(** ** [search]: failure rewinds the stream *)

Section SearchFailure.

Variable heap : nat -> GrammarParser.
Variable parse_rec : nat -> Z -> option Z -> M ParseResult.

Lemma seek_back (s s1 : StringIO) :
  seek (Z.of_nat (position s)) s1
  = Ok (Z.of_nat (position s), mkStringIO (buffer s1) (position s)).
Proof.
  unfold seek.
  destruct (Z.ltb_spec (Z.of_nat (position s)) 0) as [Hneg|_]; [lia|].
  rewrite Nat2Z.id. reflexivity.
Qed.

(** C3. When the regex finds no match, or when the parser of a matched
    capture group fails on its span, [search] returns
    [(None, [], None)] and leaves the stream where it was at entry. *)
Theorem search_failure_rewinds regex parsers readSize onlyLeadingWhiteSpace s :
  finds_no_match regex readSize onlyLeadingWhiteSpace s
  \/ group_parser_fails parse_rec regex parsers readSize onlyLeadingWhiteSpace s ->
  exists s',
    search heap parse_rec regex parsers readSize onlyLeadingWhiteSpace s
      = Ok ((None, [], None), s')
    /\ position s' = position s.
Proof.
  intros [(trace & s1 & Hloop) | (m & m2s & trace & s1 & str & s2 & s3 & Hloop & H0 & Hread & Hgroups)].
  - exists (mkStringIO (buffer s1) (position s)). split; [|reflexivity].
    unfold search. unfold bind at 1. unfold tell at 1.
    rewrite (bind_eq _ _ _ _ _ Hloop). cbn beta iota.
    unfold bind, ret. rewrite seek_back. reflexivity.
  - exists (mkStringIO (buffer s3) (position s)). split; [|reflexivity].
    unfold search. unfold bind at 1. unfold tell at 1.
    rewrite (bind_eq _ _ _ _ _ Hloop). cbn beta iota.
    apply bind_Ok in Hread. destruct Hread as (p & sa & Hseek & Hread).
    rewrite (bind_eq _ _ _ _ _ Hseek).
    rewrite (bind_eq _ _ _ _ _ Hread).
    rewrite H0.
    destruct parsers as [|kv rest].
    { simpl in Hgroups. unfold ret in Hgroups. discriminate. }
    rewrite (bind_eq _ _ _ _ _ Hgroups).
    unfold bind, ret. rewrite seek_back. reflexivity.
Qed.

End SearchFailure.

(** ** [search]: the retry loop *)

Section RetryLoop.

Variable regex : Pattern.
Variable readSize : option Z.
Variable onlyLeadingWhiteSpace : bool.

Lemma seek_nonneg p s : 0 <= p -> seek p s = Ok (p, mkStringIO (buffer s) (Z.to_nat p)).
Proof.
  intros Hp. unfold seek.
  destruct (Z.ltb_spec p 0); [lia | reflexivity].
Qed.

(** A pass never raises: the scan starts at [initPos - shift], which the
    clamp keeps at or after the start of the buffer. *)
Lemma search_pass_Ok initPos lookbehind can s :
  0 <= initPos -> 0 <= lookbehind ->
  exists found s',
    search_pass regex readSize onlyLeadingWhiteSpace initPos lookbehind can s
    = Ok ((found, Z.min lookbehind initPos,
           if initPos - lookbehind <? 0 then false
           else if performLookbehind regex then can else false), s').
Proof.
  intros Hpos Hlb. unfold search_pass.
  destruct (Z.ltb_spec (initPos - lookbehind) 0) as [Hclamp|Hfree].
  - replace (Z.min lookbehind initPos) with initPos by lia.
    destruct (if int_truthy readSize then readSize else None) as [size|].
    + unfold bind. rewrite seek_nonneg by lia. unfold read.
      destruct (scan_lines regex _ 0) as [[m linePos]|]; unfold ret; eauto.
    + unfold bind. rewrite seek_nonneg by lia. unfold readline.
      destruct (search_line regex _) as [m|]; unfold ret; eauto.
      destruct (onlyLeadingWhiteSpace && _); eauto.
  - replace (Z.min lookbehind initPos) with lookbehind by lia.
    destruct (if int_truthy readSize then readSize else None) as [size|].
    + unfold bind. rewrite seek_nonneg by lia. unfold read.
      destruct (scan_lines regex _ 0) as [[m linePos]|]; unfold ret; eauto.
    + unfold bind. rewrite seek_nonneg by lia. unfold readline.
      destruct (search_line regex _) as [m|]; unfold ret; eauto.
      destruct (onlyLeadingWhiteSpace && _); eauto.
Qed.

Lemma search_loop_stopped fuel initPos lookbehind trace s :
  search_loop fuel regex readSize onlyLeadingWhiteSpace initPos lookbehind false trace s
  = Ok ((None, trace), s).
Proof. destruct fuel; simpl; rewrite andb_false_r; reflexivity. Qed.

Lemma trace_ok_snoc initPos trace p :
  trace_ok initPos trace -> pass_ok initPos (length trace) p ->
  trace_ok initPos (trace ++ [p]).
Proof.
  intros Htr Hp k q Hq.
  destruct (Nat.lt_ge_cases k (length trace)) as [Hlt|Hge].
  - rewrite lookup_app_l in Hq by exact Hlt. apply Htr. exact Hq.
  - rewrite lookup_app_r in Hq by exact Hge.
    destruct (k - length trace)%nat as [|n] eqn:Hk; simpl in Hq; [|discriminate].
    assert (k = length trace) by lia. subst k.
    injection Hq as <-. exact Hp.
Qed.

(** With [lookbehind = step * k] at the top of pass [k], fuel for the
    passes up to the maximum is enough, and every pass logged is within
    the bounds. *)
Lemma search_loop_inv initPos :
  0 <= initPos ->
  forall fuel k can trace s,
    (21 <= fuel + k)%nat -> length trace = k -> trace_ok initPos trace ->
    exists r trace' s',
      search_loop fuel regex readSize onlyLeadingWhiteSpace initPos
                  (regex_lookbehind_step * Z.of_nat k) can trace s
      = Ok ((r, trace'), s')
      /\ trace_ok initPos trace'.
Proof.
  intros Hpos. induction fuel as [|fuel IH]; intros k can trace s Hfuel Hlen Htr.
  - simpl.
    destruct (Z.leb_spec (regex_lookbehind_step * Z.of_nat k) regex_lookbehind_max) as [Hle|Hgt].
    + unfold regex_lookbehind_step, regex_lookbehind_max in Hle. lia.
    + simpl. unfold ret. eauto.
  - simpl.
    destruct (Z.leb_spec (regex_lookbehind_step * Z.of_nat k) regex_lookbehind_max) as [Hle|Hgt];
      [|simpl; unfold ret; eauto].
    destruct can; simpl; [|unfold ret; eauto].
    destruct (search_pass_Ok initPos (regex_lookbehind_step * Z.of_nat k) true s Hpos)
      as (found & s1 & Hpass).
    { unfold regex_lookbehind_step. lia. }
    rewrite (bind_eq _ _ _ _ _ Hpass). cbn beta iota.
    set (p := mkPass (regex_lookbehind_step * Z.of_nat k)
                     (Z.min (regex_lookbehind_step * Z.of_nat k) initPos)
                     (initPos - Z.min (regex_lookbehind_step * Z.of_nat k) initPos)).
    assert (Hp : trace_ok initPos (trace ++ [p])).
    { apply trace_ok_snoc; [exact Htr|]. rewrite Hlen.
      unfold pass_ok, p; simpl. repeat split; lia. }
    destruct found as [r|].
    + unfold ret. eauto.
    + destruct (Z.ltb_spec (initPos - regex_lookbehind_step * Z.of_nat k) 0) as [Hclamp|Hfree].
      * rewrite search_loop_stopped. eauto.
      * replace (Z.min (regex_lookbehind_step * Z.of_nat k) initPos + regex_lookbehind_step)
          with (regex_lookbehind_step * Z.of_nat (S k))
          by (unfold regex_lookbehind_step in *; lia).
        apply IH; [lia | rewrite length_app; simpl; lia | exact Hp].
Qed.

(** Without ["(?<"] in the source of the pattern the loop makes one pass. *)
Lemma search_loop_single_pass fuel initPos s :
  0 <= initPos -> performLookbehind regex = false ->
  exists r p s',
    search_loop (S fuel) regex readSize onlyLeadingWhiteSpace initPos 0 true [] s
    = Ok ((r, [p]), s').
Proof.
  intros Hpos Hno. simpl.
  destruct (search_pass_Ok initPos 0 true s Hpos) as (found & s1 & Hpass); [lia|].
  rewrite (bind_eq _ _ _ _ _ Hpass). cbn beta iota.
  destruct found as [r|].
  - unfold ret. eauto.
  - rewrite Hno. replace (initPos - 0 <? 0) with false
      by (symmetry; apply Z.ltb_ge; lia).
    rewrite search_loop_stopped. eauto.
Qed.

End RetryLoop.

(** The test of the code is implied by the syntactic test for a
    look-behind construct. *)
Lemma prefix_app_l (a b s : string) :
  String.prefix (a +:+ b) s = true -> String.prefix a s = true.
Proof.
  revert s. induction a as [|c a IH]; intros s H; [destruct s; reflexivity|].
  destruct s as [|d s]; simpl in *; [discriminate|].
  destruct (ascii_dec c d); [apply IH; exact H | discriminate].
Qed.

Lemma contains_prefix_app (a b hay : string) :
  contains (a +:+ b) hay = true -> contains a hay = true.
Proof.
  induction hay as [|c hay IH]; cbn [contains]; intros H.
  - apply orb_true_iff in H. destruct H as [H|H]; [|discriminate].
    apply prefix_app_l in H. rewrite H. reflexivity.
  - apply orb_true_iff in H. apply orb_true_iff. destruct H as [H|H].
    + left. exact (prefix_app_l _ _ _ H).
    + right. apply IH. exact H.
Qed.

Lemma lookbehind_construct_is_detected regex :
  has_lookbehind_construct (_pattern regex) = true -> performLookbehind regex = true.
Proof.
  unfold has_lookbehind_construct, performLookbehind. intros H.
  apply orb_true_iff in H. destruct H as [H|H].
  - exact (contains_prefix_app "(?<" "=" _ H).
  - exact (contains_prefix_app "(?<" "!" _ H).
Qed.

(** ** Concrete runs of the retry loop *)

(** C5, as stated, fails.  With the cursor at offset 3 the second pass of
    a look-behind pattern scans with shift 3, not 5 (the shift is cut
    down to the start of the buffer); and a pattern with a named group
    and no look-behind makes two passes. *)
Lemma lookbehind_growth_counterexample :
  ~ grows_by_step
      (passes_of (search_loop search_fuel (Onig.compile "(?<=x)y") (Some 1) true
                              3 0 true [] (mkStringIO "abcd" 3)))
  /\ (has_lookbehind_construct "(?<n>a)" = false
      /\ length (passes_of (search_loop search_fuel (Onig.compile "(?<n>a)") (Some 2) true
                                        5 0 true [] (mkStringIO "a12345" 5))) = 2%nat).
Proof.
  split.
  - assert (Htrace :
      passes_of (search_loop search_fuel (Onig.compile "(?<=x)y") (Some 1) true
                             3 0 true [] (mkStringIO "abcd" 3))
      = [mkPass 0 0 3; mkPass 5 3 0]) by (vm_compute; reflexivity).
    rewrite Htrace. intros Hgrow.
    specialize (Hgrow 0%nat (mkPass 0 0 3) (mkPass 5 3 0) eq_refl eq_refl).
    simpl in Hgrow. unfold regex_lookbehind_step in Hgrow. lia.
  - split; vm_compute; reflexivity.
Qed.

(** C9, at the failing input.  The source ["(?<n>a)"] has a named group
    and no look-behind construct, yet the code takes it for one: with the
    cursor at offset 5 of ["a12345"] the loop makes a second pass shifted
    back by 5, and the rule reports the match [[0, 1)] for the window
    [[5, 6)], where a single unshifted pass finds nothing. *)
Theorem named_group_is_taken_for_lookbehind :
  has_lookbehind_construct "(?<n>a)" = false
  /\ performLookbehind (Onig.compile "(?<n>a)") = true
  /\ passes_of (search_loop search_fuel (Onig.compile "(?<n>a)") (Some 2) true
                            5 0 true [] (mkStringIO "a12345" 5))
     = [mkPass 0 0 5; mkPass 5 5 0]
  /\ Demo.run Demo.named_group 5 10 "a12345" 5 (Some 6)
     = Ok ((true, [ParsedElement "N" "a" []], Some (0, 1)), mkStringIO "a12345" 1)
  /\ scan_lines (Onig.compile "(?<n>a)") ["5" +:+ String newline ""] 0 = None.
Proof. repeat split; vm_compute; reflexivity. Qed.

(** ** The block shape *)

Section Block.

Variable heap : nat -> GrammarParser.
Variable PARSERSTORE : gmap string nat.
Variable parse_rec : nat -> Z -> option Z -> M ParseResult.

(** When the end is not found, the stream stays where the search for the
    end left it: at its own entry, the end of the begin match. *)
Lemma parse_block_end_miss iters self node b e startPos c s bs bcap ps s1 ecap mc s2 :
  search heap parse_rec b (gp_beginCaptures node) (Some (c - startPos + 1)) true s
    = Ok ((Some bs, bcap, Some ps), s1) ->
  search heap parse_rec e (gp_endCaptures node)
         (Some (c - Z.of_nat (position s1) + 1)) false s1
    = Ok ((None, ecap, mc), s2) ->
  parse_block heap PARSERSTORE parse_rec iters self node b e startPos (Some c) s
    = Ok ((false, [], None), s2).
Proof.
  intros Hb He. unfold parse_block.
  rewrite (bind_eq _ _ _ _ _ Hb). cbn beta iota.
  unfold bind at 1. unfold tell at 1.
  rewrite (bind_eq _ _ _ _ _ He). cbn beta iota.
  reflexivity.
Qed.

End Block.

(** C7, at the failing input.  The block opens at ["a"] and finds no
    ["z"] in ["ab"]: [parse] from offset 0 fails, and the stream is left
    at offset 1, after the begin match, not at offset 0. *)
Theorem block_end_miss_keeps_begin_consumed :
  Demo.run Demo.block_a_z 5 10 "ab" 0 (Some 2)
  = Ok ((false, [], None), mkStringIO "ab" 1).
Proof. vm_compute. reflexivity. Qed.

(** ** The match shape *)

(** C4 (amended). With a [closePos], [parse] of a match rule runs the
    search primitive with the rule's [match] regex, its captures as
    parsers, and [readSize = closePos - startPos + 1]. *)
Theorem parse_match_read_size heap PARSERSTORE depth iters self regex startPos closePos s :
  gp_match (heap self) = Some regex ->
  parse heap PARSERSTORE (S depth) iters self startPos (Some closePos) s
  = (seek startPos;;
     match_shape heap (parse heap PARSERSTORE depth iters) (heap self) regex
                 (Some (closePos - startPos + 1))) s.
Proof.
  intros Hm. simpl. unfold parse_body. rewrite Hm. reflexivity.
Qed.

(** C4, as stated, fails: on ["ab"] over [[0, 1)] the rule for ["b"]
    matches at [[1, 2)], which a search over [closePos - startPos = 1]
    character does not reach. *)
Lemma parse_match_read_size_counterexample :
  parse (heap_of (Demo.world Demo.letter_b)) (store (Demo.world Demo.letter_b))
        1 0 0 0 (Some 1) (mkStringIO "ab" 0)
  <> (seek 0;;
      match_shape (heap_of (Demo.world Demo.letter_b))
                  (parse (heap_of (Demo.world Demo.letter_b))
                         (store (Demo.world Demo.letter_b)) 0 0)
                  (heap_of (Demo.world Demo.letter_b) 0) (Onig.compile "b")
                  (Some (1 - 0))) (mkStringIO "ab" 0).
Proof. vm_compute. discriminate. Qed.

(** ** The recursion guard of the block shape *)

Lemma search_start_nonneg heap parse_rec regex parsers readSize olw s str els start s' :
  search heap parse_rec regex parsers readSize olw s = Ok ((Some str, els, Some start), s') ->
  0 <= start.
Proof.
  unfold search. intros H.
  bind_inv_as H initPos sa Htell. bind_inv_as H looped sb Hloop.
  destruct looped as [found trace]. destruct found as [[m m2s]|].
  2:{ bind_inv H. apply ret_Ok in H. discriminate. }
  bind_inv_as H sought sc Hseek.
  assert (Hpos : 0 <= m2s + m_start m).
  { unfold seek in Hseek.
    destruct (Z.ltb_spec (m2s + m_start m) 0); [discriminate | assumption]. }
  bind_inv_as H matchedString sd Hread.
  destruct (dict_get parsers 0) as [[p0|nm]|].
  - bind_inv H. apply ret_Ok in H. congruence.
  - discriminate.
  - destruct parsers as [|kv rest].
    + bind_inv H. apply ret_Ok in H. congruence.
    + bind_inv_as H parsed se Hgroups. destruct parsed as [[|el elsr]|].
      * apply ret_Ok in H. congruence.
      * bind_inv H. apply ret_Ok in H. congruence.
      * bind_inv H. apply ret_Ok in H. discriminate.
Qed.

(** ** Includes: construction and resolution *)

Section GrammarInduction.

Variable P : Grammar -> Prop.

Hypothesis step :
  forall n cn cm m b e c bc ec ps inc,
    all_captures P c -> all_captures P bc -> all_captures P ec -> all_patterns P ps ->
    P (GrammarDict n cn cm m b e c bc ec ps inc).

(** Induction on a grammar, with the property for every sub-grammar. *)
Lemma Grammar_nested_ind : forall g, P g.
Proof.
  fix IH 1. intros [n cn cm m b e c bc ec ps inc].
  apply step.
  - destruct c as [l|]; [|exact I].
    induction l as [|[k g] l IHl]; constructor; [apply IH | exact IHl].
  - destruct bc as [l|]; [|exact I].
    induction l as [|[k g] l IHl]; constructor; [apply IH | exact IHl].
  - destruct ec as [l|]; [|exact I].
    induction l as [|[k g] l IHl]; constructor; [apply IH | exact IHl].
  - destruct ps as [l|]; [|exact I].
    induction l as [|g l IHl]; constructor; [apply IH | exact IHl].
Qed.

End GrammarInduction.

Section ConstructionRaises.

Variable compile : string -> option Pattern.

Lemma set_parser_raises init_rec self g w :
  (forall w', only_OnigError (init_rec g w')) ->
  only_OnigError (set_parser init_rec self g w).
Proof.
  intros Hrec e. unfold set_parser.
  destruct (g_include g) as [target|].
  - destruct (String.eqb target "$self"); discriminate.
  - destruct (init_rec g w) as [[p w']|e'|] eqn:Hi; try discriminate.
    intros [= <-]. exact (Hrec w e' Hi).
Qed.

Lemma init_captures_raises set items :
  Forall (fun kv => forall w, only_OnigError (set (snd kv) w)) items ->
  forall captures w, only_OnigError (init_captures set items captures w).
Proof.
  induction 1 as [|[k g] items Hg _ IH]; intros captures w e; simpl; [discriminate|].
  destruct (set g w) as [[r w']|e'|] eqn:Hs; try discriminate.
  - apply IH.
  - intros [= <-]. exact (Hg w e' Hs).
Qed.

Lemma init_patterns_raises set items :
  Forall (fun g => forall w, only_OnigError (set g w)) items ->
  forall w, only_OnigError (init_patterns set items w).
Proof.
  induction 1 as [|g items Hg _ IH]; intros w e; simpl; [discriminate|].
  destruct (set g w) as [[r w']|e'|] eqn:Hs; try discriminate.
  - destruct (init_patterns set items w') as [[rs w'']|e''|] eqn:Hp; try discriminate.
    intros [= <-]. exact (IH w' e'' Hp).
  - intros [= <-]. exact (Hg w e' Hs).
Qed.

Lemma compile_opt_raises src : only_OnigError (compile_opt compile src).
Proof.
  intros e. unfold compile_opt. destruct src as [text|]; [|discriminate].
  destruct (compile text); [discriminate|]. congruence.
Qed.

Lemma init_unfold g key w :
  init compile g key w
  = let self := length (objects w) in
    let w0 := mkWorld (objects w ++ [blank])
                      (if str_truthy key then <[key := self]> (store w) else store w) in
    let set := set_parser (fun g0 w' => init compile g0 "" w') self in
    match g_match g, g_begin g, g_end g with
    | Some text, _, _ =>
        match compile_opt compile (Some text) with
        | Ok m =>
            match init_captures_opt set (g_captures g) w0 with
            | Ok (c, w1) => init_finish set g key self m None None c [] [] w1
            | Raise e => Raise e
            | OutOfFuel => OutOfFuel
            end
        | Raise e => Raise e
        | OutOfFuel => OutOfFuel
        end
    | None, Some btext, Some etext =>
        match compile_opt compile (Some btext) with
        | Ok b =>
            match compile_opt compile (Some etext) with
            | Ok e =>
                match init_captures_opt set (g_beginCaptures g) w0 with
                | Ok (bc, w1) =>
                    match init_captures_opt set (g_endCaptures g) w1 with
                    | Ok (ec, w2) => init_finish set g key self None b e [] bc ec w2
                    | Raise e' => Raise e'
                    | OutOfFuel => OutOfFuel
                    end
                | Raise e' => Raise e'
                | OutOfFuel => OutOfFuel
                end
            | Raise e' => Raise e'
            | OutOfFuel => OutOfFuel
            end
        | Raise e' => Raise e'
        | OutOfFuel => OutOfFuel
        end
    | None, _, _ => init_finish set g key self None None None [] [] [] w0
    end.
Proof. destruct g; reflexivity. Qed.

Lemma init_raises : forall g key w, only_OnigError (init compile g key w).
Proof.
  intros g. pattern g. apply Grammar_nested_ind.
  clear g. intros n cn cm m b e c bc ec ps inc Hc Hbc Hec Hps key w.
  rewrite init_unfold. cbv zeta.
  cbn [g_match g_begin g_end g_captures g_beginCaptures g_endCaptures].
  generalize (mkWorld (objects w ++ [blank])
                (if str_truthy key then <[key := length (objects w)]> (store w)
                 else store w)).
  generalize (length (objects w)). intros self w0.
  set (set_ := set_parser (fun g0 w' => init compile g0 "" w') self).
  assert (Hset : forall g0, (forall key' w', only_OnigError (init compile g0 key' w')) ->
                            forall w', only_OnigError (set_ g0 w')).
  { intros g0 H0 w'. apply set_parser_raises. intros w''. apply H0. }
  assert (Hcaps : forall o, all_captures
                    (fun g0 => forall key' w', only_OnigError (init compile g0 key' w')) o ->
                  forall w', only_OnigError (init_captures_opt set_ o w')).
  { intros [l|] Hl w'; simpl; [|discriminate].
    apply init_captures_raises. simpl in Hl.
    eapply Forall_impl; [exact Hl|]. intros [k g0] H0. simpl. apply Hset. exact H0. }
  assert (Hfin : forall m0 b0 e0 m' b' e' c' bc' ec' w',
            only_OnigError (init_finish set_ (GrammarDict n cn cm m0 b0 e0 c bc ec ps inc)
                                        key self m' b' e' c' bc' ec' w')).
  { intros m0 b0 e0 m' b' e' c' bc' ec' w' err. unfold init_finish.
    cbn [g_patterns].
    destruct (init_patterns_opt set_ ps w') as [[rs w'']|e''|] eqn:Hp;
      try discriminate.
    intros [= <-]. revert Hp.
    destruct ps as [l|]; simpl; [|discriminate].
    intros Hp. eapply init_patterns_raises; [|exact Hp].
    simpl in Hps. eapply Forall_impl; [exact Hps|]. intros g0 H0. apply Hset. exact H0. }
  intros err.
  destruct m as [text|].
  - destruct (compile_opt compile (Some text)) as [m0|e0|] eqn:Hcm; try discriminate.
    + destruct (init_captures_opt set_ c w0) as [[c0 w1]|e0|] eqn:Hcc;
        try discriminate.
      * apply Hfin.
      * intros [= <-]. eapply Hcaps; [|exact Hcc]. exact Hc.
    + intros [= <-]. exact (compile_opt_raises _ _ Hcm).
  - destruct b as [btext|], e as [etext|]; try apply Hfin.
    destruct (compile_opt compile (Some btext)) as [b0|e0|] eqn:Hcb; try discriminate.
    2:{ intros [= <-]. exact (compile_opt_raises _ _ Hcb). }
    destruct (compile_opt compile (Some etext)) as [e0|e1|] eqn:Hce; try discriminate.
    2:{ intros [= <-]. exact (compile_opt_raises _ _ Hce). }
    destruct (init_captures_opt set_ bc w0) as [[bc0 w1]|e1|] eqn:Hcc;
      try discriminate.
    2:{ intros [= <-]. eapply Hcaps; [|exact Hcc]. exact Hbc. }
    destruct (init_captures_opt set_ ec w1) as [[ec0 w2]|e1|] eqn:Hcc2;
      try discriminate.
    + apply Hfin.
    + intros [= <-]. eapply Hcaps; [|exact Hcc2]. exact Hec.
Qed.

End ConstructionRaises.

(** [set_parser] stores an include of the form [#name] as the bare name,
    without a look at the class dictionary. *)
Lemma set_parser_include init_rec self grammar name w :
  g_include grammar = Some (String "#" name) ->
  set_parser init_rec self grammar w = Ok (NameRef name, w).
Proof. intros H. unfold set_parser. rewrite H. reflexivity. Qed.

(** Resolving a list of references raises at a name without an entry. *)
Lemma get_parsers_unresolved (PARSERSTORE : gmap string nat) (callIds : list Ref) :
  (exists name, NameRef name ∈ callIds /\ PARSERSTORE !! name = None) ->
  exists name,
    NameRef name ∈ callIds /\ PARSERSTORE !! name = None
    /\ get_parsers PARSERSTORE callIds = Raise (IncludedParserNotFound name).
Proof.
  induction callIds as [|callId rest IH]; intros (name & Hin & Hnone).
  - apply elem_of_nil in Hin. contradiction.
  - simpl. destruct callId as [p|name'].
    + apply elem_of_cons in Hin. destruct Hin as [Heq|Hin]; [discriminate|].
      destruct IH as (name1 & Hin1 & Hnone1 & Hraise); [eauto|].
      exists name1. rewrite Hraise. simpl.
      split; [apply elem_of_cons; right; exact Hin1 | split; [exact Hnone1 | reflexivity]].
    + simpl. destruct (PARSERSTORE !! name') as [p|] eqn:Hlook.
      * apply elem_of_cons in Hin. destruct Hin as [Heq|Hin]; [congruence|].
        destruct IH as (name1 & Hin1 & Hnone1 & Hraise); [eauto|].
        exists name1. rewrite Hraise.
        split; [apply elem_of_cons; right; exact Hin1 | split; [exact Hnone1 | reflexivity]].
      * exists name'.
        split; [apply elem_of_cons; left; reflexivity | split; [exact Hlook | reflexivity]].
Qed.

(** C6 (amended). Construction does not resolve includes: it never
    raises [IncludedParserNotFound], and it stores an include [#name] as
    the bare name whether or not the class dictionary has an entry.  The
    error is raised at dispatch time: [match_patterns] of a rule one of
    whose patterns names a missing entry raises [IncludedParserNotFound]
    for such a name, before it reads the stream. *)
Theorem include_resolution_is_deferred :
  (forall compile g key w name,
      init compile g key w <> Raise (IncludedParserNotFound name))
  /\ (forall init_rec self grammar name w,
         g_include grammar = Some (String "#" name) ->
         set_parser init_rec self grammar w = Ok (NameRef name, w))
  /\ (forall heap PARSERSTORE parse_rec iters self startPos closePos s,
         (exists name, NameRef name ∈ gp_patterns (heap self)
                       /\ PARSERSTORE !! name = None) ->
         exists name,
           NameRef name ∈ gp_patterns (heap self) /\ PARSERSTORE !! name = None
           /\ match_patterns heap PARSERSTORE parse_rec iters self startPos closePos s
              = Raise (IncludedParserNotFound name)).
Proof.
  split; [|split].
  - intros compile g key w name H.
    pose proof (init_raises compile g key w _ H). discriminate.
  - exact set_parser_include.
  - intros heap PARSERSTORE parse_rec iters self startPos closePos s Hmissing.
    destruct (get_parsers_unresolved PARSERSTORE _ Hmissing) as (name & Hin & Hnone & Hraise).
    exists name. split; [exact Hin|]. split; [exact Hnone|].
    unfold match_patterns, bind, lift. rewrite Hraise. reflexivity.
Qed.

(** C6, as stated, fails: the rule whose pattern includes [#nope] is
    built, in a world that has no entry for ["nope"]; the error comes when
    the rule is used to parse. *)
Lemma include_not_found_counterexample :
  init onig_compile Demo.include_missing "" Demo.empty_world
    = Ok (0%nat, Demo.world Demo.include_missing)
  /\ store (Demo.world Demo.include_missing) !! "nope" = None
  /\ gp_patterns (heap_of (Demo.world Demo.include_missing) 0) = [NameRef "nope"]
  /\ Demo.run Demo.include_missing 5 10 "ab" 0 (Some 1)
     = Raise (IncludedParserNotFound "nope").
Proof. repeat split; vm_compute; reflexivity. Qed.

(** ** The dispatcher: the choice of the winner *)

Section Winner.

Variable parse_rec : nat -> Z -> option Z -> M ParseResult.

(** The loop over the parsers gathers the candidates and folds [choose]
    over them. *)
Lemma for_parsers_candidates parsers patternStartPos closePos :
  forall memo cur s,
    for_parsers parse_rec parsers patternStartPos closePos memo cur s
    = (let* (cs, memo') := candidates parse_rec parsers patternStartPos closePos memo in
       ret (fold_left choose cs cur, memo')) s.
Proof.
  induction parsers as [|parser rest IH]; intros memo cur s; [reflexivity|].
  cbn [for_parsers candidates]. unfold bind.
  destruct (candidate parse_rec parser patternStartPos closePos memo s)
    as [[[opt memo1] s1]| |]; [|reflexivity|reflexivity].
  destruct opt as [c|]; rewrite IH; unfold bind, ret;
    destruct (candidates parse_rec rest patternStartPos closePos memo1 s1)
      as [[[cs memo2] s2]| |]; reflexivity.
Qed.



End Winner.



(** ** The dispatcher: termination *)

(** *** A zero-width winner *)

Lemma zero_width_child rec iters :
  parse_body (heap_of (Demo.world Demo.zero_width)) (store (Demo.world Demo.zero_width))
             rec iters 1 0 (Some 1) (mkStringIO "a" 0)
  = Ok ((true, [ParsedElement "E" "" []], Some (0, 0)), mkStringIO "a" 0).
Proof. vm_compute. reflexivity. Qed.

(** Once the zero-width result is memoized, every iteration reuses it
    and leaves the cursor at 0. *)
Lemma zero_width_stuck rec :
  forall iters captured s,
    dispatch_loop rec iters [1%nat] 1 0
                  (<[1%nat := ([ParsedElement "E" "" []], (0, 0))]> ∅) captured s
    = OutOfFuel.
Proof.
  induction iters as [|iters IH]; intros captured s; [reflexivity|].
  cbn [dispatch_loop]. change (0 <? 1) with true. cbn iota.
  unfold iteration, bind. cbn [for_parsers]. unfold bind, candidate.
  rewrite lookup_insert_eq. change (fst (0, 0) >=? 0) with true. cbn iota.
  unfold ret. cbn. apply IH.
Qed.

Lemma zero_width_never_returns depth iters :
  parse (heap_of (Demo.world Demo.zero_width)) (store (Demo.world Demo.zero_width))
        depth iters 0 0 (Some 1) (mkStringIO "a" 0)
  = OutOfFuel.
Proof.
  pose proof zero_width_child as Hchild.
  assert (Hroot : heap_of (Demo.world Demo.zero_width) 0
                  = mkGrammarParser "" "" "" "" None None None [] [] [] [ObjRef 1])
    by (vm_compute; reflexivity).
  revert Hchild Hroot.
  generalize (store (Demo.world Demo.zero_width)).
  generalize (heap_of (Demo.world Demo.zero_width)).
  intros h st Hchild Hroot.
  assert (Hseek : seek 0 (mkStringIO "a" 0) = Ok (0, mkStringIO "a" 0)) by reflexivity.
  destruct depth as [|depth]; [reflexivity|].
  cbn [parse]. unfold parse_body. rewrite Hroot.
  cbn [gp_match gp_begin gp_end gp_patterns].
  rewrite (bind_eq _ _ _ _ _ Hseek).
  unfold parse_patterns. cbn [int_truthy negb Z.eqb].
  apply bind_OutOfFuel_or; right; eexists _, _; split; [reflexivity|]. cbn beta iota.
  apply bind_OutOfFuel.
  unfold match_patterns. rewrite Hroot. cbn [gp_patterns get_parsers get_parser lift].
  apply bind_OutOfFuel_or; right; eexists _, _; split; [reflexivity|]. cbn beta iota.
  rewrite (bind_eq _ _ _ _ _ Hseek).
  destruct iters as [|iters]; [reflexivity|].
  cbn [dispatch_loop]. change (0 <? 1) with true. cbn iota.
  apply bind_OutOfFuel_or. unfold iteration.
  cbn [for_parsers]. unfold candidate. rewrite lookup_empty.
  destruct depth as [|depth]; [left; reflexivity|]. right.
  cbn [parse]. unfold bind. rewrite Hchild. cbn beta iota. unfold ret. cbn beta iota.
  eexists _, _. split; [reflexivity|].
  cbn beta iota. cbn [app]. apply zero_width_stuck.
Qed.

(** At the failing input.  With one pattern whose regex matches the empty
    string, the first iteration on ["a"] over [[0, 1)] picks the
    zero-width match at 0 and leaves the cursor at 0 (not at 1); the
    iterations after it do the same, and [parse] does not return,
    whatever the depth and the number of iterations followed. *)
Lemma zero_width_counterexample :
  (fun r => match r with Some (Some (cursor, _, _)) => Some cursor | _ => None end)
    (value_of (iteration (parse (heap_of (Demo.world Demo.zero_width))
                                (store (Demo.world Demo.zero_width)) 1 0)
                         [1%nat] 1 0 ∅ [] (mkStringIO "a" 0)))
  = Some 0
  /\ ~ (exists depth iters,
          parse (heap_of (Demo.world Demo.zero_width)) (store (Demo.world Demo.zero_width))
                depth iters 0 0 (Some 1) (mkStringIO "a" 0)
          <> OutOfFuel).
Proof.
  split; [vm_compute; reflexivity|].
  intros (depth & iters & H). apply H. apply zero_width_never_returns.
Qed.

(** ** The properties at concrete inputs *)

Lemma parse_failure_is_empty_triple_witness :
  parse (heap_of (Demo.world Demo.block_a_z)) (store (Demo.world Demo.block_a_z))
        5 10 0 0 (Some 2) (mkStringIO "ab" 0)
    = Ok ((false, [], None), mkStringIO "ab" 1)
  /\ (@nil Element = [] /\ @None (Z * Z) = None).
Proof.
  assert (H : parse (heap_of (Demo.world Demo.block_a_z)) (store (Demo.world Demo.block_a_z))
                    5 10 0 0 (Some 2) (mkStringIO "ab" 0)
              = Ok ((false, [], None), mkStringIO "ab" 1)) by (vm_compute; reflexivity).
  split; [exact H|].
  exact (parse_failure_is_empty_triple _ _ _ _ _ _ _ _ _ _ _ H).
Defined.

Lemma search_failure_rewinds_witness :
  group_parser_fails
    (parse (heap_of (Demo.world Demo.group_to_z)) (store (Demo.world Demo.group_to_z)) 1 0)
    (Onig.compile "(a)") [(1, ObjRef 1)] (Some 3) true (mkStringIO "ab" 0)
  /\ exists s',
       search (heap_of (Demo.world Demo.group_to_z))
              (parse (heap_of (Demo.world Demo.group_to_z))
                     (store (Demo.world Demo.group_to_z)) 1 0)
              (Onig.compile "(a)") [(1, ObjRef 1)] (Some 3) true (mkStringIO "ab" 0)
         = Ok ((None, [], None), s')
       /\ position s' = 0%nat.
Proof.
  assert (H : group_parser_fails
                (parse (heap_of (Demo.world Demo.group_to_z))
                       (store (Demo.world Demo.group_to_z)) 1 0)
                (Onig.compile "(a)") [(1, ObjRef 1)] (Some 3) true (mkStringIO "ab" 0)).
  { exists (mkMatch ("ab" +:+ String newline "") (0, 1) [(0, 1)]), 0,
           [mkPass 0 0 0], (mkStringIO "ab" 2), "a", (mkStringIO "ab" 1), (mkStringIO "ab" 0).
    repeat split; vm_compute; reflexivity. }
  split; [exact H|].
  exact (search_failure_rewinds _ _ _ _ _ _ _ (or_intror H)).
Defined.

Lemma parse_match_read_size_witness :
  gp_match (heap_of (Demo.world Demo.letter_b) 0) = Some (Onig.compile "b")
  /\ parse (heap_of (Demo.world Demo.letter_b)) (store (Demo.world Demo.letter_b))
           1 0 0 0 (Some 1) (mkStringIO "ab" 0)
     = (seek 0;;
        match_shape (heap_of (Demo.world Demo.letter_b))
                    (parse (heap_of (Demo.world Demo.letter_b))
                           (store (Demo.world Demo.letter_b)) 0 0)
                    (heap_of (Demo.world Demo.letter_b) 0) (Onig.compile "b")
                    (Some (1 - 0 + 1))) (mkStringIO "ab" 0).
Proof.
  assert (H : gp_match (heap_of (Demo.world Demo.letter_b) 0) = Some (Onig.compile "b"))
    by (vm_compute; reflexivity).
  split; [exact H|].
  exact (parse_match_read_size (heap_of (Demo.world Demo.letter_b))
           (store (Demo.world Demo.letter_b)) 0 0 0 (Onig.compile "b") 0 1
           (mkStringIO "ab" 0) H).
Defined.

Lemma include_resolution_is_deferred_witness :
  exists name,
    NameRef name ∈ gp_patterns (heap_of (Demo.world Demo.include_missing) 0)
    /\ store (Demo.world Demo.include_missing) !! name = None
    /\ match_patterns (heap_of (Demo.world Demo.include_missing))
                      (store (Demo.world Demo.include_missing))
                      (parse (heap_of (Demo.world Demo.include_missing))
                             (store (Demo.world Demo.include_missing)) 1 1)
                      1 0 0 1 (mkStringIO "ab" 0)
       = Raise (IncludedParserNotFound name).
Proof.
  apply (proj2 (proj2 include_resolution_is_deferred)).
  exists "nope". split.
  - change (gp_patterns (heap_of (Demo.world Demo.include_missing) 0))
      with [NameRef "nope"].
    apply elem_of_cons. left. reflexivity.
  - vm_compute. reflexivity.
Defined.


(** * Further properties of the interpreter *)

(** ** Rules for [post] *)

Lemma post_ret {A} (a : A) s (Q : A -> StringIO -> Prop) E : Q a s -> post (ret a) s Q E.
Proof. intros H. exact H. Qed.

Lemma post_raise {A} e s (Q : A -> StringIO -> Prop) (E : Exn -> Prop) :
  E e -> post (raise e) s Q E.
Proof. intros H. exact H. Qed.

Lemma post_out_of_fuel {A} s (Q : A -> StringIO -> Prop) E : post out_of_fuel s Q E.
Proof. exact I. Qed.

Lemma post_bind {A B} (c : M A) (k : A -> M B) s Q E :
  post c s (fun a s1 => post (k a) s1 Q E) E -> post (bind c k) s Q E.
Proof.
  unfold post, bind. destruct (c s) as [[a s1]|e|]; intros H; exact H.
Qed.

Lemma post_conseq {A} (c : M A) s (Q Q' : A -> StringIO -> Prop) (E E' : Exn -> Prop) :
  post c s Q E -> (forall a s', Q a s' -> Q' a s') -> (forall e, E e -> E' e) ->
  post c s Q' E'.
Proof.
  unfold post. destruct (c s) as [[a s1]|e|]; intros H HQ HE; auto.
Qed.

Lemma post_Ok {A} (c : M A) s Q E a s' : post c s Q E -> c s = Ok (a, s') -> Q a s'.
Proof. unfold post. intros H Hc. rewrite Hc in H. exact H. Qed.

Lemma post_Raise {A} (c : M A) s (Q : A -> StringIO -> Prop) E e :
  post c s Q E -> c s = Raise e -> E e.
Proof. unfold post. intros H Hc. rewrite Hc in H. exact H. Qed.

Lemma post_tell s (Q : Z -> StringIO -> Prop) E :
  Q (Z.of_nat (position s)) s -> post tell s Q E.
Proof. intros H. exact H. Qed.

Lemma post_seek p s (Q : Z -> StringIO -> Prop) (E : Exn -> Prop) :
  E ValueError ->
  (0 <= p -> Q p (mkStringIO (buffer s) (Z.to_nat p))) ->
  post (seek p) s Q E.
Proof.
  intros HE HQ. unfold post, seek.
  destruct (Z.ltb_spec p 0); [exact HE | apply HQ; assumption].
Qed.

Lemma post_seek_end s (Q : Z -> StringIO -> Prop) E :
  Q (Z.of_nat (String.length (buffer s)))
    (mkStringIO (buffer s) (String.length (buffer s))) ->
  post seek_end s Q E.
Proof. intros H. exact H. Qed.

Lemma post_read size s (Q : string -> StringIO -> Prop) E :
  (forall content k, Q content (mkStringIO (buffer s) (position s + k))) ->
  post (read size) s Q E.
Proof. intros H. unfold post, read. apply H. Qed.

Lemma post_readline s (Q : string -> StringIO -> Prop) E :
  (forall content k, Q content (mkStringIO (buffer s) (position s + k))) ->
  post readline s Q E.
Proof. intros H. unfold post, readline. apply H. Qed.

Lemma post_lift {A} (r : Result A) s (Q : A -> StringIO -> Prop) (E : Exn -> Prop) :
  (forall a, r = Ok a -> Q a s) -> (forall e, r = Raise e -> E e) ->
  post (lift r) s Q E.
Proof.
  intros HQ HE. unfold post, lift. destruct r as [a|e|]; auto.
Qed.

Lemma no_TypeError_ValueError : no_TypeError ValueError.
Proof. discriminate. Qed.

Lemma no_TypeError_AttributeError : no_TypeError AttributeError.
Proof. discriminate. Qed.

Lemma no_TypeError_IndexError : no_TypeError IndexError.
Proof. discriminate. Qed.

(** One step through a computation built from the stream primitives. *)
Ltac post_step :=
  lazymatch goal with
  | |- post (ret _) _ _ _ => apply post_ret
  | |- post (bind _ _) _ _ _ => apply post_bind
  | |- post tell _ _ _ => apply post_tell
  | |- post (seek _) _ _ _ =>
      apply post_seek; [unfold no_TypeError; discriminate | intros ?]
  | |- post seek_end _ _ _ => apply post_seek_end
  | |- post (read _) _ _ _ => apply post_read; intros ? ?
  | |- post readline _ _ _ => apply post_readline; intros ? ?
  | |- post out_of_fuel _ _ _ => apply post_out_of_fuel
  | |- post (raise _) _ _ _ => apply post_raise; unfold no_TypeError; discriminate
  end;
  cbv beta.

(** ** What the interpreter keeps *)

Section Keeps.

Variable heap : nat -> GrammarParser.
Variable PARSERSTORE : gmap string nat.
Variable rec : nat -> Z -> option Z -> M ParseResult.
Hypothesis Hrec : parse_spec rec.

Lemma search_pass_keeps regex readSize olw initPos lookbehind can s :
  post (search_pass regex readSize olw initPos lookbehind can) s
       (fun _ s' => buffer s' = buffer s) no_TypeError.
Proof.
  unfold search_pass.
  destruct (initPos - lookbehind <? 0);
    destruct (if int_truthy readSize then readSize else None) as [size|];
    repeat post_step.
  all: try (destruct (scan_lines regex _ 0) as [[m linePos]|]; post_step; reflexivity).
  all: destruct (search_line regex content) as [m|]; [|post_step; reflexivity].
  all: destruct (olw && _); post_step; reflexivity.
Qed.

Lemma search_loop_keeps regex readSize olw initPos :
  forall fuel lookbehind can trace s,
    post (search_loop fuel regex readSize olw initPos lookbehind can trace) s
         (fun _ s' => buffer s' = buffer s) no_TypeError.
Proof.
  induction fuel as [|fuel IH]; intros lookbehind can trace s; simpl.
  - destruct ((lookbehind <=? regex_lookbehind_max) && can); post_step; reflexivity.
  - destruct ((lookbehind <=? regex_lookbehind_max) && can); [|post_step; reflexivity].
    apply post_bind.
    eapply post_conseq; [apply search_pass_keeps | | auto].
    intros [[found shift] can'] s1 Hbuf. cbv beta iota.
    destruct found as [r|]; [post_step; exact Hbuf|].
    eapply post_conseq; [apply IH | | auto].
    intros a s2 H2. cbv beta in *. congruence.
Qed.

Lemma parse_groups_keeps matching matchingToStreamPos :
  forall parsers elements s,
    post (parse_groups rec matching matchingToStreamPos parsers elements) s
         (fun _ s' => buffer s' = buffer s) no_TypeError.
Proof.
  induction parsers as [|[groupId parser] rest IH]; intros elements s; simpl.
  - post_step. reflexivity.
  - apply post_bind. apply post_lift.
    2:{ intros e He. unfold m_group in He.
        destruct (py_index (m_regs matching) groupId) as [[b e0]|]; [discriminate|].
        injection He as <-. discriminate. }
    intros group _. cbv beta.
    destruct (negb (str_truthy group)); [apply IH|].
    apply post_bind. apply post_lift.
    2:{ intros e He. unfold m_span_of in He.
        destruct (py_index (m_regs matching) groupId) as [[b e0]|]; [discriminate|].
        injection He as <-. discriminate. }
    intros span _. cbv beta.
    destruct parser as [p|name]; [|post_step].
    apply post_bind.
    eapply post_conseq; [apply Hrec | | auto].
    intros [[groupMatched parsed_elements] sp] s1 (Hbuf & _ & _). cbv beta iota.
    destruct groupMatched.
    + eapply post_conseq; [apply IH | | auto].
      intros a s2 H2. cbv beta in *. congruence.
    + post_step. exact Hbuf.
Qed.

Lemma search_keeps regex parsers readSize olw s :
  post (search heap rec regex parsers readSize olw) s (search_post s) no_TypeError.
Proof.
  unfold search. repeat post_step.
  eapply post_conseq; [apply search_loop_keeps | | auto].
  intros [found trace] s1 Hbuf. cbv beta iota.
  destruct found as [[matching m2s]|].
  2:{ repeat post_step. split; [exact Hbuf|]. simpl. apply Nat2Z.id. }
  repeat post_step. simpl buffer.
  destruct (dict_get parsers 0) as [[p0|name]|].
  - repeat post_step. split; [exact Hbuf | assumption].
  - post_step.
  - destruct parsers as [|kv rest].
    + repeat post_step. split; [exact Hbuf | assumption].
    + post_step.
      eapply post_conseq; [apply parse_groups_keeps | | auto].
      intros parsed s2 Hbuf2. cbv beta in *. simpl buffer in Hbuf2.
      destruct parsed as [[|el els]|].
      * post_step. split; [congruence | assumption].
      * repeat post_step. split; [simpl; congruence | assumption].
      * repeat post_step. split; [simpl; congruence|].
        simpl. apply Nat2Z.id.
Qed.

End Keeps.

Lemma get_parsers_raises PARSERSTORE callIds e :
  get_parsers PARSERSTORE callIds = Raise e ->
  exists name, e = IncludedParserNotFound name.
Proof.
  revert e. induction callIds as [|callId rest IH]; intros e; simpl; [discriminate|].
  destruct callId as [p|name]; simpl.
  - destruct (get_parsers PARSERSTORE rest) as [ps|e'|]; try discriminate.
    intros [= <-]. apply IH. reflexivity.
  - destruct (PARSERSTORE !! name) as [p|].
    + destruct (get_parsers PARSERSTORE rest) as [ps|e'|]; try discriminate.
      intros [= <-]. apply IH. reflexivity.
    + intros [= <-]. eauto.
Qed.

Lemma choice_ok_choose cur c : choice_ok cur -> choice_ok (choose cur c).
Proof.
  intros H. unfold choose. destruct (replaces c cur); [|exact H].
  right. simpl. eauto.
Qed.

Lemma parse_post_from s0 s r s' :
  buffer s0 = buffer s -> parse_post s0 r s' -> parse_post s r s'.
Proof. intros Hb (H1 & H2 & H3). split; [congruence | split; assumption]. Qed.

Section KeepsDispatch.

Variable heap : nat -> GrammarParser.
Variable PARSERSTORE : gmap string nat.
Variable rec : nat -> Z -> option Z -> M ParseResult.
Hypothesis Hrec : parse_spec rec.

Lemma candidate_keeps parser patternStartPos closePos (memo : Memo) s :
  post (candidate rec parser patternStartPos closePos memo) s
       (fun _ s' => buffer s' = buffer s) no_TypeError.
Proof.
  assert (Hfresh :
    post (let* (patternMatched, optPatternElements, optPatternPos) :=
            rec parser patternStartPos (Some closePos) in
          if (patternMatched : bool) then
            match optPatternPos with
            | Some pos =>
                ret (Some (optPatternElements, pos),
                     <[parser := (optPatternElements, pos)]> memo)
            | None => raise TypeError
            end
          else ret (None, memo)) s
         (fun _ s' => buffer s' = buffer s) no_TypeError).
  { apply post_bind.
    eapply post_conseq; [apply Hrec | | auto].
    intros [[matched els] sp] s1 (Hbuf & Hspan & _). cbv beta iota.
    destruct matched; [|post_step; exact Hbuf].
    destruct (Hspan eq_refl) as (a & Ha). simpl in Ha. subst sp.
    post_step. exact Hbuf. }
  unfold candidate.
  destruct (memo !! parser) as [[lastElements lastPos]|]; [|exact Hfresh].
  destruct (fst lastPos >=? patternStartPos); [post_step; reflexivity | exact Hfresh].
Qed.

Lemma for_parsers_keeps patternStartPos closePos :
  forall parsers (memo : Memo) cur s,
    choice_ok cur ->
    post (for_parsers rec parsers patternStartPos closePos memo cur) s
         (fun r s' => buffer s' = buffer s /\ choice_ok (fst r)) no_TypeError.
Proof.
  induction parsers as [|parser rest IH]; intros memo cur s Hcur; simpl.
  - post_step. split; [reflexivity | exact Hcur].
  - apply post_bind.
    eapply post_conseq; [apply candidate_keeps | | auto].
    intros [opt memo'] s1 Hbuf. cbv beta iota.
    destruct opt as [c|].
    + eapply post_conseq; [apply IH; apply choice_ok_choose; exact Hcur | | auto].
      intros r s2 (H2 & Hok). cbv beta in *. split; [congruence | exact Hok].
    + eapply post_conseq; [apply IH; exact Hcur | | auto].
      intros r s2 (H2 & Hok). cbv beta in *. split; [congruence | exact Hok].
Qed.

Lemma iteration_keeps parsers closePos patternStartPos (memo : Memo) captured s :
  post (iteration rec parsers closePos patternStartPos memo captured) s
       (fun _ s' => buffer s' = buffer s) no_TypeError.
Proof.
  unfold iteration. apply post_bind.
  eapply post_conseq; [apply for_parsers_keeps; left; reflexivity | | auto].
  intros [[patternElements patternPos] memo'] s1 (Hbuf & Hok). cbv beta iota.
  destruct patternElements as [|e es]; [post_step; exact Hbuf|].
  destruct patternPos as [pos|]; [post_step; exact Hbuf|].
  destruct Hok as [Hnil|[x Hx]]; simpl in *; discriminate.
Qed.

Lemma dispatch_loop_keeps parsers closePos :
  forall iters patternStartPos (memo : Memo) captured s,
    post (dispatch_loop rec iters parsers closePos patternStartPos memo captured) s
         (fun _ s' => buffer s' = buffer s) no_TypeError.
Proof.
  induction iters as [|iters IH]; intros cursor memo captured s; simpl.
  - destruct (cursor <? closePos); post_step. reflexivity.
  - destruct (cursor <? closePos); [|post_step; reflexivity].
    apply post_bind.
    eapply post_conseq; [apply iteration_keeps | | auto].
    intros next s1 Hbuf. cbv beta.
    destruct next as [[[cursor' memo'] captured']|]; [|post_step; exact Hbuf].
    eapply post_conseq; [apply IH | | auto].
    intros a s2 H2. cbv beta in *. congruence.
Qed.

Lemma match_patterns_keeps iters self startPos closePos s :
  post (match_patterns heap PARSERSTORE rec iters self startPos closePos) s
       (fun _ s' => buffer s' = buffer s) no_TypeError.
Proof.
  unfold match_patterns. apply post_bind. apply post_lift.
  2:{ intros e He. destruct (get_parsers_raises _ _ _ He) as (name & ->). discriminate. }
  intros parsers _. cbv beta. repeat post_step.
  eapply post_conseq; [apply dispatch_loop_keeps | | auto].
  intros a s1 H1. exact H1.
Qed.

Lemma stream_read_pos_keeps start end_ s :
  post (stream_read_pos start end_) s
       (fun _ s' => buffer s' = buffer s /\ Z.of_nat (position s') = end_) no_TypeError.
Proof.
  unfold stream_read_pos. repeat post_step. simpl. split; [reflexivity | lia].
Qed.

Lemma stream_end_pos_keeps s :
  post stream_end_pos s (fun _ s' => buffer s' = buffer s) no_TypeError.
Proof. unfold stream_end_pos. repeat post_step. reflexivity. Qed.

Lemma succeed_keeps elements start s :
  post (succeed elements start) s (parse_post s) no_TypeError.
Proof.
  unfold succeed. repeat post_step.
  split; [reflexivity|]. split; [simpl; eauto | discriminate].
Qed.

Lemma parse_match_keeps node regex startPos closePos s :
  post (parse_match heap rec node regex startPos closePos) s (parse_post s) no_TypeError.
Proof.
  unfold parse_match. apply post_bind.
  eapply post_conseq; [apply (search_keeps heap rec Hrec) | | auto].
  intros [[string captures] parsedStart] s1 (Hbuf & Hshape). cbv beta iota.
  destruct string as [content|].
  - destruct parsedStart as [start|]; [|contradiction].
    eapply post_conseq; [apply succeed_keeps | | auto].
    intros r s2 H2. eapply parse_post_from; eassumption.
  - destruct captures; [|contradiction]. destruct parsedStart; [contradiction|].
    post_step. split; [exact Hbuf|]. split; [discriminate | reflexivity].
Qed.

Lemma parse_block_keeps iters self node b e startPos closePos s :
  post (parse_block heap PARSERSTORE rec iters self node b e startPos closePos) s
       (parse_post s) no_TypeError.
Proof.
  unfold parse_block. apply post_bind.
  eapply post_conseq; [apply (search_keeps heap rec Hrec) | | auto].
  intros [[beginString beginCaptured] parsedStart] s1 (Hbuf1 & Hshape1). cbv beta iota.
  destruct beginString as [bs|].
  2:{ destruct beginCaptured; [|contradiction]. destruct parsedStart; [contradiction|].
      post_step. split; [exact Hbuf1|]. split; [discriminate | reflexivity]. }
  destruct parsedStart as [parsedStart|]; [|contradiction].
  repeat post_step.
  eapply post_conseq; [apply (search_keeps heap rec Hrec) | | auto].
  intros [[endString endCaptured] midClosePos] s2 (Hbuf2 & Hshape2). cbv beta iota.
  repeat post_step.
  destruct endString as [es|].
  2:{ destruct endCaptured; [|contradiction]. destruct midClosePos; [contradiction|].
      post_step. split; [congruence|]. split; [discriminate | reflexivity]. }
  destruct midClosePos as [midClose|]; [|contradiction].
  destruct ((startPos =? Z.of_nat (position s1)) && option_Z_eqb closePos (Some midClose)).
  - apply post_bind.
    eapply post_conseq; [apply stream_read_pos_keeps | | auto].
    intros content s3 (Hbuf3 & Hpos3). cbv beta.
    post_step. split; [congruence|]. split; [|discriminate].
    intros _. simpl. rewrite Hpos3. eauto.
  - apply post_bind.
    apply (post_conseq _ _ (fun _ s' => buffer s' = buffer s2) _ no_TypeError no_TypeError).
    { destruct (gp_patterns node); [post_step; reflexivity | apply match_patterns_keeps]. }
    2:{ auto. }
    intros midCaptured s3 Hbuf3. cbv beta.
    repeat post_step.
    apply (post_conseq _ _ (fun _ s' => buffer s' = buffer s3) _ no_TypeError no_TypeError).
    { destruct (str_truthy (gp_contentToken node)); apply post_bind;
        (eapply post_conseq; [apply stream_read_pos_keeps | | auto]);
        intros content s4 (Hbuf4 & _); cbv beta; post_step; exact Hbuf4. }
    2:{ auto. }
    intros elements s4 Hbuf4. cbv beta.
    eapply post_conseq; [apply succeed_keeps | | auto].
    intros r s5 H5. eapply parse_post_from; [|exact H5]. simpl in *. congruence.
Qed.

Lemma parse_patterns_keeps iters self node startPos closePos s :
  post (parse_patterns heap PARSERSTORE rec iters self node startPos closePos) s
       (parse_post s) no_TypeError.
Proof.
  unfold parse_patterns. apply post_bind.
  apply (post_conseq _ _ (fun _ s' => buffer s' = buffer s) _ no_TypeError no_TypeError).
  { destruct (int_truthy closePos); [post_step; reflexivity | apply stream_end_pos_keeps]. }
  2:{ auto. }
  intros parsedEnd s1 Hbuf1. cbv beta. apply post_bind.
  eapply post_conseq; [apply match_patterns_keeps | | auto].
  intros captured s2 Hbuf2. cbv beta. repeat post_step.
  apply (post_conseq _ _ (fun _ s' => buffer s' = buffer s2) _ no_TypeError no_TypeError).
  { destruct captured; [post_step; reflexivity|].
    destruct (str_truthy (gp_token node)); [|post_step; reflexivity].
    apply post_bind. eapply post_conseq; [apply stream_read_pos_keeps | | auto].
    intros content s3 (Hbuf3 & _). cbv beta. post_step. exact Hbuf3. }
  2:{ auto. }
  intros elements s3 Hbuf3. cbv beta.
  eapply post_conseq; [apply succeed_keeps | | auto].
  intros r s4 H4. eapply parse_post_from; [|exact H4]. congruence.
Qed.

Lemma parse_leaf_keeps node startPos closePos s :
  post (parse_leaf node startPos closePos) s (parse_post s) no_TypeError.
Proof.
  unfold parse_leaf. apply post_bind.
  apply (post_conseq _ _ (fun _ s' => buffer s' = buffer s) _ no_TypeError no_TypeError).
  { destruct closePos; repeat post_step; reflexivity. }
  2:{ auto. }
  intros [parsedStart content] s1 Hbuf1. cbv beta iota.
  eapply post_conseq; [apply succeed_keeps | | auto].
  intros r s2 H2. eapply parse_post_from; eassumption.
Qed.

Lemma parse_body_keeps iters : parse_spec (parse_body heap PARSERSTORE rec iters).
Proof.
  intros self startPos closePos s. unfold parse_body. repeat post_step.
  set (s0 := mkStringIO (buffer s) (Z.to_nat startPos)).
  assert (Hfrom : forall r s', parse_post s0 r s' -> parse_post s r s').
  { intros r s'. apply parse_post_from. reflexivity. }
  destruct (gp_match (heap self)) as [regex|].
  { eapply post_conseq; [apply parse_match_keeps | exact Hfrom | auto]. }
  destruct (gp_begin (heap self)) as [b|], (gp_end (heap self)) as [e|];
    try (eapply post_conseq; [apply parse_block_keeps | exact Hfrom | auto]).
  all: destruct (gp_patterns (heap self)).
  all: try (eapply post_conseq; [apply parse_leaf_keeps | exact Hfrom | auto]).
  all: eapply post_conseq; [apply parse_patterns_keeps | exact Hfrom | auto].
Qed.

End KeepsDispatch.

Lemma parse_keeps heap PARSERSTORE iters :
  forall depth, parse_spec (parse heap PARSERSTORE depth iters).
Proof.
  induction depth as [|depth IH].
  - intros self startPos closePos s. exact I.
  - simpl. apply parse_body_keeps. exact IH.
Qed.

(** ** The stream helpers *)

Lemma substring_min (s : string) :
  forall n k, substring n (Nat.min k (String.length s - n)) s = substring n k s.
Proof.
  induction s as [|c s IH]; intros n k.
  - destruct n, k; reflexivity.
  - destruct n as [|n].
    + destruct k as [|k]; [reflexivity|].
      simpl String.length. rewrite Nat.sub_0_r. simpl Nat.min. cbn [substring].
      f_equal. specialize (IH 0%nat k). rewrite Nat.sub_0_r in IH. exact IH.
    + simpl String.length. simpl Nat.sub. cbn [substring]. apply IH.
Qed.

Lemma substring_rest (s : string) :
  forall n k, (String.length s - n <= k)%nat ->
              substring n k s = substring n (String.length s - n) s.
Proof.
  intros n k Hk. rewrite <- (substring_min s n k).
  rewrite Nat.min_r by exact Hk. reflexivity.
Qed.

(** ** The dispatcher: a winner that ends at the cursor *)

Lemma parse_from_buffer heap PARSERSTORE depth iters self startPos closePos s s2 :
  buffer s = buffer s2 ->
  parse heap PARSERSTORE depth iters self startPos closePos s
  = parse heap PARSERSTORE depth iters self startPos closePos s2.
Proof.
  intros Hbuf. destruct depth as [|depth]; [reflexivity|].
  simpl. unfold parse_body, bind, seek. rewrite Hbuf. reflexivity.
Qed.

Section Stuck.

Variable parse_rec : nat -> Z -> option Z -> M ParseResult.
Variable buf : string.
Variable closePos patternStartPos : Z.

(** A parse starts with a seek: it depends on the text of the stream and
    not on its position; and it leaves the text as it is. *)
Hypothesis Hdet : forall parser a b s s2,
  buffer s = buffer s2 -> parse_rec parser a b s = parse_rec parser a b s2.
Hypothesis Hkeep : forall parser a b s r s',
  parse_rec parser a b s = Ok (r, s') -> buffer s' = buffer s.

(** On a memo settled for [parser] the parser contributes the same again
    and the memo stays as it is. *)
Lemma settled_candidate memo parser opt s :
  settled parse_rec buf patternStartPos closePos memo parser opt ->
  buffer s = buf ->
  exists s',
    candidate parse_rec parser patternStartPos closePos memo s = Ok ((opt, memo), s')
    /\ buffer s' = buf.
Proof.
  intros [(els & pos & Hm & Hge & ->)
         |[(els & pos & s0 & s1 & Hb0 & Hrun & Hm & ->)
          |(els & sp & s0 & s1 & Hb0 & Hrun & Hre & ->)]] Hbuf; unfold candidate.
  - rewrite Hm, Hge. unfold ret. eauto.
  - rewrite Hm. destruct (fst pos >=? patternStartPos); [unfold ret; eauto|].
    unfold bind. rewrite (Hdet parser _ _ s s0) by congruence. rewrite Hrun.
    cbn beta iota. unfold ret. rewrite insert_id by exact Hm.
    eexists. split; [reflexivity|]. rewrite (Hkeep _ _ _ _ _ _ Hrun). exact Hb0.
  - unfold reusable in Hre.
    assert (Hfresh :
      (let* (patternMatched, optPatternElements, optPatternPos) :=
         parse_rec parser patternStartPos (Some closePos) in
       if (patternMatched : bool) then
         match optPatternPos with
         | Some pos =>
             ret (Some (optPatternElements, pos),
                  <[parser := (optPatternElements, pos)]> memo)
         | None => raise TypeError
         end
       else ret (None, memo)) s = Ok ((None, memo), s1)).
    { unfold bind. rewrite (Hdet parser _ _ s s0) by congruence. rewrite Hrun.
      reflexivity. }
    exists s1. split; [|rewrite (Hkeep _ _ _ _ _ _ Hrun); exact Hb0].
    destruct (memo !! parser) as [[lastElements lastPos]|]; [rewrite Hre|]; exact Hfresh.
Qed.

(** After a parser has contributed, the memo is settled for it, and only
    its entry can have changed. *)
Lemma candidate_settles memo parser s opt memo1 s1 :
  candidate parse_rec parser patternStartPos closePos memo s = Ok ((opt, memo1), s1) ->
  buffer s = buf ->
  settled parse_rec buf patternStartPos closePos memo1 parser opt
  /\ buffer s1 = buf
  /\ forall other, other <> parser -> memo1 !! other = memo !! other.
Proof.
  intros H Hbuf.
  assert (Hfresh :
    reusable memo parser patternStartPos = false ->
    (let* (patternMatched, optPatternElements, optPatternPos) :=
       parse_rec parser patternStartPos (Some closePos) in
     if (patternMatched : bool) then
       match optPatternPos with
       | Some pos =>
           ret (Some (optPatternElements, pos),
                <[parser := (optPatternElements, pos)]> memo)
       | None => raise TypeError
       end
     else ret (None, memo)) s = Ok ((opt, memo1), s1) ->
    settled parse_rec buf patternStartPos closePos memo1 parser opt
    /\ buffer s1 = buf
    /\ forall other, other <> parser -> memo1 !! other = memo !! other).
  { intros Hre Hf. bind_inv_as Hf r s0 Hrun. destruct r as [[matched els] sp].
    pose proof (Hkeep _ _ _ _ _ _ Hrun) as Hb.
    destruct matched.
    - destruct sp as [pos|]; [|discriminate].
      apply ret_Ok in Hf. injection Hf as -> -> ->.
      split; [|split; [congruence|]].
      + right. left. exists els, pos, s, s0.
        split; [exact Hbuf|]. split; [exact Hrun|].
        split; [apply lookup_insert_eq | reflexivity].
      + intros other Hne. apply lookup_insert_ne. congruence.
    - apply ret_Ok in Hf. injection Hf as -> -> ->.
      split; [|split; [congruence | reflexivity]].
      right. right. exists els, sp, s, s0. auto. }
  unfold candidate in H.
  destruct (memo !! parser) as [[lastElements lastPos]|] eqn:Hm.
  - destruct (fst lastPos >=? patternStartPos) eqn:Hge.
    + apply ret_Ok in H. injection H as -> -> ->.
      split; [|split; [exact Hbuf | reflexivity]].
      left. exists lastElements, lastPos. auto.
    + apply Hfresh; [|exact H]. unfold reusable. rewrite Hm. exact Hge.
  - apply Hfresh; [|exact H]. unfold reusable. rewrite Hm. reflexivity.
Qed.

(** What another parser does leaves the memo settled. *)
Lemma settled_preserved memo parser opt other s opt' memo1 s1 :
  settled parse_rec buf patternStartPos closePos memo parser opt ->
  candidate parse_rec other patternStartPos closePos memo s = Ok ((opt', memo1), s1) ->
  buffer s = buf ->
  settled parse_rec buf patternStartPos closePos memo1 parser opt.
Proof.
  intros Hs H Hbuf. destruct (decide (other = parser)) as [->|Hne].
  - destruct (settled_candidate _ _ _ s Hs Hbuf) as (s' & Hc & _).
    rewrite Hc in H. injection H as _ <- _. exact Hs.
  - destruct (candidate_settles _ _ _ _ _ _ H Hbuf) as (_ & _ & Hsame).
    assert (Hm : memo1 !! parser = memo !! parser) by (apply Hsame; congruence).
    unfold settled, reusable in *. rewrite Hm. exact Hs.
Qed.

(** One round over the parsers settles the memo: a second round gathers
    the same candidates and changes nothing. *)
Lemma candidates_settle parsers :
  forall memo s cs memo' s',
    candidates parse_rec parsers patternStartPos closePos memo s = Ok ((cs, memo'), s') ->
    buffer s = buf ->
    buffer s' = buf
    /\ (forall parser opt,
          settled parse_rec buf patternStartPos closePos memo parser opt ->
          settled parse_rec buf patternStartPos closePos memo' parser opt)
    /\ forall s2, buffer s2 = buf ->
         exists s3,
           candidates parse_rec parsers patternStartPos closePos memo' s2
             = Ok ((cs, memo'), s3)
           /\ buffer s3 = buf.
Proof.
  induction parsers as [|parser rest IH]; intros memo s cs memo' s' H Hbuf.
  - apply ret_Ok in H. injection H as -> -> ->.
    split; [exact Hbuf|]. split; [auto|].
    intros s2 Hb2. exists s2. split; [reflexivity | exact Hb2].
  - cbn [candidates] in H. bind_inv_as H r1 s1 Hcand. destruct r1 as [opt memo1].
    bind_inv_as H r2 s2 Hrest. destruct r2 as [cs' memo2].
    apply ret_Ok in H. injection H as -> -> ->.
    destruct (candidate_settles _ _ _ _ _ _ Hcand Hbuf) as (Hset & Hb1 & _).
    destruct (IH _ _ _ _ _ Hrest Hb1) as (Hb2 & Hpres & Hagain).
    split; [exact Hb2|]. split.
    + intros q o Hq. apply Hpres. exact (settled_preserved _ _ _ _ _ _ _ _ Hq Hcand Hbuf).
    + intros s3 Hb3.
      destruct (settled_candidate _ _ _ s3 (Hpres _ _ Hset) Hb3) as (s4 & Hc4 & Hb4).
      destruct (Hagain s4 Hb4) as (s5 & Hc5 & Hb5).
      exists s5. split; [|exact Hb5].
      cbn [candidates]. rewrite (bind_eq _ _ _ _ _ Hc4). cbn beta iota.
      rewrite (bind_eq _ _ _ _ _ Hc5). reflexivity.
Qed.

(** An iteration that returns is followed, from the same cursor, by
    iterations that pick the same winner. *)
Lemma iteration_repeats parsers memo captured s cursor' memo' captured' s' :
  iteration parse_rec parsers closePos patternStartPos memo captured s
    = Ok (Some (cursor', memo', captured'), s') ->
  buffer s = buf ->
  forall captured2 s2, buffer s2 = buf ->
    exists captured3 s3,
      iteration parse_rec parsers closePos patternStartPos memo' captured2 s2
        = Ok (Some (cursor', memo', captured3), s3)
      /\ buffer s3 = buf.
Proof.
  unfold iteration. intros H Hbuf captured2 s2 Hb2.
  bind_inv_as H r s1 Hfor. rewrite for_parsers_candidates in Hfor.
  bind_inv_as Hfor r1 s0 Hcs. destruct r1 as [cs memo1].
  apply ret_Ok in Hfor. injection Hfor as -> ->. cbn beta iota in H.
  destruct (candidates_settle _ _ _ _ _ _ Hcs Hbuf) as (_ & _ & Hagain).
  destruct (fold_left choose cs ([], None)) as [patternElements patternPos] eqn:Hfold.
  destruct patternElements as [|el els]; [apply ret_Ok in H; discriminate|].
  destruct patternPos as [pos|]; [|discriminate].
  apply ret_Ok in H. injection H as -> -> -> ->.
  destruct (Hagain s2 Hb2) as (s3 & Hc3 & Hb3).
  exists (captured2 ++ el :: els), s3. split; [|exact Hb3].
  assert (Hfor : for_parsers parse_rec parsers patternStartPos closePos memo1 ([], None) s2
                 = Ok ((el :: els, Some pos, memo1), s3)).
  { rewrite for_parsers_candidates. rewrite (bind_eq _ _ _ _ _ Hc3).
    cbn beta iota. unfold ret. rewrite Hfold. reflexivity. }
  rewrite (bind_eq _ _ _ _ _ Hfor). reflexivity.
Qed.

(** With the cursor inside the window and every iteration leaving it
    where it is, the loop outlasts every number of iterations. *)
Lemma dispatch_loop_stuck parsers memo :
  patternStartPos < closePos ->
  (forall captured s, buffer s = buf ->
     exists captured' s',
       iteration parse_rec parsers closePos patternStartPos memo captured s
         = Ok (Some (patternStartPos, memo, captured'), s')
       /\ buffer s' = buf) ->
  forall iters captured s, buffer s = buf ->
    dispatch_loop parse_rec iters parsers closePos patternStartPos memo captured s
    = OutOfFuel.
Proof.
  intros Hin Hsame. apply Z.ltb_lt in Hin.
  induction iters as [|iters IH]; intros captured s Hbuf;
    cbn [dispatch_loop]; rewrite Hin; [reflexivity|].
  destruct (Hsame captured s Hbuf) as (captured' & s' & Hit & Hb').
  rewrite (bind_eq _ _ _ _ _ Hit). cbn beta iota. apply IH. exact Hb'.
Qed.

End Stuck.

(** C1.  The [while] loop of [match_patterns] has no guard for a winner
    that does not move the cursor.  Whenever the winner of an iteration,
    taken from a cursor inside the window, has the cursor itself as its
    [matchEnd] (as a zero-width match at the cursor does), the iteration
    leaves the cursor where it is (it is not advanced by 1), every later
    iteration picks the same winner again, and the loop does not end: it
    outlasts every number of iterations. *)
Theorem zero_width_winner_never_returns heap PARSERSTORE depth iters0 parsers closePos
    cursor memo captured s el els matchStart memo' s' :
  cursor < closePos ->
  for_parsers (parse heap PARSERSTORE depth iters0) parsers cursor closePos memo
              ([], None) s
    = Ok (((el :: els, Some (matchStart, cursor)), memo'), s') ->
  iteration (parse heap PARSERSTORE depth iters0) parsers closePos cursor memo captured s
    = Ok (Some (cursor, memo', captured ++ el :: els), s')
  /\ forall iters,
       dispatch_loop (parse heap PARSERSTORE depth iters0) iters parsers closePos cursor
                     memo captured s
       = OutOfFuel.
Proof.
  intros Hin Hfor.
  assert (Hit : iteration (parse heap PARSERSTORE depth iters0) parsers closePos cursor
                          memo captured s
                = Ok (Some (cursor, memo', captured ++ el :: els), s')).
  { unfold iteration. rewrite (bind_eq _ _ _ _ _ Hfor). reflexivity. }
  split; [exact Hit|]. intros iters.
  assert (Hdet : forall parser a b s1 s2,
            buffer s1 = buffer s2 ->
            parse heap PARSERSTORE depth iters0 parser a b s1
            = parse heap PARSERSTORE depth iters0 parser a b s2)
    by (intros; apply parse_from_buffer; assumption).
  assert (Hkeep : forall parser a b s1 r s2,
            parse heap PARSERSTORE depth iters0 parser a b s1 = Ok (r, s2) ->
            buffer s2 = buffer s1).
  { intros parser a b s1 r s2 H.
    exact (proj1 (post_Ok _ _ _ _ _ _
                    (parse_keeps heap PARSERSTORE iters0 depth parser a b s1) H)). }
  pose proof (iteration_repeats _ (buffer s) closePos cursor Hdet Hkeep
                _ _ _ _ _ _ _ _ Hit eq_refl) as Hagain.
  assert (Hb' : buffer s' = buffer s).
  { rewrite for_parsers_candidates in Hfor.
    bind_inv_as Hfor r1 sb Hcs. destruct r1 as [cs memo1].
    apply ret_Ok in Hfor. injection Hfor as _ _ ->.
    exact (proj1 (candidates_settle _ (buffer s) closePos cursor Hdet Hkeep
                    _ _ _ _ _ _ Hcs eq_refl)). }
  destruct iters as [|iters]; cbn [dispatch_loop];
    rewrite (proj2 (Z.ltb_lt _ _) Hin); [reflexivity|].
  rewrite (bind_eq _ _ _ _ _ Hit). cbn beta iota.
  apply (dispatch_loop_stuck _ (buffer s) closePos cursor parsers memo' Hin);
    [|exact Hb'].
  intros captured2 s2 Hb2. exact (Hagain captured2 s2 Hb2).
Qed.

(** ** The retry loop of [search]: what each pass scans *)

Section RetryScan.

Variable regex : Pattern.
Variable readSize : option Z.
Variable olw : bool.

(** A pass seeks to [initPos - shift], with the shift cut down to
    [initPos], reads [readSize + shift] characters (or a line) there, and
    returns what the regex finds in that text. *)
Lemma search_pass_scan initPos lookbehind can s :
  0 <= initPos -> 0 <= lookbehind ->
  exists s',
    search_pass regex readSize olw initPos lookbehind can s
    = Ok ((pass_scan regex readSize olw initPos
                     (mkPass lookbehind (Z.min lookbehind initPos)
                             (initPos - Z.min lookbehind initPos))
                     (buffer s),
           Z.min lookbehind initPos,
           if initPos - lookbehind <? 0 then false
           else if performLookbehind regex then can else false), s')
    /\ buffer s' = buffer s.
Proof.
  intros Hpos Hlb. unfold search_pass, pass_scan. cbn [pass_from pass_shift].
  set (L := Z.min lookbehind initPos).
  assert (Hclamp :
    (if initPos - lookbehind <? 0 then (initPos, false)
     else (lookbehind, if performLookbehind regex then can else false))
    = (L, if initPos - lookbehind <? 0 then false
          else if performLookbehind regex then can else false)).
  { unfold L. destruct (Z.ltb_spec (initPos - lookbehind) 0); f_equal; lia. }
  rewrite Hclamp. clear Hclamp.
  assert (HL : 0 <= initPos - L) by (unfold L; lia).
  destruct (if int_truthy readSize then readSize else None) as [size|].
  - unfold bind. rewrite seek_nonneg by exact HL. unfold read. cbn [buffer position].
    assert (Htext :
      substring (Z.to_nat (initPos - L))
                (if size + L <? 0 then String.length (buffer s) - Z.to_nat (initPos - L)
                 else Nat.min (Z.to_nat (size + L))
                              (String.length (buffer s) - Z.to_nat (initPos - L)))
                (buffer s)
      = text_from (buffer s) (initPos - L) (size + L)).
    { unfold text_from. destruct (size + L <? 0); [reflexivity | apply substring_min]. }
    rewrite Htext.
    destruct (scan_lines regex _ 0) as [[m linePos]|]; unfold ret.
    + replace (linePos + (initPos - L)) with (linePos + initPos - L) by lia.
      eexists; split; reflexivity.
    + eexists; split; reflexivity.
  - unfold bind. rewrite seek_nonneg by exact HL. unfold readline. cbn [buffer position].
    fold (line_from (buffer s) (initPos - L)).
    destruct (search_line regex _) as [m|]; unfold ret.
    + destruct (olw && _); eexists; split; reflexivity.
    + eexists; split; reflexivity.
Qed.

(** The loop, from the top of pass [k] with the passes before logged:
    fuel for the passes up to the maximum is enough, every pass is within
    the bounds and has scanned what its entry in the log says. *)
Lemma search_loop_scans initPos buf :
  0 <= initPos ->
  forall fuel k can trace s,
    (21 <= fuel + k)%nat -> length trace = k -> buffer s = buf ->
    trace_ok initPos trace ->
    (forall j p, trace !! j = Some p ->
       pass_scan regex readSize olw initPos p buf = None
       /\ (pass_shift p < pass_entry p -> S j = length trace /\ can = false)) ->
    exists r trace' s',
      search_loop fuel regex readSize olw initPos
                  (regex_lookbehind_step * Z.of_nat k) can trace s
      = Ok ((r, trace'), s')
      /\ trace_ok initPos trace'
      /\ scans_ok regex readSize olw initPos buf r trace'.
Proof.
  intros Hpos.
  assert (Hstop : forall trace can,
            (forall j p, trace !! j = Some p ->
               pass_scan regex readSize olw initPos p buf = None
               /\ (pass_shift p < pass_entry p -> S j = length trace /\ can = false)) ->
            scans_ok regex readSize olw initPos buf None trace).
  { intros trace can Hbefore j p Hj. destruct (Hbefore j p Hj) as [Hnone Hcut].
    split; [destruct (S j =? length trace)%nat; exact Hnone|].
    intros Hlt. apply Hcut. exact Hlt. }
  induction fuel as [|fuel IH]; intros k can trace s Hfuel Hlen Hbuf Htr Hbefore.
  - simpl.
    destruct (Z.leb_spec (regex_lookbehind_step * Z.of_nat k) regex_lookbehind_max) as [Hle|Hgt].
    + unfold regex_lookbehind_step, regex_lookbehind_max in Hle. lia.
    + simpl. unfold ret. eauto 10.
  - simpl.
    destruct (Z.leb_spec (regex_lookbehind_step * Z.of_nat k) regex_lookbehind_max) as [Hle|Hgt];
      [|simpl; unfold ret; eauto 10].
    destruct can; simpl; [|unfold ret; eauto 10].
    destruct (search_pass_scan initPos (regex_lookbehind_step * Z.of_nat k) true s Hpos)
      as (s1 & Hpass & Hbuf1).
    { unfold regex_lookbehind_step. lia. }
    rewrite (bind_eq _ _ _ _ _ Hpass). cbn beta iota.
    rewrite Hbuf in Hpass |- *.
    set (p := mkPass (regex_lookbehind_step * Z.of_nat k)
                     (Z.min (regex_lookbehind_step * Z.of_nat k) initPos)
                     (initPos - Z.min (regex_lookbehind_step * Z.of_nat k) initPos)) in *.
    assert (Hp : trace_ok initPos (trace ++ [p])).
    { apply trace_ok_snoc; [exact Htr|]. rewrite Hlen.
      unfold pass_ok, p; simpl. repeat split; lia. }
    assert (Hold : forall j q, trace !! j = Some q ->
              pass_scan regex readSize olw initPos q buf = None
              /\ ~ pass_shift q < pass_entry q).
    { intros j q Hj. destruct (Hbefore j q Hj) as [Hnone Hcut].
      split; [exact Hnone|]. intros Hlt. destruct (Hcut Hlt) as [_ Hfalse]. discriminate. }
    destruct (pass_scan regex readSize olw initPos p buf) as [r|] eqn:Hscan.
    + unfold ret. exists (Some r), (trace ++ [p]), s1.
      split; [reflexivity|]. split; [exact Hp|].
      intros j q Hj. rewrite length_app. simpl length.
      destruct (Nat.lt_ge_cases j (length trace)) as [Hlt|Hge].
      * rewrite lookup_app_l in Hj by exact Hlt. destruct (Hold j q Hj) as [Hnone Hcut].
        split; [|intros Hc; contradiction].
        replace (S j =? length trace + 1)%nat with false
          by (symmetry; apply Nat.eqb_neq; lia).
        exact Hnone.
      * rewrite lookup_app_r in Hj by exact Hge.
        destruct (j - length trace)%nat as [|n] eqn:Hk; simpl in Hj; [|discriminate].
        injection Hj as <-.
        replace (S j =? length trace + 1)%nat with true
          by (symmetry; apply Nat.eqb_eq; lia).
        split; [exact Hscan | intros _; lia].
    + destruct (Z.ltb_spec (initPos - regex_lookbehind_step * Z.of_nat k) 0) as [Hclamp|Hfree].
      * rewrite search_loop_stopped. exists None, (trace ++ [p]), s1.
        split; [reflexivity|]. split; [exact Hp|].
        apply (Hstop _ false). intros j q Hj. rewrite length_app. simpl length.
        destruct (Nat.lt_ge_cases j (length trace)) as [Hlt|Hge].
        -- rewrite lookup_app_l in Hj by exact Hlt. destruct (Hold j q Hj) as [Hnone Hcut].
           split; [exact Hnone | intros Hc; contradiction].
        -- rewrite lookup_app_r in Hj by exact Hge.
           destruct (j - length trace)%nat as [|n] eqn:Hk; simpl in Hj; [|discriminate].
           injection Hj as <-. split; [exact Hscan|]. intros _. split; [lia | reflexivity].
      * replace (Z.min (regex_lookbehind_step * Z.of_nat k) initPos + regex_lookbehind_step)
          with (regex_lookbehind_step * Z.of_nat (S k))
          by (unfold regex_lookbehind_step in *; lia).
        apply IH; [lia | rewrite length_app; simpl; lia | congruence | exact Hp |].
        intros j q Hj. rewrite length_app. simpl length.
        destruct (Nat.lt_ge_cases j (length trace)) as [Hlt|Hge].
        -- rewrite lookup_app_l in Hj by exact Hlt. destruct (Hold j q Hj) as [Hnone Hcut].
           split; [exact Hnone | intros Hc; contradiction].
        -- rewrite lookup_app_r in Hj by exact Hge.
           destruct (j - length trace)%nat as [|n] eqn:Hk; simpl in Hj; [|discriminate].
           injection Hj as <-. split; [exact Hscan|]. unfold p. simpl. lia.
Qed.

End RetryScan.

(** C5 (amended). In every call of [search] the retry loop returns.
    Pass [k] enters with the shift [5 * k] and scans with that shift cut
    down to [initPos] when it would cross the start of the buffer (that
    pass is then the last): the shift used is at most 100, the scan
    starts at [initPos - shift], never before offset 0, and what the pass
    finds is what the regex finds in the text read there.  When the
    source of the pattern does not contain ["(?<"], the loop makes
    exactly one pass. *)
Theorem lookbehind_passes_within_bounds regex readSize onlyLeadingWhiteSpace s :
  exists r trace s',
    search_loop search_fuel regex readSize onlyLeadingWhiteSpace
                (Z.of_nat (position s)) 0 true [] s = Ok ((r, trace), s')
    /\ trace_ok (Z.of_nat (position s)) trace
    /\ scans_ok regex readSize onlyLeadingWhiteSpace (Z.of_nat (position s))
                (buffer s) r trace
    /\ (performLookbehind regex = false -> length trace = 1%nat).
Proof.
  destruct (search_loop_scans regex readSize onlyLeadingWhiteSpace
              (Z.of_nat (position s)) (buffer s) (Nat2Z.is_nonneg _)
              search_fuel 0 true [] s)
    as (r & trace & s' & Hrun & Hok & Hscan).
  - unfold search_fuel. vm_compute. lia.
  - reflexivity.
  - reflexivity.
  - intros k p Hk. rewrite lookup_nil in Hk. discriminate.
  - intros k p Hk. rewrite lookup_nil in Hk. discriminate.
  - exists r, trace, s'. split; [exact Hrun|]. split; [exact Hok|]. split; [exact Hscan|].
    intros Hno.
    destruct (search_loop_single_pass regex readSize onlyLeadingWhiteSpace 21
                (Z.of_nat (position s)) s (Nat2Z.is_nonneg _) Hno)
      as (r1 & p & s1 & Hone).
    change (S 21) with search_fuel in Hone.
    change (regex_lookbehind_step * Z.of_nat 0) with 0 in Hrun.
    rewrite Hrun in Hone. injection Hone as _ -> _. reflexivity.
Qed.

(** ** The recursion guard of the block shape, with the text it returns *)

(** C8. In a block rule whose begin and end both match and whose inner
    range [(midStart, midClose)] is the window [(startPos, closePos)]
    itself, [parse] succeeds with one untagged leaf, whose content is the
    text of the buffer from [midStart] up to [midClose] (what
    [stream_read_pos] reads: cut at the end of the buffer, and the whole
    rest of the buffer if [midClose] were before [midStart]), with the
    span [(midStart, midClose)] and the stream left at [midClose]; the
    inner patterns are not dispatched (the result is the same for every
    list of patterns and every iteration budget). *)
Theorem block_recursion_guard heap PARSERSTORE depth iters self b e startPos closePos
    s bs bcap ps s1 es ecap midClose s2 :
  gp_match (heap self) = None ->
  gp_begin (heap self) = Some b ->
  gp_end (heap self) = Some e ->
  search heap (parse heap PARSERSTORE depth iters) b (gp_beginCaptures (heap self))
         (Some (closePos - startPos + 1)) true
         (mkStringIO (buffer s) (Z.to_nat startPos))
    = Ok ((Some bs, bcap, Some ps), s1) ->
  search heap (parse heap PARSERSTORE depth iters) e (gp_endCaptures (heap self))
         (Some (closePos - Z.of_nat (position s1) + 1)) false s1
    = Ok ((Some es, ecap, Some midClose), s2) ->
  (Z.of_nat (position s1), midClose) = (startPos, closePos) ->
  parse heap PARSERSTORE (S depth) iters self startPos (Some closePos) s
  = Ok ((true,
         [RawString (substring (Z.to_nat startPos)
                               (if closePos <? startPos
                                then String.length (buffer s) - Z.to_nat startPos
                                else Z.to_nat (closePos - startPos))
                               (buffer s))],
         Some (startPos, closePos)),
        mkStringIO (buffer s) (Z.to_nat closePos)).
Proof.
  intros Hm Hb He Hbegin Hend Hsame.
  injection Hsame as Hstart Hclose. subst midClose.
  pose proof (search_start_nonneg _ _ _ _ _ _ _ _ _ _ _ Hend) as Hmc.
  assert (Hsp : 0 <= startPos) by lia.
  pose proof (post_Ok _ _ _ _ _ _
                (search_keeps heap _ (parse_keeps heap PARSERSTORE iters depth)
                              b _ _ true _) Hbegin) as [Hbuf1 _].
  pose proof (post_Ok _ _ _ _ _ _
                (search_keeps heap _ (parse_keeps heap PARSERSTORE iters depth)
                              e _ _ false _) Hend) as [Hbuf2 _].
  simpl buffer in Hbuf1.
  assert (Hread :
    stream_read_pos startPos closePos s2
    = Ok (substring (Z.to_nat startPos)
                    (if closePos <? startPos
                     then String.length (buffer s) - Z.to_nat startPos
                     else Z.to_nat (closePos - startPos))
                    (buffer s),
          mkStringIO (buffer s) (Z.to_nat closePos))).
  { unfold stream_read_pos, bind, read, ret.
    rewrite seek_nonneg by exact Hsp. simpl.
    rewrite seek_nonneg by exact Hmc. simpl.
    rewrite Hbuf2, Hbuf1.
    destruct (Z.ltb_spec (closePos - startPos) 0) as [Hneg|Hpos];
      destruct (Z.ltb_spec closePos startPos) as [Hlt|Hge]; try lia; [reflexivity|].
    rewrite substring_min. reflexivity. }
  simpl. unfold parse_body. rewrite Hm, Hb, He.
  unfold bind at 1. rewrite seek_nonneg by exact Hsp.
  unfold parse_block.
  rewrite (bind_eq _ _ _ _ _ Hbegin). cbn beta iota.
  unfold bind at 1. unfold tell at 1.
  rewrite (bind_eq _ _ _ _ _ Hend). cbn beta iota.
  unfold bind at 1. unfold tell at 1.
  rewrite Hstart.
  unfold option_Z_eqb. rewrite !Z.eqb_refl. cbn [andb].
  rewrite (bind_eq _ _ _ _ _ Hread). reflexivity.
Qed.

(** X1. [stream_end_pos] returns the length of the text and leaves the
    stream as it found it, wherever the position is (also past the end). *)
Theorem stream_end_pos_frame s :
  stream_end_pos s = Ok (Z.of_nat (String.length (buffer s)), s).
Proof.
  destruct s as [buf pos]. unfold stream_end_pos, bind, tell, seek_end, ret. simpl.
  rewrite seek_nonneg by lia. simpl. rewrite Nat2Z.id. reflexivity.
Qed.

(** X2. For offsets that are not negative, [stream_read_pos(stream, start,
    end)] returns the text from [start] up to [end] (cut at the end of the
    buffer; the whole rest of the buffer when [end < start], since the
    size given to [read] is then negative) and leaves the stream at
    [end], wherever it was before. *)
Theorem stream_read_pos_slice start end_ s :
  0 <= start -> 0 <= end_ ->
  stream_read_pos start end_ s
  = Ok (substring (Z.to_nat start)
                  (if end_ <? start
                   then String.length (buffer s) - Z.to_nat start
                   else Z.to_nat (end_ - start))
                  (buffer s),
        mkStringIO (buffer s) (Z.to_nat end_)).
Proof.
  intros Hs He. unfold stream_read_pos, bind, read, ret.
  rewrite seek_nonneg by exact Hs. simpl.
  rewrite seek_nonneg by exact He. simpl.
  destruct (Z.ltb_spec (end_ - start) 0) as [Hneg|Hpos];
    destruct (Z.ltb_spec end_ start) as [Hlt|Hge]; try lia; [reflexivity|].
  rewrite substring_min. reflexivity.
Qed.

(** ** What [parse] keeps *)

(** X3. [parse] never changes the text of the stream: whatever the rule
    graph, the buffer on return is the buffer at entry. *)
Theorem parse_keeps_buffer heap PARSERSTORE depth iters self startPos closePos s r s' :
  parse heap PARSERSTORE depth iters self startPos closePos s = Ok (r, s') ->
  buffer s' = buffer s.
Proof.
  intros H.
  pose proof (post_Ok _ _ _ _ _ _
                (parse_keeps heap PARSERSTORE iters depth self startPos closePos s) H)
    as (Hbuf & _).
  exact Hbuf.
Qed.

(** X4. Every successful return of [parse] carries a span, and the end of
    the span is the position the stream is left at. *)
Theorem parse_success_span heap PARSERSTORE depth iters self startPos closePos
    s elements sp s' :
  parse heap PARSERSTORE depth iters self startPos closePos s
    = Ok ((true, elements, sp), s') ->
  exists parsedStart, sp = Some (parsedStart, Z.of_nat (position s')).
Proof.
  intros H.
  pose proof (post_Ok _ _ _ _ _ _
                (parse_keeps heap PARSERSTORE iters depth self startPos closePos s) H)
    as (_ & Hspan & _).
  exact (Hspan eq_refl).
Qed.

(** X5. [parse] never uses a position that is [None]: a sub-parser that
    reports a match has returned a span, [search] returns a start with
    every string, and the running choice of the dispatcher has a position
    whenever it has elements; so an exception that comes out of [parse]
    is never a [TypeError]. *)
Theorem parse_never_TypeError heap PARSERSTORE depth iters self startPos closePos s e :
  parse heap PARSERSTORE depth iters self startPos closePos s = Raise e ->
  e <> TypeError.
Proof.
  intros H.
  exact (post_Raise _ _ _ _ _
           (parse_keeps heap PARSERSTORE iters depth self startPos closePos s) H).
Qed.

(** X6. Every return of [search] is of one of two kinds: a string with a
    start that is not negative, or the triple [(None, [], None)] with the
    stream back at the position of entry. *)
Theorem search_result_shape heap PARSERSTORE depth iters regex parsers readSize olw
    s matched elements start s' :
  search heap (parse heap PARSERSTORE depth iters) regex parsers readSize olw s
    = Ok ((matched, elements, start), s') ->
  (exists content begin, matched = Some content /\ start = Some begin /\ 0 <= begin)
  \/ (matched = None /\ elements = [] /\ start = None /\ position s' = position s).
Proof.
  intros H.
  pose proof (post_Ok _ _ _ _ _ _
                (search_keeps heap _ (parse_keeps heap PARSERSTORE iters depth)
                              regex parsers readSize olw s) H)
    as (_ & Hshape).
  destruct matched as [content|].
  - destruct start as [begin|]; [|contradiction]. left. eauto.
  - destruct elements; [|contradiction]. destruct start; [contradiction|].
    right. auto.
Qed.

(** ** [search]: the passes and where a match can start *)

Section Passes.

Variable regex : Pattern.
Variable readSize : option Z.
Variable olw : bool.

Lemma scan_lines_inv lines :
  forall linePos0 m linePos,
    scan_lines regex lines linePos0 = Some (m, linePos) ->
    linePos0 <= linePos /\ exists line, search_line regex line = Some m.
Proof.
  induction lines as [|line rest IH]; intros linePos0 m linePos; simpl; [discriminate|].
  destruct (search_line regex line) as [m'|] eqn:Hline.
  - intros [= <- <-]. split; [lia | eauto].
  - intros H. apply IH in H. destruct H as [Hle Hex]. split; [lia | exact Hex].
Qed.

(** What a pass that returns has done to the shift and to the flag, and
    where a match it found lies. *)
Lemma search_pass_inv initPos lookbehind can s found shift can' s' :
  0 <= initPos -> 0 <= lookbehind ->
  search_pass regex readSize olw initPos lookbehind can s = Ok ((found, shift, can'), s') ->
  shift = (if initPos - lookbehind <? 0 then initPos else lookbehind)
  /\ can' = (if initPos - lookbehind <? 0 then false
             else if performLookbehind regex then can else false)
  /\ forall m m2s, found = Some (m, m2s) ->
       initPos - shift <= m2s /\ exists line, search_line regex line = Some m.
Proof.
  intros Hpos Hlb. unfold search_pass.
  set (shift0 := if initPos - lookbehind <? 0 then initPos else lookbehind).
  assert (Hs : 0 <= shift0) by (unfold shift0; destruct (initPos - lookbehind <? 0); lia).
  set (can0 := if initPos - lookbehind <? 0 then false
               else if performLookbehind regex then can else false).
  replace (if initPos - lookbehind <? 0 then (initPos, false)
           else (lookbehind, if performLookbehind regex then can else false))
    with (shift0, can0) by (unfold shift0, can0; destruct (initPos - lookbehind <? 0); reflexivity).
  destruct (if int_truthy readSize then readSize else None) as [size|]; intros H.
  - bind_inv_as H sought s1 Hseek. bind_inv_as H text s2 Hread.
    destruct (scan_lines regex _ 0) as [[m linePos]|] eqn:Hscan;
      apply ret_Ok in H; injection H as -> -> -> ->.
    + split; [reflexivity|]. split; [reflexivity|].
      intros m' m2s [= <- <-]. apply scan_lines_inv in Hscan.
      destruct Hscan as [Hle Hex]. split; [lia | exact Hex].
    + split; [reflexivity|]. split; [reflexivity|]. discriminate.
  - bind_inv_as H sought s1 Hseek. bind_inv_as H line s2 Hread.
    destruct (search_line regex line) as [m|] eqn:Hline.
    + destruct (olw && any_not_space (py_slice line 0 (m_start m)));
        apply ret_Ok in H; injection H as -> -> -> ->;
        (split; [reflexivity|]; split; [reflexivity|]); [discriminate|].
      intros m' m2s [= <- <-]. split; [lia | eauto].
    + apply ret_Ok in H. injection H as -> -> -> ->.
      split; [reflexivity|]. split; [reflexivity|]. discriminate.
Qed.

Lemma search_loop_bounds initPos :
  0 <= initPos ->
  forall fuel lookbehind can trace s r trace' s',
    search_loop fuel regex readSize olw initPos lookbehind can trace s
      = Ok ((r, trace'), s') ->
    0 <= lookbehind ->
    (length trace <= 21)%nat ->
    can = false \/ regex_lookbehind_step * Z.of_nat (length trace) <= lookbehind ->
    (length trace <= length trace' <= 21)%nat
    /\ forall m m2s, r = Some (m, m2s) ->
         initPos - regex_lookbehind_max <= m2s
         /\ exists line, search_line regex line = Some m.
Proof.
  intros Hpos.
  induction fuel as [|fuel IH]; intros lookbehind can trace s r trace' s' H Hlb Hlen Hinv.
  - simpl in H.
    destruct ((lookbehind <=? regex_lookbehind_max) && can); [discriminate|].
    apply ret_Ok in H. injection H as -> -> ->. split; [lia | discriminate].
  - simpl in H.
    destruct (Z.leb_spec lookbehind regex_lookbehind_max) as [Hle|Hgt];
      [|apply ret_Ok in H; injection H as -> -> ->; split; [lia | discriminate]].
    destruct can;
      [|apply ret_Ok in H; injection H as -> -> ->; split; [lia | discriminate]].
    simpl in H. destruct Hinv as [Hcan|Hinv]; [discriminate|].
    assert (Hk : (length trace <= 20)%nat)
      by (unfold regex_lookbehind_step, regex_lookbehind_max in *; lia).
    bind_inv_as H passed s1 Hpass. destruct passed as [[found shift] can'].
    apply search_pass_inv in Hpass; [|exact Hpos|exact Hlb].
    destruct Hpass as (Hshift & Hcan' & Hfound).
    destruct found as [[m m2s]|].
    + apply ret_Ok in H. injection H as -> -> ->.
      rewrite length_app. simpl. split; [lia|].
      intros m' m2s' [= <- <-]. destruct (Hfound m m2s eq_refl) as [Hm2s Hex].
      split; [|exact Hex].
      subst shift. unfold regex_lookbehind_max in *.
      destruct (Z.ltb_spec (initPos - lookbehind) 0); lia.
    + apply IH in H.
      * rewrite length_app in H. simpl in H. destruct H as [Hl Hm]. split; [lia | exact Hm].
      * subst shift. unfold regex_lookbehind_step.
        destruct (initPos - lookbehind <? 0); lia.
      * rewrite length_app. simpl. lia.
      * subst shift can'. rewrite length_app. simpl.
        destruct (initPos - lookbehind <? 0); [left; reflexivity|].
        right. unfold regex_lookbehind_step in *. lia.
Qed.

(** Without ["(?<"] in the source a match is found in the pass that is
    not shifted. *)
Lemma search_loop_unshifted fuel initPos s m m2s trace s' :
  0 <= initPos ->
  performLookbehind regex = false ->
  search_loop fuel regex readSize olw initPos 0 true [] s
    = Ok ((Some (m, m2s), trace), s') ->
  initPos <= m2s.
Proof.
  intros Hpos Hno H. destruct fuel as [|fuel]; [discriminate|].
  simpl in H. bind_inv_as H passed s1 Hpass. destruct passed as [[found shift] can'].
  apply search_pass_inv in Hpass; [|exact Hpos|lia].
  destruct Hpass as (Hshift & Hcan' & Hfound).
  replace (initPos - 0 <? 0) with false in * by (symmetry; apply Z.ltb_ge; lia).
  destruct found as [[m1 m2s1]|].
  - apply ret_Ok in H. injection H as -> -> -> ->.
    destruct (Hfound m1 m2s1 eq_refl) as [Hm2s _]. lia.
  - rewrite Hno in Hcan'. subst can'. rewrite search_loop_stopped in H. discriminate.
Qed.

Lemma search_loop_some_pass fuel initPos s r trace s' :
  0 <= initPos ->
  search_loop (S fuel) regex readSize olw initPos 0 true [] s = Ok ((r, trace), s') ->
  (1 <= length trace)%nat.
Proof.
  intros Hpos H. simpl in H.
  bind_inv_as H passed s1 Hpass. destruct passed as [[found shift] can'].
  apply search_pass_inv in Hpass; [|lia|lia]. destruct Hpass as (-> & -> & _).
  destruct found as [hit|].
  - apply ret_Ok in H. injection H as -> -> ->. simpl. lia.
  - apply search_loop_bounds in H; simpl.
    + simpl in H. lia.
    + exact Hpos.
    + unfold regex_lookbehind_step. destruct (initPos - 0 <? 0); lia.
    + lia.
    + destruct (initPos - 0 <? 0); [left; reflexivity|].
      right. unfold regex_lookbehind_step. lia.
Qed.

End Passes.

(** The start [search] returns is the offset of the match plus
    [matchingToStreamPos]. *)
Lemma search_found heap rec regex parsers readSize olw s content elements start s' :
  search heap rec regex parsers readSize olw s
    = Ok ((Some content, elements, Some start), s') ->
  exists m m2s trace s1,
    search_loop search_fuel regex readSize olw (Z.of_nat (position s)) 0 true [] s
      = Ok ((Some (m, m2s), trace), s1)
    /\ start = m2s + m_start m.
Proof.
  unfold search. intros H.
  bind_inv_as H initPos sa Htell. apply ret_Ok in Htell. injection Htell as -> ->.
  bind_inv_as H looped sb Hloop.
  destruct looped as [found trace]. destruct found as [[m m2s]|].
  2:{ bind_inv H. apply ret_Ok in H. discriminate. }
  exists m, m2s, trace, sb. split; [exact Hloop|].
  bind_inv_as H sought sc Hseek. bind_inv_as H matchedString sd Hread.
  destruct (dict_get parsers 0) as [[p0|nm]|].
  - bind_inv H. apply ret_Ok in H. congruence.
  - discriminate.
  - destruct parsers as [|kv rest].
    + bind_inv H. apply ret_Ok in H. congruence.
    + bind_inv_as H parsed se Hgroups. destruct parsed as [[|el elsr]|].
      * apply ret_Ok in H. congruence.
      * bind_inv H. apply ret_Ok in H. congruence.
      * bind_inv H. apply ret_Ok in H. discriminate.
Qed.

(** X7. The retry loop of [search] always returns, after at least one
    and at most 21 passes (the shifts 0, 5, ..., 100). *)
Theorem search_loop_pass_count regex readSize olw s :
  exists r trace s',
    search_loop search_fuel regex readSize olw (Z.of_nat (position s)) 0 true [] s
      = Ok ((r, trace), s')
    /\ (1 <= length trace <= 21)%nat.
Proof.
  destruct (search_loop_inv regex readSize olw (Z.of_nat (position s))
              (Nat2Z.is_nonneg _) search_fuel 0 true [] s)
    as (r & trace & s' & Hrun & _).
  - unfold search_fuel. vm_compute. lia.
  - reflexivity.
  - intros k p Hk. rewrite lookup_nil in Hk. discriminate.
  - change (regex_lookbehind_step * Z.of_nat 0) with 0 in Hrun.
    exists r, trace, s'. split; [exact Hrun|].
    destruct (search_loop_bounds regex readSize olw _ (Nat2Z.is_nonneg _)
                _ _ _ _ _ _ _ _ Hrun) as [Hlen _].
    + lia.
    + simpl. lia.
    + right. simpl. unfold regex_lookbehind_step. lia.
    + split; [|lia].
      change search_fuel with (S 21) in Hrun.
      exact (search_loop_some_pass regex readSize olw _ _ _ _ _ _
               (Nat2Z.is_nonneg _) Hrun).
Qed.

(** X8. With an engine whose match offsets are not negative, the start
    [search] returns is never more than 100 characters before the
    position of entry; and when the source of the pattern does not
    contain ["(?<"], it is not before the position of entry at all. *)
Theorem search_start_bounds heap rec regex parsers readSize olw s content elements start s' :
  starts_in_line regex ->
  search heap rec regex parsers readSize olw s
    = Ok ((Some content, elements, Some start), s') ->
  Z.of_nat (position s) - 100 <= start
  /\ (performLookbehind regex = false -> Z.of_nat (position s) <= start).
Proof.
  intros Hengine H.
  destruct (search_found _ _ _ _ _ _ _ _ _ _ _ H) as (m & m2s & trace & s1 & Hloop & ->).
  destruct (search_loop_bounds regex readSize olw _ (Nat2Z.is_nonneg _)
              _ _ _ _ _ _ _ _ Hloop) as [_ Hm].
  - lia.
  - simpl. lia.
  - right. simpl. unfold regex_lookbehind_step. lia.
  - destruct (Hm m m2s eq_refl) as [Hm2s (line & Hline)].
    pose proof (Hengine line m Hline) as Hstart.
    unfold regex_lookbehind_max in Hm2s. split; [lia|].
    intros Hno.
    pose proof (search_loop_unshifted regex readSize olw _ _ _ _ _ _ _
                  (Nat2Z.is_nonneg _) Hno Hloop).
    lia.
Qed.

(** ** Match rules *)

(** With no capture parsers, [search] returns the text of the stream
    between the start it returns and the position it leaves. *)
Lemma search_no_parsers heap rec regex readSize olw s content elements start s' :
  ends_after_start regex ->
  search heap rec regex [] readSize olw s = Ok ((Some content, elements, Some start), s') ->
  elements = []
  /\ 0 <= start <= Z.of_nat (position s')
  /\ buffer s' = buffer s
  /\ content = substring (Z.to_nat start) (Z.to_nat (Z.of_nat (position s') - start))
                         (buffer s).
Proof.
  intros Hengine H. unfold search in H.
  bind_inv_as H initPos sa Htell. apply ret_Ok in Htell. injection Htell as -> ->.
  bind_inv_as H looped sb Hloop. destruct looped as [found trace].
  destruct found as [[m m2s]|].
  2:{ bind_inv H. apply ret_Ok in H. discriminate. }
  assert (Hbuf : buffer sb = buffer s).
  { exact (post_Ok _ _ _ _ _ _ (search_loop_keeps regex readSize olw _ _ _ _ _ _) Hloop). }
  destruct (search_loop_bounds regex readSize olw _ (Nat2Z.is_nonneg _)
              _ _ _ _ _ _ _ _ Hloop) as [_ Hm];
    [lia | simpl; lia | right; simpl; unfold regex_lookbehind_step; lia |].
  destruct (Hm m m2s eq_refl) as [_ (line & Hline)].
  pose proof (Hengine line m Hline) as Hspan.
  bind_inv_as H sought sc Hseek. bind_inv_as H matchedString sd Hread.
  simpl in H. bind_inv_as H sought2 se Hseek2. apply ret_Ok in H.
  injection H as -> -> -> ->.
  unfold seek in Hseek. destruct (Z.ltb_spec (m2s + m_start m) 0); [discriminate|].
  injection Hseek as <- <-.
  unfold read in Hread. injection Hread as <- <-.
  unfold seek in Hseek2. destruct (Z.ltb_spec (m2s + m_end m) 0); [discriminate|].
  injection Hseek2 as <- <-. simpl.
  split; [reflexivity|]. split; [lia|]. split; [exact Hbuf|].
  destruct (Z.ltb_spec (m2s + m_end m - (m2s + m_start m)) 0); [lia|].
  rewrite substring_min. rewrite Hbuf. f_equal. lia.
Qed.

(** X9. For a match rule without captures (and an engine whose matches
    end no earlier than they start), a successful [parse] returns exactly
    one element, with the token of the rule, no captures, and as content
    the text of the stream over the span [(parsedStart, parsedEnd)] it
    reports. *)
Theorem match_element_is_span_text heap PARSERSTORE depth iters self regex
    startPos closePos s elements a b s' :
  gp_match (heap self) = Some regex ->
  gp_captures (heap self) = [] ->
  ends_after_start regex ->
  parse heap PARSERSTORE (S depth) iters self startPos closePos s
    = Ok ((true, elements, Some (a, b)), s') ->
  0 <= a <= b
  /\ elements = [ParsedElement (gp_token (heap self))
                               (substring (Z.to_nat a) (Z.to_nat (b - a)) (buffer s)) []].
Proof.
  intros Hm Hcap Hengine H. simpl in H. unfold parse_body in H. rewrite Hm in H.
  bind_inv_as H sought s0 Hseek.
  unfold seek in Hseek. destruct (startPos <? 0); [discriminate|].
  injection Hseek as <- <-.
  unfold parse_match in H. rewrite Hcap in H.
  bind_inv_as H found s1 Hsearch. destruct found as [[string captures] parsedStart].
  destruct string as [content|]; [|apply ret_Ok in H; discriminate].
  destruct parsedStart as [start|]; [|discriminate].
  apply (search_no_parsers _ _ _ _ _ _ _ _ _ _ Hengine) in Hsearch.
  destruct Hsearch as (-> & Hrange & Hbuf & ->).
  unfold succeed, bind, tell, ret in H. injection H as <- <- <- <-.
  split; [lia | reflexivity].
Qed.

(** X10. A captures entry for group 0 that is an include is stored as a
    bare name and is never resolved: whenever the regex of such a match
    rule finds a match, [parse] raises [AttributeError], also when the
    name has an entry in the class dictionary. *)
Theorem include_for_group_0_raises heap PARSERSTORE depth iters self regex name
    startPos closePos s matching matchingToStreamPos trace s1 :
  gp_match (heap self) = Some regex ->
  dict_get (gp_captures (heap self)) 0 = Some (NameRef name) ->
  0 <= startPos ->
  search_loop search_fuel regex
              (match closePos with Some c => Some (c - startPos + 1) | None => None end)
              true startPos 0 true [] (mkStringIO (buffer s) (Z.to_nat startPos))
    = Ok ((Some (matching, matchingToStreamPos), trace), s1) ->
  0 <= matchingToStreamPos + m_start matching ->
  parse heap PARSERSTORE (S depth) iters self startPos closePos s = Raise AttributeError.
Proof.
  intros Hm Hcap Hpos Hloop Hstart. simpl. unfold parse_body. rewrite Hm.
  unfold bind at 1. rewrite seek_nonneg by exact Hpos.
  unfold parse_match. unfold bind at 1. unfold search.
  unfold bind at 1. unfold tell at 1. simpl position. rewrite Z2Nat.id by exact Hpos.
  rewrite (bind_eq _ _ _ _ _ Hloop). cbn beta iota.
  unfold bind at 1. rewrite seek_nonneg by exact Hstart.
  unfold bind at 1. unfold read at 1. rewrite Hcap. reflexivity.
Qed.

(** ** Rules without a regex *)

(** X11. A rule with no [match] and without both [begin] and [end] never
    fails: every return of [parse] for it reports a match, also when its
    patterns capture nothing, and the span it reports starts at
    [startPos], wherever the first captured element starts. *)
Theorem rule_without_regex_succeeds heap PARSERSTORE depth iters self startPos closePos
    s matched elements sp s' :
  gp_match (heap self) = None ->
  gp_begin (heap self) = None \/ gp_end (heap self) = None ->
  parse heap PARSERSTORE depth iters self startPos closePos s
    = Ok ((matched, elements, sp), s') ->
  matched = true /\ sp = Some (startPos, Z.of_nat (position s')).
Proof.
  intros Hm Hbe H. destruct depth as [|depth]; [discriminate|].
  simpl in H. unfold parse_body in H. rewrite Hm in H.
  bind_inv_as H sought s0 Hseek.
  assert (Hs0 : Z.of_nat (position s0) = startPos).
  { unfold seek in Hseek. destruct (Z.ltb_spec startPos 0); [discriminate|].
    injection Hseek as _ <-. simpl. lia. }
  assert (Hrest :
    match gp_patterns (heap self) with
    | [] => parse_leaf (heap self) startPos closePos
    | _ :: _ => parse_patterns heap PARSERSTORE (parse heap PARSERSTORE depth iters)
                               iters self (heap self) startPos closePos
    end s0 = Ok ((matched, elements, sp), s')).
  { destruct Hbe as [Hb|He].
    - rewrite Hb in H. exact H.
    - rewrite He in H. destruct (gp_begin (heap self)); exact H. }
  clear H. destruct (gp_patterns (heap self)).
  - unfold parse_leaf in Hrest. bind_inv_as Hrest read_ s1 Hread.
    destruct read_ as [parsedStart content].
    apply succeed_Ok in Hrest. destruct Hrest as [Hr ->]. injection Hr as -> _ ->.
    split; [reflexivity|]. f_equal. f_equal.
    destruct closePos as [c|].
    + bind_inv Hread. apply ret_Ok in Hread. congruence.
    + bind_inv_as Hread told s2 Htell. apply ret_Ok in Htell.
      bind_inv Hread. apply ret_Ok in Hread. congruence.
  - unfold parse_patterns in Hrest.
    bind_inv Hrest. bind_inv Hrest. bind_inv Hrest. bind_inv Hrest.
    apply succeed_Ok in Hrest. destruct Hrest as [Hr ->]. injection Hr as -> _ ->.
    split; reflexivity.
Qed.


(** X13. [parse] from a negative [startPos] raises [ValueError] (the
    stream refuses the seek), whatever the rule. *)
Theorem parse_negative_start_raises heap PARSERSTORE depth iters self startPos closePos s :
  startPos < 0 ->
  parse heap PARSERSTORE (S depth) iters self startPos closePos s = Raise ValueError.
Proof.
  intros Hneg. simpl. unfold parse_body, bind, seek.
  destruct (Z.ltb_spec startPos 0); [reflexivity | lia].
Qed.

(** X14. A rule with no regex and no patterns, given a window that
    starts at an offset that is not negative and does not end before it
    starts, returns one element with the token of the rule (its comment
    when it has no token) and the text of the window, cut at the end of
    the buffer. *)
Theorem leaf_is_window_text heap PARSERSTORE depth iters self startPos closePos s :
  gp_match (heap self) = None ->
  gp_begin (heap self) = None \/ gp_end (heap self) = None ->
  gp_patterns (heap self) = [] ->
  0 <= startPos <= closePos ->
  exists parsedEnd,
    parse heap PARSERSTORE (S depth) iters self startPos (Some closePos) s
    = Ok ((true,
           [ParsedElement (token_or_comment (heap self))
                          (substring (Z.to_nat startPos) (Z.to_nat (closePos - startPos))
                                     (buffer s)) []],
           Some (startPos, Z.of_nat parsedEnd)),
          mkStringIO (buffer s) parsedEnd)
    /\ (parsedEnd <= Nat.max (Z.to_nat startPos) (Z.to_nat closePos))%nat.
Proof.
  intros Hm Hbe Hp Hwin.
  exists (Z.to_nat startPos
          + Nat.min (Z.to_nat (closePos - startPos))
                    (String.length (buffer s) - Z.to_nat startPos))%nat.
  split; [|lia].
  simpl. unfold parse_body. rewrite Hm, Hp.
  unfold bind at 1. rewrite seek_nonneg by lia.
  assert (Hleaf :
    parse_leaf (heap self) startPos (Some closePos)
               (mkStringIO (buffer s) (Z.to_nat startPos))
    = Ok ((true,
           [ParsedElement (token_or_comment (heap self))
                          (substring (Z.to_nat startPos) (Z.to_nat (closePos - startPos))
                                     (buffer s)) []],
           Some (startPos,
                 Z.of_nat (Z.to_nat startPos
                           + Nat.min (Z.to_nat (closePos - startPos))
                                     (String.length (buffer s) - Z.to_nat startPos)))),
          mkStringIO (buffer s)
                     (Z.to_nat startPos
                      + Nat.min (Z.to_nat (closePos - startPos))
                                (String.length (buffer s) - Z.to_nat startPos)))).
  { unfold parse_leaf, bind, read, ret, succeed, bind, tell, ret. simpl.
    destruct (Z.ltb_spec (closePos - startPos) 0); [lia|].
    rewrite substring_min. reflexivity. }
  destruct Hbe as [Hb|He].
  - rewrite Hb. exact Hleaf.
  - rewrite He. destruct (gp_begin (heap self)); exact Hleaf.
Qed.

(** ** Resolving the patterns *)

Lemma get_parsers_Ok PARSERSTORE callIds :
  forall ps, get_parsers PARSERSTORE callIds = Ok ps <->
             Forall2 (resolves PARSERSTORE) callIds ps.
Proof.
  induction callIds as [|callId rest IH]; intros ps; simpl.
  - split; [intros [= <-]; constructor | intros H; inversion H; reflexivity].
  - split.
    + destruct callId as [p|name]; simpl.
      * destruct (get_parsers PARSERSTORE rest) as [ps'|e|] eqn:Hrest; try discriminate.
        intros [= <-]. constructor; [reflexivity | apply IH; reflexivity].
      * destruct (PARSERSTORE !! name) as [p|] eqn:Hlook; try discriminate.
        destruct (get_parsers PARSERSTORE rest) as [ps'|e|] eqn:Hrest; try discriminate.
        intros [= <-]. constructor; [exact Hlook | apply IH; reflexivity].
    + intros H. inversion H as [|r p rest' ps' Hr Hrest]; subst.
      apply IH in Hrest. destruct callId as [q|name]; simpl in *.
      * subst q. rewrite Hrest. reflexivity.
      * rewrite Hr, Hrest. reflexivity.
Qed.

(** X15. [match_patterns] resolves its patterns in order: the list of
    parsers has one parser per reference, an object for itself and a name
    for its entry in the class dictionary; and when a name has no entry,
    the error names the first such name, the references before it being
    resolvable. *)
Theorem get_parsers_in_order PARSERSTORE callIds :
  (forall ps, get_parsers PARSERSTORE callIds = Ok ps <->
              Forall2 (resolves PARSERSTORE) callIds ps)
  /\ (forall e, get_parsers PARSERSTORE callIds = Raise e ->
        exists before name after ps,
          callIds = before ++ NameRef name :: after
          /\ e = IncludedParserNotFound name
          /\ PARSERSTORE !! name = None
          /\ Forall2 (resolves PARSERSTORE) before ps)
  /\ get_parsers PARSERSTORE callIds <> OutOfFuel.
Proof.
  split; [apply get_parsers_Ok|].
  induction callIds as [|callId rest [IHe IHf]]; simpl.
  { split; [discriminate | discriminate]. }
  destruct callId as [p|name]; simpl.
  - destruct (get_parsers PARSERSTORE rest) as [ps'|e'|] eqn:Hrest.
    + split; [discriminate | discriminate].
    + split; [|discriminate]. intros e [= <-].
      destruct (IHe e' eq_refl) as (before & name & after & ps & -> & -> & Hnone & Hbefore).
      exists (ObjRef p :: before), name, after, (p :: ps).
      repeat split; try assumption. constructor; [reflexivity | exact Hbefore].
    + contradiction.
  - destruct (PARSERSTORE !! name) as [p|] eqn:Hlook.
    + destruct (get_parsers PARSERSTORE rest) as [ps'|e'|] eqn:Hrest.
      * split; [discriminate | discriminate].
      * split; [|discriminate]. intros e [= <-].
        destruct (IHe e' eq_refl) as (before & name' & after & ps & -> & -> & Hnone & Hbefore).
        exists (NameRef name :: before), name', after, (p :: ps).
        repeat split; try assumption. constructor; [exact Hlook | exact Hbefore].
      * contradiction.
    + split; [|discriminate]. intros e [= <-].
      exists [], name, rest, []. repeat split; [exact Hlook | constructor].
Qed.

(** X16. Over an empty window ([closePos <= startPos]), or with no
    patterns at all, [match_patterns] returns no element and leaves the
    stream at [startPos]; no parser is called. *)
Theorem match_patterns_nothing_to_do heap PARSERSTORE rec iters self startPos closePos
    s parsers :
  get_parsers PARSERSTORE (gp_patterns (heap self)) = Ok parsers ->
  0 <= startPos ->
  closePos <= startPos \/ (parsers = [] /\ (0 < iters)%nat) ->
  match_patterns heap PARSERSTORE rec iters self startPos closePos s
  = Ok ([], mkStringIO (buffer s) (Z.to_nat startPos)).
Proof.
  intros Hparsers Hpos Hcase. unfold match_patterns.
  unfold bind at 1. unfold lift. rewrite Hparsers.
  unfold bind at 1. rewrite seek_nonneg by exact Hpos.
  destruct (Z.ltb_spec startPos closePos) as [Hlt|Hge].
  - destruct Hcase as [Hle|[-> Hiters]]; [lia|].
    destruct iters as [|iters]; [lia|].
    simpl. apply Z.ltb_lt in Hlt. rewrite Hlt. reflexivity.
  - apply Z.ltb_ge in Hge. destruct iters; simpl; rewrite Hge; reflexivity.
Qed.

(** ** Construction: what [__init__] builds *)

Lemma extends_refl w : extends w w.
Proof. split; [reflexivity|]. split; [lia | auto]. Qed.

Lemma extends_trans w1 w2 w3 : extends w1 w2 -> extends w2 w3 -> extends w1 w3.
Proof.
  intros (Hs1 & Hl1 & Ho1) (Hs2 & Hl2 & Ho2).
  split; [congruence|]. split; [lia|].
  intros i Hi. rewrite Ho2 by lia. apply Ho1. exact Hi.
Qed.

Section ConstructionBuilds.

Variable compile : string -> option Pattern.


Lemma built_inline g :
  (forall key w self w', init compile g key w = Ok (self, w') ->
                         built compile g key w self w') ->
  inline_ok_for compile g.
Proof.
  intros H w p w' Hinit. destruct (H _ _ _ _ Hinit) as (Hself & Hstore & Hlen & Hobj & _).
  split; [exact Hself|]. split; [exact Hstore|]. split; [lia | exact Hobj].
Qed.

Lemma set_parser_builds self g w r w' :
  inline_ok_for compile g ->
  set_parser (fun g0 w0 => init compile g0 "" w0) self g w = Ok (r, w') ->
  (self < length (objects w))%nat ->
  extends w w' /\ pattern_ref self g r.
Proof.
  intros Hg H Hself. unfold set_parser in H. unfold pattern_ref.
  destruct (g_include g) as [target|].
  - destruct (String.eqb target "$self"); injection H as <- <-;
      (split; [apply extends_refl | reflexivity]).
  - destruct (init compile g "" w) as [[p w1]| |] eqn:Hinit; try discriminate.
    injection H as <- <-. destruct (Hg _ _ _ Hinit) as [-> Hext].
    split; [exact Hext | eauto].
Qed.

Lemma init_captures_builds self items :
  Forall (fun kv => inline_ok_for compile (snd kv)) items ->
  forall captures w c w',
    init_captures (set_parser (fun g0 w0 => init compile g0 "" w0) self) items captures w
      = Ok (c, w') ->
    (self < length (objects w))%nat ->
    extends w w'.
Proof.
  induction 1 as [|[k g] items Hg _ IH]; intros captures w c w' H Hself; simpl in H.
  - injection H as <- <-. apply extends_refl.
  - destruct (set_parser _ self g w) as [[r w1]| |] eqn:Hset; try discriminate.
    destruct (set_parser_builds _ _ _ _ _ Hg Hset Hself) as [Hext _].
    eapply extends_trans; [exact Hext|].
    eapply IH; [exact H|]. destruct Hext as (_ & Hl & _). lia.
Qed.

Lemma init_captures_opt_builds self items w c w' :
  all_captures (inline_ok_for compile) items ->
  init_captures_opt (set_parser (fun g0 w0 => init compile g0 "" w0) self) items w
    = Ok (c, w') ->
  (self < length (objects w))%nat ->
  extends w w' /\ (items = None -> c = []).
Proof.
  intros Hall H Hself. destruct items as [l|]; simpl in *.
  - split; [|discriminate]. eapply init_captures_builds; eassumption.
  - injection H as <- <-. split; [apply extends_refl | reflexivity].
Qed.

Lemma init_patterns_builds self items :
  Forall (inline_ok_for compile) items ->
  forall w rs w',
    init_patterns (set_parser (fun g0 w0 => init compile g0 "" w0) self) items w
      = Ok (rs, w') ->
    (self < length (objects w))%nat ->
    extends w w' /\ Forall2 (pattern_ref self) items rs.
Proof.
  induction 1 as [|g items Hg _ IH]; intros w rs w' H Hself; simpl in H.
  - injection H as <- <-. split; [apply extends_refl | constructor].
  - destruct (set_parser _ self g w) as [[r w1]| |] eqn:Hset; try discriminate.
    destruct (init_patterns _ items w1) as [[rs1 w2]| |] eqn:Hrest; try discriminate.
    injection H as <- <-.
    destruct (set_parser_builds _ _ _ _ _ Hg Hset Hself) as [Hext Href].
    destruct (IH _ _ _ Hrest) as [Hext2 Hrefs].
    { destruct Hext as (_ & Hl & _). lia. }
    split; [eapply extends_trans; eassumption | constructor; assumption].
Qed.

Lemma init_finish_builds g key self m b e c bc ec w r w' :
  all_patterns (inline_ok_for compile) (g_patterns g) ->
  init_finish (set_parser (fun g0 w0 => init compile g0 "" w0) self) g key self
              m b e c bc ec w = Ok (r, w') ->
  (self < length (objects w))%nat ->
  exists wc ps,
    extends w wc
    /\ Forall2 (pattern_ref self) (match g_patterns g with Some l => l | None => [] end) ps
    /\ r = self
    /\ w' = mkWorld (<[self := mkGrammarParser key (get_default (g_name g))
                                 (get_default (g_contentName g))
                                 (get_default (g_comment g)) m b e c bc ec ps]>
                      (objects wc))
                    (store wc).
Proof.
  intros Hall H Hself. unfold init_finish in H.
  destruct (init_patterns_opt _ (g_patterns g) w) as [[ps wc]| |] eqn:Hps; try discriminate.
  injection H as <- <-. exists wc, ps.
  assert (Hext : extends w wc
                 /\ Forall2 (pattern_ref self)
                            (match g_patterns g with Some l => l | None => [] end) ps).
  { destruct (g_patterns g) as [l|]; simpl in *.
    - eapply init_patterns_builds; eassumption.
    - injection Hps as <- <-. split; [apply extends_refl | constructor]. }
  destruct Hext as [Hext Hrefs].
  split; [exact Hext|]. split; [exact Hrefs|]. split; reflexivity.
Qed.

Lemma compile_opt_Ok text m :
  compile_opt compile (Some text) = Ok m -> m = compile text /\ is_Some m.
Proof.
  unfold compile_opt. destruct (compile text) as [regex|]; [|discriminate].
  intros [= <-]. split; [reflexivity | eauto].
Qed.

(** From the end of [__init__] to the whole of it. *)
Lemma built_of_finish g key w w0 wk self m b e c bc ec r w' :
  all_patterns (inline_ok_for compile) (g_patterns g) ->
  self = length (objects w) ->
  w0 = mkWorld (objects w ++ [blank])
               (if str_truthy key then <[key := self]> (store w) else store w) ->
  extends w0 wk ->
  init_finish (set_parser (fun g0 w1 => init compile g0 "" w1) self) g key self
              m b e c bc ec wk = Ok (r, w') ->
  regexes_of compile g (mkGrammarParser key (get_default (g_name g))
                          (get_default (g_contentName g))
                          (get_default (g_comment g)) m b e c bc ec []) ->
  r = self /\ built compile g key w self w'.
Proof.
  intros Hall Hself Hw0 Hext Hfin Hregex.
  assert (Hl0 : length (objects w0) = S self).
  { rewrite Hw0. simpl. rewrite length_app. simpl. lia. }
  destruct Hext as (Hs & Hl & Ho).
  destruct (init_finish_builds _ _ _ _ _ _ _ _ _ _ _ _ Hall Hfin) as
    (wc & ps & (Hs2 & Hl2 & Ho2) & Hrefs & -> & ->); [lia|].
  split; [reflexivity|].
  split; [exact Hself|]. simpl.
  split; [rewrite Hs2, Hs, Hw0; reflexivity|].
  split; [rewrite length_insert; lia|].
  split.
  { intros i Hi. rewrite list_lookup_insert_ne by lia.
    rewrite Ho2 by lia. rewrite Ho by lia. rewrite Hw0. simpl.
    apply lookup_app_l. exact Hi. }
  eexists. split; [apply list_lookup_insert_eq; lia|].
  simpl. repeat split; try reflexivity; [|exact Hrefs].
  unfold regexes_of in *. simpl in *.
  destruct (g_match g); [exact Hregex|].
  destruct (g_begin g), (g_end g); exact Hregex.
Qed.

Lemma init_built :
  forall g key w self w',
    init compile g key w = Ok (self, w') -> built compile g key w self w'.
Proof.
  intros g. pattern g. apply Grammar_nested_ind. clear g.
  intros n cn cm m b e c bc ec ps inc Hc Hbc Hec Hps key w self w' H.
  assert (Hc' : all_captures (inline_ok_for compile) c).
  { destruct c as [l|]; simpl in *; [|exact I].
    eapply Forall_impl; [exact Hc|]. intros [k g0] H0. apply built_inline. exact H0. }
  assert (Hbc' : all_captures (inline_ok_for compile) bc).
  { destruct bc as [l|]; simpl in *; [|exact I].
    eapply Forall_impl; [exact Hbc|]. intros [k g0] H0. apply built_inline. exact H0. }
  assert (Hec' : all_captures (inline_ok_for compile) ec).
  { destruct ec as [l|]; simpl in *; [|exact I].
    eapply Forall_impl; [exact Hec|]. intros [k g0] H0. apply built_inline. exact H0. }
  assert (Hps' : all_patterns (inline_ok_for compile) ps).
  { destruct ps as [l|]; simpl in *; [|exact I].
    eapply Forall_impl; [exact Hps|]. intros g0 H0. apply built_inline. exact H0. }
  clear Hc Hbc Hec Hps.
  rewrite init_unfold in H. cbv zeta in H.
  cbn [g_match g_begin g_end g_captures g_beginCaptures g_endCaptures] in H.
  set (g := GrammarDict n cn cm m b e c bc ec ps inc) in *.
  set (self0 := length (objects w)) in *.
  set (w0 := mkWorld (objects w ++ [blank])
                     (if str_truthy key then <[key := self0]> (store w) else store w)) in *.
  assert (Hl0 : (self0 < length (objects w0))%nat).
  { unfold w0. simpl. rewrite length_app. simpl. lia. }
  assert (Hfinish : forall wk m' b' e' c' bc' ec',
            extends w0 wk ->
            init_finish (set_parser (fun g0 w1 => init compile g0 "" w1) self0) g key self0
                        m' b' e' c' bc' ec' wk = Ok (self, w') ->
            regexes_of compile g (mkGrammarParser key (get_default (g_name g))
                                    (get_default (g_contentName g))
                                    (get_default (g_comment g)) m' b' e' c' bc' ec' []) ->
            built compile g key w self w').
  { intros wk m' b' e' c' bc' ec' Hext Hfin Hregex.
    destruct (built_of_finish g key w w0 wk self0 m' b' e' c' bc' ec' self w'
                Hps' eq_refl eq_refl Hext Hfin Hregex) as [-> Hb].
    exact Hb. }
  destruct m as [text|].
  - destruct (compile_opt compile (Some text)) as [m0| |] eqn:Hcm; try discriminate.
    destruct (init_captures_opt _ c w0) as [[c0 w1]| |] eqn:Hcc; try discriminate.
    destruct (init_captures_opt_builds _ _ _ _ _ Hc' Hcc Hl0) as [Hext _].
    apply (Hfinish _ _ _ _ _ _ _ Hext H).
    apply compile_opt_Ok in Hcm. destruct Hcm as [-> Hsome].
    unfold regexes_of. simpl. repeat split; try reflexivity. exact Hsome.
  - destruct b as [btext|], e as [etext|].
    + destruct (compile_opt compile (Some btext)) as [b0| |] eqn:Hcb; try discriminate.
      destruct (compile_opt compile (Some etext)) as [e0| |] eqn:Hce; try discriminate.
      destruct (init_captures_opt _ bc w0) as [[bc0 w1]| |] eqn:Hcc; try discriminate.
      destruct (init_captures_opt _ ec w1) as [[ec0 w2]| |] eqn:Hcc2; try discriminate.
      destruct (init_captures_opt_builds _ _ _ _ _ Hbc' Hcc Hl0) as [Hext1 _].
      destruct (init_captures_opt_builds _ _ _ _ _ Hec' Hcc2) as [Hext2 _].
      { destruct Hext1 as (_ & Hl & _). lia. }
      apply (Hfinish _ _ _ _ _ _ _ (extends_trans _ _ _ Hext1 Hext2) H).
      apply compile_opt_Ok in Hcb. destruct Hcb as [-> Hsb].
      apply compile_opt_Ok in Hce. destruct Hce as [-> Hse].
      unfold regexes_of. simpl. repeat split; try reflexivity; assumption.
    + apply (Hfinish _ _ _ _ _ _ _ (extends_refl w0) H).
      unfold regexes_of. simpl. repeat split; reflexivity.
    + apply (Hfinish _ _ _ _ _ _ _ (extends_refl w0) H).
      unfold regexes_of. simpl. repeat split; reflexivity.
    + apply (Hfinish _ _ _ _ _ _ _ (extends_refl w0) H).
      unfold regexes_of. simpl. repeat split; reflexivity.
Qed.

End ConstructionBuilds.

(** X17. Construction registers the new object under its key, and only
    there: under a non-empty key the class dictionary gains (or has
    overwritten) that one entry, which [get_parser] then resolves to the
    new object; under the empty key, and for every rule built inline for
    a capture or a pattern, the class dictionary is left as it was. *)
Theorem init_registers_key compile g key w self w' :
  init compile g key w = Ok (self, w') ->
  self = length (objects w)
  /\ (key = "" -> store w' = store w)
  /\ (key <> "" ->
      get_parser (store w') (NameRef key) = Ok self
      /\ forall name, name <> key -> store w' !! name = store w !! name).
Proof.
  intros H. destruct (init_built compile _ _ _ _ _ H) as (Hself & Hstore & _).
  split; [exact Hself|]. split.
  - intros ->. exact Hstore.
  - intros Hkey. destruct key as [|c key]; [contradiction|]. simpl in Hstore.
    rewrite Hstore. split.
    + unfold get_parser. rewrite lookup_insert_eq. reflexivity.
    + intros name Hne. rewrite lookup_insert_ne by congruence. reflexivity.
Qed.

(** X18. Construction never touches a rule built before: the new object
    takes the next index, the objects already there keep their fields,
    and the arena only grows. *)
Theorem init_keeps_objects compile g key w self w' :
  init compile g key w = Ok (self, w') ->
  (length (objects w) < length (objects w'))%nat
  /\ forall i, (i < length (objects w))%nat -> heap_of w' i = heap_of w i.
Proof.
  intros H. destruct (init_built compile _ _ _ _ _ H) as (_ & _ & Hlen & Hobj & _).
  split; [exact Hlen|].
  intros i Hi. unfold heap_of. rewrite !nth_lookup. rewrite (Hobj i Hi). reflexivity.
Qed.

(** X19. The rule [__init__] builds: its key and its tokens are those of
    the grammar (empty when absent); its regexes are [match] alone when
    the grammar has a [match] (then [begin] and [end] are ignored), both
    [begin] and [end] when the grammar has the two and no [match], and
    none otherwise (a [begin] without an [end] is dropped); its patterns
    are stored in order, [$self] as the rule itself, any other include as
    its target without the first character, an inline rule as a new
    object. *)
Theorem init_builds_rule compile g key w self w' :
  init compile g key w = Ok (self, w') ->
  gp_key (heap_of w' self) = key
  /\ gp_token (heap_of w' self) = get_default (g_name g)
  /\ gp_contentToken (heap_of w' self) = get_default (g_contentName g)
  /\ gp_comment (heap_of w' self) = get_default (g_comment g)
  /\ regexes_of compile g (heap_of w' self)
  /\ Forall2 (pattern_ref self)
             (match g_patterns g with Some l => l | None => [] end)
             (gp_patterns (heap_of w' self)).
Proof.
  intros H.
  destruct (init_built compile _ _ _ _ _ H)
    as (_ & _ & _ & _ & node & Hnode & Hk & Ht & Hct & Hcm & Hre & Hps).
  unfold heap_of. rewrite nth_lookup, Hnode. simpl.
  repeat split; assumption.
Qed.

(** ** [_gen_repositories] *)

Section JsonInduction.

Variable P : Json -> Prop.
Hypothesis Hnull : P JNull.
Hypothesis Hbool : forall b, P (JBool b).
Hypothesis Hnum : forall z, P (JNum z).
Hypothesis Hstr : forall s, P (JStr s).
Hypothesis Hlist : forall l, all_members P l -> P (JList l).
Hypothesis Hdict : forall items, all_values P items -> P (JDict items).

Lemma Json_nested_ind : forall j, P j.
Proof.
  fix IH 1. intros [ |b|z|s|l|items].
  - exact Hnull.
  - apply Hbool.
  - apply Hnum.
  - apply Hstr.
  - apply Hlist. induction l as [|d l IHl]; constructor; [apply IH | exact IHl].
  - apply Hdict. induction items as [|[k v] items IHi]; constructor; [apply IH | exact IHi].
Qed.

End JsonInduction.

Lemma gen_repositories_dict key items :
  gen_repositories key (JDict items) = flat_map (item_repositories key) items.
Proof.
  induction items as [|[k v] rest IH]; [reflexivity|].
  change (gen_repositories key (JDict ((k, v) :: rest)))
    with ((if String.eqb k key then [v] else [])
          ++ match v with
             | JDict _ => gen_repositories key v
             | JList l =>
                 (fix over_list (l : list Json) : list Json :=
                    match l with
                    | [] => []
                    | d :: l' => gen_repositories key d ++ over_list l'
                    end) l
             | _ => []
             end
          ++ gen_repositories key (JDict rest)).
  rewrite IH. cbn [flat_map].
  assert (Hitem :
    item_repositories key (k, v)
    = (if String.eqb k key then [v] else [])
      ++ match v with
         | JDict _ => gen_repositories key v
         | JList l =>
             (fix over_list (l : list Json) : list Json :=
                match l with
                | [] => []
                | d :: l' => gen_repositories key d ++ over_list l'
                end) l
         | _ => []
         end).
  { reflexivity. }
  rewrite Hitem. rewrite <- app_assoc. reflexivity.
Qed.

(** What is yielded was found, for a value and for the members of a list. *)
Lemma gen_repositories_sound key :
  forall g,
    (forall v, In v (gen_repositories key g) -> found_under key g v)
    /\ (forall l, g = JList l ->
         Forall (fun d => forall v, In v (gen_repositories key d) -> found_under key d v) l).
Proof.
  intros g. pattern g. apply Json_nested_ind; clear g.
  - split; [intros v H; contradiction | discriminate].
  - intros b. split; [intros v H; contradiction | discriminate].
  - intros z. split; [intros v H; contradiction | discriminate].
  - intros s. split; [intros v H; contradiction | discriminate].
  - intros l Hall. split; [intros v H; contradiction|].
    intros l' [= <-]. unfold all_members in Hall.
    eapply Forall_impl; [exact Hall|]. intros d [Hd _]. exact Hd.
  - intros items Hall. split; [|discriminate].
    intros v H. rewrite gen_repositories_dict in H.
    apply in_flat_map in H. destruct H as ([k d] & Hin & Hv).
    unfold all_values in Hall. rewrite Forall_forall in Hall.
    destruct (Hall (k, d) (proj2 (list_elem_of_In _ _) Hin)) as [Hd Hmembers].
    simpl in Hd, Hmembers.
    unfold item_repositories in Hv. cbn [fst snd] in Hv. apply in_app_or in Hv.
    destruct Hv as [Hv|Hv].
    + destruct (String.eqb_spec k key) as [->|]; [|contradiction].
      destruct Hv as [<-|[]]. apply found_here. exact Hin.
    + destruct d as [ |b|z|s|l|items']; try contradiction.
      * apply in_flat_map in Hv. destruct Hv as (m & Hm & Hv).
        apply (found_in_list key items k l m v Hin Hm).
        specialize (Hmembers l eq_refl). rewrite Forall_forall in Hmembers.
        apply (Hmembers m (proj2 (list_elem_of_In _ _) Hm)). exact Hv.
      * apply (found_in_dict key items k items' v Hin). apply Hd. exact Hv.
Qed.

Lemma gen_repositories_complete key g v :
  found_under key g v -> In v (gen_repositories key g).
Proof.
  induction 1 as [items v Hin | items k items' v Hin _ IH | items k l d v Hin Hd _ IH];
    rewrite gen_repositories_dict; apply in_flat_map.
  - exists (key, v). split; [exact Hin|].
    unfold item_repositories. cbn [fst snd]. rewrite String.eqb_refl.
    apply in_or_app. left. left. reflexivity.
  - exists (k, JDict items'). split; [exact Hin|].
    unfold item_repositories. cbn [fst snd]. apply in_or_app. right. exact IH.
  - exists (k, JList l). split; [exact Hin|].
    unfold item_repositories. cbn [fst snd]. apply in_or_app. right.
    apply in_flat_map. exists d. split; assumption.
Qed.

(** X20. [_gen_repositories] yields exactly the values stored under the
    key in the grammar itself, in the dicts that are values of its items,
    and in the members of the lists that are, to any depth; a value that
    is not a dict yields nothing, and a list directly inside a list is
    not searched. *)
Theorem gen_repositories_finds key g v :
  In v (gen_repositories key g) <-> found_under key g v.
Proof.
  split; [apply gen_repositories_sound | apply gen_repositories_complete].
Qed.


(** ** The key of an injection *)

Lemma str_index_lstrip c s : str_index c s = None -> str_index c (lstrip s) = None.
Proof.
  induction s as [|d r IH]; intros H; [reflexivity|]. simpl in *.
  destruct (Ascii.eqb d c) eqn:Hd; [discriminate|].
  destruct (str_index c r) eqn:Hr; [discriminate|].
  destruct (is_space d); [apply IH; reflexivity|].
  simpl. rewrite Hd, Hr. reflexivity.
Qed.

Lemma str_index_rstrip c s : str_index c s = None -> str_index c (rstrip s) = None.
Proof.
  induction s as [|d r IH]; intros H; [reflexivity|]. simpl in *.
  destruct (Ascii.eqb d c) eqn:Hd; [discriminate|].
  destruct (str_index c r) eqn:Hr; [discriminate|].
  specialize (IH eq_refl).
  destruct (rstrip r) as [|e r'] eqn:Hrs.
  - destruct (is_space d); [reflexivity|]. simpl. rewrite Hd. reflexivity.
  - change (str_index c (String d (String e r')))
      with (if Ascii.eqb d c then Some 0%nat else S <$> str_index c (String e r')).
    rewrite Hd, IH. reflexivity.
Qed.

Lemma str_index_strip c s : str_index c s = None -> str_index c (py_strip s) = None.
Proof. intros H. apply str_index_rstrip, str_index_lstrip, H. Qed.

Lemma str_index_prefix c s i :
  str_index c s = Some i -> str_index c (substring 0 i s) = None.
Proof.
  revert i. induction s as [|d r IH]; intros i; simpl; [discriminate|].
  destruct (Ascii.eqb d c) eqn:Hd.
  - intros [= <-]. reflexivity.
  - destruct (str_index c r) as [j|] eqn:Hr; [|discriminate].
    intros [= <-]. simpl. rewrite Hd. rewrite (IH j eq_refl). reflexivity.
Qed.

Lemma split_char_pieces c s : Forall (fun piece => str_index c piece = None) (split_char c s).
Proof.
  induction s as [|d r IH]; simpl; [repeat constructor|].
  destruct (Ascii.eqb d c) eqn:Hd.
  - constructor; [reflexivity | exact IH].
  - destruct (split_char c r) as [|h t]; [repeat constructor; simpl; rewrite Hd; reflexivity|].
    apply Forall_cons in IH. destruct IH as [Hh Ht].
    constructor; [|exact Ht]. simpl. rewrite Hd, Hh. reflexivity.
Qed.

Lemma lstrip_stable s : lstrip (lstrip s) = lstrip s.
Proof.
  induction s as [|c r IH]; [reflexivity|]. simpl.
  destruct (is_space c) eqn:Hc; [exact IH|]. simpl. rewrite Hc. reflexivity.
Qed.

Lemma rstrip_stable s : rstrip (rstrip s) = rstrip s.
Proof.
  induction s as [|c r IH]; [reflexivity|]. cbn [rstrip].
  destruct (rstrip r) as [|e r'] eqn:Hr.
  - destruct (is_space c) eqn:Hc; [reflexivity|]. simpl. rewrite Hc. reflexivity.
  - change (rstrip (String c (String e r')))
      with (match rstrip (String e r') with
            | EmptyString => if is_space c then EmptyString else String c EmptyString
            | r'' => String c r''
            end).
    rewrite IH. reflexivity.
Qed.

(** Stripping on the right keeps a first character that is not a space. *)
Lemma lstrip_rstrip s : lstrip (rstrip (lstrip s)) = rstrip (lstrip s).
Proof.
  induction s as [|c r IH]; [reflexivity|]. simpl lstrip at 2 3.
  destruct (is_space c) eqn:Hc; [exact IH|].
  cbn [rstrip]. destruct (rstrip r) as [|e r'].
  - rewrite Hc. simpl. rewrite Hc. reflexivity.
  - simpl. rewrite Hc. reflexivity.
Qed.

Lemma py_strip_stable s : py_strip (py_strip s) = py_strip s.
Proof. unfold py_strip. rewrite lstrip_rstrip. apply rstrip_stable. Qed.

Lemma append_cons c (a b : string) : String c a +:+ b = String c (a +:+ b).
Proof. reflexivity. Qed.

Lemma append_nil (b : string) : EmptyString +:+ b = b.
Proof. reflexivity. Qed.

Lemma lstrip_split s :
  exists l, s = l +:+ lstrip s /\ only_space l = true /\ starts_space (lstrip s) = false.
Proof.
  induction s as [|c r (l & Hl & Hb & Hs)]; [exists EmptyString; auto|].
  simpl. destruct (is_space c) eqn:Hc.
  - exists (String c l). split; [rewrite append_cons; f_equal; exact Hl|].
    simpl. rewrite Hc, Hb. auto.
  - exists EmptyString. split; [reflexivity|]. split; [reflexivity | exact Hc].
Qed.

Lemma rstrip_split t :
  exists r,
    t = rstrip t +:+ r /\ only_space r = true /\ ends_space (rstrip t) = false
    /\ (starts_space t = false -> starts_space (rstrip t) = false).
Proof.
  induction t as [|c t (r & Hr & Hb & He & _)]; [exists EmptyString; auto|].
  cbn [rstrip]. destruct (rstrip t) as [|e t'] eqn:Ht.
  - rewrite append_nil in Hr. subst r. destruct (is_space c) eqn:Hc.
    + exists (String c t). split; [reflexivity|].
      split; [simpl; rewrite Hc, Hb; reflexivity|].
      split; [reflexivity|]. simpl. intros Hs. congruence.
    + exists t. split; [reflexivity|]. split; [exact Hb|].
      split; simpl; auto.
  - exists r. split; [rewrite append_cons; f_equal; exact Hr|].
    split; [exact Hb|]. split; [|auto].
    change (ends_space (String c (String e t'))) with (ends_space (String e t')).
    exact He.
Qed.

Lemma py_strip_stripped s : stripped s (py_strip s).
Proof.
  unfold py_strip. destruct (lstrip_split s) as (l & Hl & Hbl & Hs).
  destruct (rstrip_split (lstrip s)) as (r & Hr & Hbr & He & Hkeep).
  exists l, r. split; [|auto].
  rewrite <- Hr. exact Hl.
Qed.

Lemma str_index_app c before rest :
  str_index c before = None ->
  str_index c (before +:+ String c rest) = Some (String.length before).
Proof.
  induction before as [|d r IH]; simpl.
  - intros _. rewrite Ascii.eqb_refl. reflexivity.
  - destruct (Ascii.eqb d c); [discriminate|].
    destruct (str_index c r); [discriminate|]. intros _. rewrite IH by reflexivity.
    reflexivity.
Qed.

Lemma substring_whole s : substring 0 (String.length s) s = s.
Proof. induction s as [|c r IH]; simpl; [reflexivity | rewrite IH; reflexivity]. Qed.

Lemma substring_app_l a b : substring 0 (String.length a) (a +:+ b) = a.
Proof.
  induction a as [|c r IH]; simpl; [destruct b; reflexivity | rewrite IH; reflexivity].
Qed.

Lemma substring_app_r a b :
  substring (String.length a) (String.length (a +:+ b) - String.length a) (a +:+ b) = b.
Proof.
  induction a as [|c r IH]; simpl.
  - rewrite Nat.sub_0_r. apply substring_whole.
  - exact IH.
Qed.

Lemma split_char_cons c s : exists h t, split_char c s = h :: t.
Proof.
  destruct s as [|d r]; simpl; [eauto|].
  destruct (Ascii.eqb d c); [eauto|]. destruct (split_char c r); eauto.
Qed.

Lemma join_with_cons sep (x y : string) rest :
  join_with sep (x :: y :: rest) = x +:+ sep +:+ join_with sep (y :: rest).
Proof. reflexivity. Qed.

Lemma join_split c s : join_with (String c EmptyString) (split_char c s) = s.
Proof.
  induction s as [|d r IH]; [reflexivity|]. cbn [split_char].
  destruct (split_char_cons c r) as (h & t & Hsplit). rewrite Hsplit in *.
  destruct (Ascii.eqb_spec d c) as [->|Hne].
  - rewrite join_with_cons, IH. reflexivity.
  - destruct t as [|h2 t].
    + cbn [join_with] in *. rewrite IH. reflexivity.
    + rewrite join_with_cons in *. rewrite append_cons, IH. reflexivity.
Qed.

(** X21. An injection key is taken apart at its first ["-"].  A key
    without one raises [ValueError].  For a key [before-rest], with no
    ["-"] in [before], the target is [before] without the whitespace at
    its ends (the scope of the language when nothing is left), and the
    excepted scopes are the pieces of [rest] between its ["-"]s, each
    without the whitespace at its ends, the empty ones left out. *)
Theorem injection_key_parts scopeName before rest :
  str_index "-" before = None ->
  injection_key scopeName before = Raise ValueError
  /\ exists target pieces scopes,
       injection_key scopeName (before +:+ "-" +:+ rest)
         = Ok (if str_truthy target then target else scopeName,
               List.filter str_truthy scopes)
       /\ stripped before target
       /\ join_with "-" pieces = rest
       /\ Forall (fun piece => str_index "-" piece = None) pieces
       /\ Forall2 stripped pieces scopes.
Proof.
  intros Hdash. split; [unfold injection_key; rewrite Hdash; reflexivity|].
  exists (py_strip before), (split_char "-" rest), (List.map py_strip (split_char "-" rest)).
  split; [|split; [apply py_strip_stripped|split; [apply join_split|split]]].
  - unfold injection_key.
    change (before +:+ "-" +:+ rest) with (before +:+ String "-" rest).
    rewrite (str_index_app "-" before rest Hdash).
    rewrite substring_app_l, substring_app_r. reflexivity.
  - apply split_char_pieces.
  - induction (split_char "-" rest) as [|piece pieces IH]; constructor;
      [apply py_strip_stripped | exact IH].
Qed.

(** ** The regex fragment is an engine of the expected kind *)

Lemma onig_run_end plain prog :
  forall line i opened regs e regs',
    Onig.run plain prog line i opened regs = Some (e, regs') -> (i <= e)%nat.
Proof.
  induction prog as [|instr prog IH]; intros line i opened regs e regs' H; simpl in H.
  - injection H as <- _. lia.
  - destruct instr as [c|named| |negated lit].
    + destruct (String.get i line) as [d|]; [|discriminate].
      destruct (Ascii.eqb c d); [|discriminate]. apply IH in H. lia.
    + destruct (named || plain); apply IH in H; exact H.
    + destruct opened as [|[[g b]|] opened']; [discriminate| |]; apply IH in H; exact H.
    + destruct (xorb _ negated); [|discriminate]. apply IH in H. exact H.
Qed.

Lemma onig_search_from plain prog line :
  forall tries i m,
    Onig.search_from plain prog line tries i = Some m -> 0 <= m_start m <= m_end m.
Proof.
  induction tries as [|tries IH]; intros i m H; simpl in H.
  - destruct (Onig.run plain prog line i [] []) as [[e regs]|] eqn:Hrun; [|discriminate].
    injection H as <-. apply onig_run_end in Hrun. unfold m_start, m_end. simpl. lia.
  - destruct (Onig.run plain prog line i [] []) as [[e regs]|] eqn:Hrun.
    + injection H as <-. apply onig_run_end in Hrun. unfold m_start, m_end. simpl. lia.
    + apply IH in H. exact H.
Qed.

Lemma onig_starts_in_line source : starts_in_line (Onig.compile source).
Proof. intros line m H. simpl in H. apply onig_search_from in H. lia. Qed.

Lemma onig_ends_after_start source : ends_after_start (Onig.compile source).
Proof. intros line m H. simpl in H. apply onig_search_from in H. lia. Qed.

(** ** The further properties at concrete inputs *)

Lemma stream_read_pos_slice_witness :
  stream_read_pos 1 3 (mkStringIO "abcd" 0) = Ok ("bc", mkStringIO "abcd" 3).
Proof.
  exact (stream_read_pos_slice 1 3 (mkStringIO "abcd" 0) ltac:(lia) ltac:(lia)).
Defined.

Lemma parse_keeps_buffer_witness :
  parse (heap_of (Demo.world Demo.letters_a_b)) (store (Demo.world Demo.letters_a_b))
        5 10 0 0 (Some 2) (mkStringIO "ab" 0)
    = Ok ((true, [ParsedElement "A" "a" []; ParsedElement "B" "b" []], Some (0, 1)),
          mkStringIO "ab" 1)
  /\ buffer (mkStringIO "ab" 1) = buffer (mkStringIO "ab" 0).
Proof.
  assert (H : parse (heap_of (Demo.world Demo.letters_a_b))
                    (store (Demo.world Demo.letters_a_b))
                    5 10 0 0 (Some 2) (mkStringIO "ab" 0)
              = Ok ((true, [ParsedElement "A" "a" []; ParsedElement "B" "b" []], Some (0, 1)),
                    mkStringIO "ab" 1)) by (vm_compute; reflexivity).
  split; [exact H|].
  exact (parse_keeps_buffer _ _ _ _ _ _ _ _ _ _ H).
Defined.

Lemma parse_success_span_witness :
  parse (heap_of (Demo.world Demo.letter_b)) (store (Demo.world Demo.letter_b))
        1 0 0 0 (Some 2) (mkStringIO "ab" 0)
    = Ok ((true, [ParsedElement "B" "b" []], Some (1, 2)), mkStringIO "ab" 2)
  /\ exists parsedStart,
       Some (1, 2) = Some (parsedStart, Z.of_nat (position (mkStringIO "ab" 2))).
Proof.
  assert (H : parse (heap_of (Demo.world Demo.letter_b)) (store (Demo.world Demo.letter_b))
                    1 0 0 0 (Some 2) (mkStringIO "ab" 0)
              = Ok ((true, [ParsedElement "B" "b" []], Some (1, 2)), mkStringIO "ab" 2))
    by (vm_compute; reflexivity).
  split; [exact H|].
  exact (parse_success_span _ _ _ _ _ _ _ _ _ _ _ H).
Defined.

Lemma parse_never_TypeError_witness :
  parse (heap_of (Demo.world Demo.include_missing)) (store (Demo.world Demo.include_missing))
        5 10 0 0 (Some 1) (mkStringIO "ab" 0)
    = Raise (IncludedParserNotFound "nope")
  /\ IncludedParserNotFound "nope" <> TypeError.
Proof.
  assert (H : parse (heap_of (Demo.world Demo.include_missing))
                    (store (Demo.world Demo.include_missing))
                    5 10 0 0 (Some 1) (mkStringIO "ab" 0)
              = Raise (IncludedParserNotFound "nope")) by (vm_compute; reflexivity).
  split; [exact H|].
  exact (parse_never_TypeError _ _ _ _ _ _ _ _ _ H).
Defined.

Lemma search_result_shape_witness :
  search (heap_of (Demo.world Demo.letter_b))
         (parse (heap_of (Demo.world Demo.letter_b)) (store (Demo.world Demo.letter_b)) 0 0)
         (Onig.compile "b") [] (Some 2) true (mkStringIO "ab" 0)
    = Ok ((Some "b", [], Some 1), mkStringIO "ab" 2)
  /\ ((exists content begin, Some "b" = Some content /\ Some 1 = Some begin /\ 0 <= begin)
      \/ (Some "b" = None /\ @nil Element = [] /\ Some 1 = None
          /\ position (mkStringIO "ab" 2) = position (mkStringIO "ab" 0))).
Proof.
  assert (H : search (heap_of (Demo.world Demo.letter_b))
                     (parse (heap_of (Demo.world Demo.letter_b))
                            (store (Demo.world Demo.letter_b)) 0 0)
                     (Onig.compile "b") [] (Some 2) true (mkStringIO "ab" 0)
              = Ok ((Some "b", [], Some 1), mkStringIO "ab" 2)) by (vm_compute; reflexivity).
  split; [exact H|].
  exact (search_result_shape _ _ _ _ _ _ _ _ _ _ _ _ _ H).
Defined.

Lemma search_start_bounds_witness :
  search (heap_of (Demo.world Demo.letter_b))
         (parse (heap_of (Demo.world Demo.letter_b)) (store (Demo.world Demo.letter_b)) 0 0)
         (Onig.compile "b") [] (Some 2) true (mkStringIO "ab" 0)
    = Ok ((Some "b", [], Some 1), mkStringIO "ab" 2)
  /\ (Z.of_nat (position (mkStringIO "ab" 0)) - 100 <= 1
      /\ (performLookbehind (Onig.compile "b") = false ->
          Z.of_nat (position (mkStringIO "ab" 0)) <= 1)).
Proof.
  assert (H : search (heap_of (Demo.world Demo.letter_b))
                     (parse (heap_of (Demo.world Demo.letter_b))
                            (store (Demo.world Demo.letter_b)) 0 0)
                     (Onig.compile "b") [] (Some 2) true (mkStringIO "ab" 0)
              = Ok ((Some "b", [], Some 1), mkStringIO "ab" 2)) by (vm_compute; reflexivity).
  split; [exact H|].
  exact (search_start_bounds _ _ _ _ _ _ _ _ _ _ _ (onig_starts_in_line "b") H).
Defined.

Lemma match_element_is_span_text_witness :
  parse (heap_of (Demo.world Demo.letter_b)) (store (Demo.world Demo.letter_b))
        1 0 0 0 (Some 2) (mkStringIO "ab" 0)
    = Ok ((true, [ParsedElement "B" "b" []], Some (1, 2)), mkStringIO "ab" 2)
  /\ (0 <= 1 <= 2
      /\ [ParsedElement "B" "b" []]
         = [ParsedElement (gp_token (heap_of (Demo.world Demo.letter_b) 0))
                          (substring (Z.to_nat 1) (Z.to_nat (2 - 1))
                                     (buffer (mkStringIO "ab" 0))) []]).
Proof.
  assert (H : parse (heap_of (Demo.world Demo.letter_b)) (store (Demo.world Demo.letter_b))
                    1 0 0 0 (Some 2) (mkStringIO "ab" 0)
              = Ok ((true, [ParsedElement "B" "b" []], Some (1, 2)), mkStringIO "ab" 2))
    by (vm_compute; reflexivity).
  split; [exact H|].
  refine (match_element_is_span_text _ _ _ _ _ (Onig.compile "b") _ _ _ _ _ _ _
            _ _ (onig_ends_after_start "b") H); vm_compute; reflexivity.
Defined.

Lemma include_for_group_0_raises_witness :
  store Demo.world_with_x !! "x" = Some 0%nat
  /\ dict_get (gp_captures (heap_of Demo.world_with_x 1)) 0 = Some (NameRef "x")
  /\ parse (heap_of Demo.world_with_x) (store Demo.world_with_x)
           1 0 1 0 (Some 1) (mkStringIO "a" 0)
     = Raise AttributeError.
Proof.
  split; [vm_compute; reflexivity|].
  assert (Hcap : dict_get (gp_captures (heap_of Demo.world_with_x 1)) 0 = Some (NameRef "x"))
    by (vm_compute; reflexivity).
  split; [exact Hcap|].
  apply (include_for_group_0_raises _ _ 0 0 1%nat (Onig.compile "a") "x" 0 (Some 1)
           (mkStringIO "a" 0)
           (mkMatch ("a" +:+ String newline "") (0, 1) []) 0 [mkPass 0 0 0]
           (mkStringIO "a" 1)).
  - vm_compute. reflexivity.
  - exact Hcap.
  - lia.
  - vm_compute. reflexivity.
  - vm_compute. discriminate.
Defined.

Lemma rule_without_regex_succeeds_witness :
  parse (heap_of (Demo.world Demo.empty_then_b)) (store (Demo.world Demo.empty_then_b))
        3 10 1 0 (Some 2) (mkStringIO "ab" 0)
    = Ok ((true, [], Some (0, 0)), mkStringIO "ab" 0)
  /\ (true = true /\ Some (0, 0) = Some (0, Z.of_nat (position (mkStringIO "ab" 0)))).
Proof.
  assert (H : parse (heap_of (Demo.world Demo.empty_then_b))
                    (store (Demo.world Demo.empty_then_b))
                    3 10 1 0 (Some 2) (mkStringIO "ab" 0)
              = Ok ((true, [], Some (0, 0)), mkStringIO "ab" 0)) by (vm_compute; reflexivity).
  split; [exact H|].
  refine (rule_without_regex_succeeds _ _ _ _ _ _ _ _ _ _ _ _ _ _ H);
    [vm_compute; reflexivity | left; vm_compute; reflexivity].
Defined.

Lemma leaf_is_window_text_witness :
  exists parsedEnd,
    parse (heap_of (Demo.world Demo.leaf)) (store (Demo.world Demo.leaf))
          1 0 0 1 (Some 3) (mkStringIO "abcd" 0)
    = Ok ((true,
           [ParsedElement (token_or_comment (heap_of (Demo.world Demo.leaf) 0))
                          (substring (Z.to_nat 1) (Z.to_nat (3 - 1))
                                     (buffer (mkStringIO "abcd" 0))) []],
           Some (1, Z.of_nat parsedEnd)),
          mkStringIO (buffer (mkStringIO "abcd" 0)) parsedEnd)
    /\ (parsedEnd <= Nat.max (Z.to_nat 1) (Z.to_nat 3))%nat.
Proof.
  apply leaf_is_window_text.
  - vm_compute. reflexivity.
  - left. vm_compute. reflexivity.
  - vm_compute. reflexivity.
  - lia.
Defined.

Lemma match_patterns_nothing_to_do_witness :
  match_patterns (heap_of (Demo.world Demo.letters_a_b)) (store (Demo.world Demo.letters_a_b))
                 (parse (heap_of (Demo.world Demo.letters_a_b))
                        (store (Demo.world Demo.letters_a_b)) 1 0)
                 0 0 1 1 (mkStringIO "ab" 0)
  = Ok ([], mkStringIO "ab" 1).
Proof.
  exact (match_patterns_nothing_to_do
           (heap_of (Demo.world Demo.letters_a_b)) (store (Demo.world Demo.letters_a_b))
           (parse (heap_of (Demo.world Demo.letters_a_b))
                  (store (Demo.world Demo.letters_a_b)) 1 0)
           0 0 1 1 (mkStringIO "ab" 0) [1%nat; 2%nat]
           ltac:(vm_compute; reflexivity) Z.le_0_1
           (or_introl (Z.le_refl 1))).
Defined.

Lemma init_registers_key_witness :
  init onig_compile (Demo.match_rule "X" "a") "x" Demo.empty_world
    = Ok (0%nat, Demo.rule_x_world)
  /\ get_parser (store Demo.rule_x_world) (NameRef "x") = Ok 0%nat.
Proof.
  assert (H : init onig_compile (Demo.match_rule "X" "a") "x" Demo.empty_world
              = Ok (0%nat, Demo.rule_x_world)) by (vm_compute; reflexivity).
  split; [exact H|].
  destruct (init_registers_key _ _ _ _ _ _ H) as (_ & _ & Hkey).
  exact (proj1 (Hkey ltac:(discriminate))).
Defined.

Lemma init_keeps_objects_witness :
  init onig_compile Demo.group0_include "" Demo.rule_x_world
    = Ok (1%nat, Demo.world_with_x)
  /\ ((length (objects Demo.rule_x_world) < length (objects Demo.world_with_x))%nat
      /\ forall i, (i < length (objects Demo.rule_x_world))%nat ->
           heap_of Demo.world_with_x i = heap_of Demo.rule_x_world i).
Proof.
  assert (H : init onig_compile Demo.group0_include "" Demo.rule_x_world
              = Ok (1%nat, Demo.world_with_x)) by (vm_compute; reflexivity).
  split; [exact H|].
  exact (init_keeps_objects _ _ _ _ _ _ H).
Defined.

Lemma init_builds_rule_witness :
  init onig_compile Demo.letters_a_b "" Demo.empty_world
    = Ok (0%nat, Demo.world Demo.letters_a_b)
  /\ gp_patterns (heap_of (Demo.world Demo.letters_a_b) 0) = [ObjRef 1; ObjRef 2]
  /\ regexes_of onig_compile Demo.letters_a_b (heap_of (Demo.world Demo.letters_a_b) 0).
Proof.
  assert (H : init onig_compile Demo.letters_a_b "" Demo.empty_world
              = Ok (0%nat, Demo.world Demo.letters_a_b)) by (vm_compute; reflexivity).
  split; [exact H|]. split; [vm_compute; reflexivity|].
  destruct (init_builds_rule _ _ _ _ _ _ H) as (_ & _ & _ & _ & Hregex & _).
  exact Hregex.
Defined.


Lemma parse_negative_start_raises_witness :
  parse (heap_of (Demo.world Demo.letter_b)) (store (Demo.world Demo.letter_b))
        1 0 0 (-1) (Some 2) (mkStringIO "ab" 0)
  = Raise ValueError.
Proof.
  exact (parse_negative_start_raises _ _ 0 0 0%nat (-1) (Some 2) (mkStringIO "ab" 0)
           ltac:(lia)).
Defined.

Lemma block_recursion_guard_witness :
  parse (heap_of (Demo.world Demo.block_empty_b)) (store (Demo.world Demo.block_empty_b))
        1 0 0 0 (Some 1) (mkStringIO "ab" 0)
  = Ok ((true, [RawString "a"], Some (0, 1)), mkStringIO "ab" 1).
Proof.
  exact (block_recursion_guard
           (heap_of (Demo.world Demo.block_empty_b)) (store (Demo.world Demo.block_empty_b))
           0 0 0 (Onig.compile "") (Onig.compile "b") 0 1 (mkStringIO "ab" 0)
           "" [] 0 (mkStringIO "ab" 0) "b" [] 1 (mkStringIO "ab" 2)
           eq_refl eq_refl eq_refl eq_refl eq_refl eq_refl).
Defined.

Lemma lookbehind_passes_within_bounds_witness :
  exists r trace s',
    search_loop search_fuel (Onig.compile "(?<=x)y") (Some 1) true 3 0 true []
                (mkStringIO "abcd" 3) = Ok ((r, trace), s')
    /\ trace_ok 3 trace
    /\ scans_ok (Onig.compile "(?<=x)y") (Some 1) true 3 "abcd" r trace
    /\ (performLookbehind (Onig.compile "(?<=x)y") = false -> length trace = 1%nat).
Proof.
  exact (lookbehind_passes_within_bounds (Onig.compile "(?<=x)y") (Some 1) true
                                         (mkStringIO "abcd" 3)).
Defined.

Lemma zero_width_winner_never_returns_witness :
  0 < 1
  /\ for_parsers (parse (heap_of (Demo.world Demo.zero_width))
                        (store (Demo.world Demo.zero_width)) 1 0)
                 [1%nat] 0 1 ∅ ([], None) (mkStringIO "a" 0)
     = Ok ((([ParsedElement "E" "" []], Some (0, 0)),
            <[1%nat := ([ParsedElement "E" "" []], (0, 0))]> ∅),
           mkStringIO "a" 0)
  /\ iteration (parse (heap_of (Demo.world Demo.zero_width))
                      (store (Demo.world Demo.zero_width)) 1 0)
               [1%nat] 1 0 ∅ [] (mkStringIO "a" 0)
     = Ok (Some (0, <[1%nat := ([ParsedElement "E" "" []], (0, 0))]> ∅,
                 [] ++ [ParsedElement "E" "" []]),
           mkStringIO "a" 0)
  /\ forall iters,
       dispatch_loop (parse (heap_of (Demo.world Demo.zero_width))
                            (store (Demo.world Demo.zero_width)) 1 0)
                     iters [1%nat] 1 0 ∅ [] (mkStringIO "a" 0)
       = OutOfFuel.
Proof.
  assert (H : for_parsers (parse (heap_of (Demo.world Demo.zero_width))
                                 (store (Demo.world Demo.zero_width)) 1 0)
                          [1%nat] 0 1 ∅ ([], None) (mkStringIO "a" 0)
              = Ok ((([ParsedElement "E" "" []], Some (0, 0)),
                     <[1%nat := ([ParsedElement "E" "" []], (0, 0))]> ∅),
                    mkStringIO "a" 0))
    by (vm_compute; reflexivity).
  split; [lia|]. split; [exact H|].
  exact (zero_width_winner_never_returns _ _ _ _ _ _ _ _ [] _ _ _ _ _ _ (Z.lt_0_1) H).
Defined.

Lemma injection_key_parts_witness :
  injection_key "source.m" "L:text.html " = Raise ValueError
  /\ exists target pieces scopes,
       injection_key "source.m" ("L:text.html " +:+ "-" +:+ " comment -string.q- ")
         = Ok (if str_truthy target then target else "source.m",
               List.filter str_truthy scopes)
       /\ stripped "L:text.html " target
       /\ join_with "-" pieces = " comment -string.q- "
       /\ Forall (fun piece => str_index "-" piece = None) pieces
       /\ Forall2 stripped pieces scopes.
Proof.
  exact (injection_key_parts "source.m" "L:text.html " " comment -string.q- " eq_refl).
Defined.
